(** * The single-pass compiler of [src/compiler.c]

    A shallow embedding of the lexer, the newline filter, the Pratt parser
    and the bytecode emitter, followed by the properties proved about them.

    Conventions of the embedding.
    - The C code mutates a [Parser] and a [Compiler] through pointers; here
      every function takes the structures it touches and returns the updated
      ones.
    - A function that may read outside a buffer, call a null function
      pointer or loop returns an [outcome]: [Ok] with its result,
      [Undefined] where C gives no meaning to the execution, [OutOfFuel]
      where the bound on the number of nested calls was reached.
    - Offsets and counters ([int] in C, never negative) are [nat]; symbols
      (which may be [-1]) and bytes are [Z]. *)

From Stdlib Require Import ZArith QArith Ascii String Lia Bool.
From stdpp Require Import base decidable list strings.

Set Warnings "-register-all".

Open Scope char_scope.
Open Scope nat_scope.

(** ** Outcomes *)

Inductive Fault :=
| ReadPastBuffer    (* a read of [source] after its zero terminator *)
| NameOverflow      (* a write after the end of a [char name[MAX_NAME]] *)
| NullFunction      (* a call through a NULL [GrammarFn] *)
| NullName.         (* a read through a NULL [rule->name] *)

Inductive outcome (A : Type) :=
| Ok (a : A)
| Undefined (f : Fault)
| OutOfFuel.

Arguments Ok {A} a.
Arguments Undefined {A} f.
Arguments OutOfFuel {A}.

Definition bind {A B} (m : outcome A) (k : A -> outcome B) : outcome B :=
  match m with
  | Ok a => k a
  | Undefined f => Undefined f
  | OutOfFuel => OutOfFuel
  end.

Notation "'let*' p := m 'in' k" := (bind m (fun p => k))
  (at level 10, p pattern, m at level 200, k at level 200).

Infix "==" := Ascii.eqb (at level 70, no associativity).
Infix "<=c" := Ascii.leb (at level 70, no associativity).

(** ** Tokens *)

Inductive TokenType :=
| TOKEN_LEFT_PAREN | TOKEN_RIGHT_PAREN | TOKEN_LEFT_BRACKET
| TOKEN_RIGHT_BRACKET | TOKEN_LEFT_BRACE | TOKEN_RIGHT_BRACE
| TOKEN_COLON | TOKEN_DOT | TOKEN_COMMA | TOKEN_STAR | TOKEN_SLASH
| TOKEN_PERCENT | TOKEN_PLUS | TOKEN_MINUS | TOKEN_PIPE | TOKEN_AMP
| TOKEN_BANG | TOKEN_EQ | TOKEN_LT | TOKEN_GT | TOKEN_LTEQ | TOKEN_GTEQ
| TOKEN_EQEQ | TOKEN_BANGEQ
| TOKEN_CLASS | TOKEN_ELSE | TOKEN_FALSE | TOKEN_FN | TOKEN_IF | TOKEN_IS
| TOKEN_NULL | TOKEN_STATIC | TOKEN_THIS | TOKEN_TRUE | TOKEN_VAR
| TOKEN_NAME | TOKEN_NUMBER | TOKEN_STRING
| TOKEN_LINE
| TOKEN_ERROR | TOKEN_EOF.

(** The enumerators as the integers C gives them. *)
Definition TokenType_index (t : TokenType) : nat :=
  match t with
  | TOKEN_LEFT_PAREN => 0 | TOKEN_RIGHT_PAREN => 1 | TOKEN_LEFT_BRACKET => 2
  | TOKEN_RIGHT_BRACKET => 3 | TOKEN_LEFT_BRACE => 4 | TOKEN_RIGHT_BRACE => 5
  | TOKEN_COLON => 6 | TOKEN_DOT => 7 | TOKEN_COMMA => 8 | TOKEN_STAR => 9
  | TOKEN_SLASH => 10 | TOKEN_PERCENT => 11 | TOKEN_PLUS => 12
  | TOKEN_MINUS => 13 | TOKEN_PIPE => 14 | TOKEN_AMP => 15 | TOKEN_BANG => 16
  | TOKEN_EQ => 17 | TOKEN_LT => 18 | TOKEN_GT => 19 | TOKEN_LTEQ => 20
  | TOKEN_GTEQ => 21 | TOKEN_EQEQ => 22 | TOKEN_BANGEQ => 23
  | TOKEN_CLASS => 24 | TOKEN_ELSE => 25 | TOKEN_FALSE => 26 | TOKEN_FN => 27
  | TOKEN_IF => 28 | TOKEN_IS => 29 | TOKEN_NULL => 30 | TOKEN_STATIC => 31
  | TOKEN_THIS => 32 | TOKEN_TRUE => 33 | TOKEN_VAR => 34 | TOKEN_NAME => 35
  | TOKEN_NUMBER => 36 | TOKEN_STRING => 37 | TOKEN_LINE => 38
  | TOKEN_ERROR => 39 | TOKEN_EOF => 40
  end.

#[global] Instance TokenType_eq_dec : EqDecision TokenType.
Proof.
  intros t u. destruct (decide (TokenType_index t = TokenType_index u)) as [E|N].
  - left.
    abstract (destruct t; destruct u; simpl in E;
              first [reflexivity | discriminate E]).
  - right. intros ->. apply N. reflexivity.
Defined.

Record Token := {
  type : TokenType;
  start : nat;   (* offset of the first character of the token *)
  end_ : nat;    (* offset of the character after the token ([end] in C) *)
  line : nat
}.

(** ** What the compiler uses of the VM *)

(** Modelled from the spec: the symbol tables of the VM (their code is not
    in [compiler.c]).  A table maps a name, a byte range, to a dense index
    given in insertion order; [addSymbol] returns [-1] for a name already
    present, [findSymbol] returns [-1] for an absent name, [ensureSymbol]
    returns the existing index or adds the name. *)
Definition SymbolTable := list (list ascii).

Fixpoint findSymbol_from (i : nat) (symbols : SymbolTable) (name : list ascii) : Z :=
  match symbols with
  | [] => (-1)%Z
  | s :: rest =>
      if decide (s = name) then Z.of_nat i else findSymbol_from (S i) rest name
  end.

Definition findSymbol (symbols : SymbolTable) (name : list ascii) : Z :=
  findSymbol_from 0 symbols name.

Definition addSymbol (symbols : SymbolTable) (name : list ascii) : Z * SymbolTable :=
  if decide (findSymbol symbols name = (-1)%Z)
  then (Z.of_nat (length symbols), symbols ++ [name])
  else ((-1)%Z, symbols).

Definition ensureSymbol (symbols : SymbolTable) (name : list ascii) : Z * SymbolTable :=
  if decide (findSymbol symbols name = (-1)%Z)
  then (Z.of_nat (length symbols), symbols ++ [name])
  else (findSymbol symbols name, symbols).

Definition initSymbolTable : SymbolTable := [].

(** The tagged values of a constant pool.  A pool entry of the C code points
    to its object; the embedding stores the object, and [function] and
    [method] below refresh the entry of a nested function when its frame is
    done (the C code fills the object the entry points to). *)
Inductive Value :=
| NULL_VAL                      (* a cell of the zeroed buffer *)
| NUM_VAL (value : Q)
| OBJ_VAL (obj : Obj)
with Obj :=
| ObjString (text : list ascii)
| ObjFunction (bytecode : list Z) (constants : list Value) (numConstants : nat).

Record ObjFn := {
  bytecode : list Z;
  constants : list Value;
  numConstants : nat
}.

Definition OBJ_VAL_fn (f : ObjFn) : Value :=
  OBJ_VAL (ObjFunction (bytecode f) (constants f) (numConstants f)).

(** Modelled from the spec: [newFunction] gives a function object with
    zeroed instruction and constant buffers.  Their capacity is fixed by the
    VM and not known here: the buffers of the model hold the cells up to the
    highest one written and read as zero above it. *)
Definition newFunction : ObjFn :=
  {| bytecode := []; constants := []; numConstants := 0 |}.

Definition newString (text : list ascii) : Value := OBJ_VAL (ObjString text).

Record VM := {
  globalSymbols : SymbolTable;
  methods : SymbolTable
}.

(** [buffer[i] = v] on such a buffer. *)
Definition store {A} (zero : A) (buffer : list A) (i : nat) (v : A) : list A :=
  if decide (i < length buffer) then <[i := v]> buffer
  else buffer ++ replicate (i - length buffer) zero ++ [v].

(** [buffer[i]]. *)
Definition cell {A} (zero : A) (buffer : list A) (i : nat) : A :=
  default zero (buffer !! i).

(** ** Parser state *)

(** One line written to [stderr] by [error]: the line of the previous token,
    its lexeme and the message. *)
Record Diagnostic := {
  diag_line : nat;
  diag_lexeme : list ascii;
  diag_message : string
}.

Record Parser := {
  vm : VM;
  source : list ascii;     (* the characters before the zero terminator *)
  tokenStart : nat;
  currentChar : nat;
  currentLine : nat;
  current : Token;
  previous : Token;
  skipNewlines : bool;
  hasError : bool;
  stderr : list Diagnostic (* not a field in C: what was printed so far *)
}.

Definition set_vm (v : VM) (p : Parser) : Parser :=
  {| vm := v; source := source p; tokenStart := tokenStart p;
     currentChar := currentChar p; currentLine := currentLine p;
     current := current p; previous := previous p;
     skipNewlines := skipNewlines p; hasError := hasError p;
     stderr := stderr p |}.

Definition set_tokenStart (n : nat) (p : Parser) : Parser :=
  {| vm := vm p; source := source p; tokenStart := n;
     currentChar := currentChar p; currentLine := currentLine p;
     current := current p; previous := previous p;
     skipNewlines := skipNewlines p; hasError := hasError p;
     stderr := stderr p |}.

Definition set_currentChar (n : nat) (p : Parser) : Parser :=
  {| vm := vm p; source := source p; tokenStart := tokenStart p;
     currentChar := n; currentLine := currentLine p;
     current := current p; previous := previous p;
     skipNewlines := skipNewlines p; hasError := hasError p;
     stderr := stderr p |}.

Definition set_currentLine (n : nat) (p : Parser) : Parser :=
  {| vm := vm p; source := source p; tokenStart := tokenStart p;
     currentChar := currentChar p; currentLine := n;
     current := current p; previous := previous p;
     skipNewlines := skipNewlines p; hasError := hasError p;
     stderr := stderr p |}.

Definition set_current (t : Token) (p : Parser) : Parser :=
  {| vm := vm p; source := source p; tokenStart := tokenStart p;
     currentChar := currentChar p; currentLine := currentLine p;
     current := t; previous := previous p;
     skipNewlines := skipNewlines p; hasError := hasError p;
     stderr := stderr p |}.

Definition set_previous (t : Token) (p : Parser) : Parser :=
  {| vm := vm p; source := source p; tokenStart := tokenStart p;
     currentChar := currentChar p; currentLine := currentLine p;
     current := current p; previous := t;
     skipNewlines := skipNewlines p; hasError := hasError p;
     stderr := stderr p |}.

Definition set_skipNewlines (b : bool) (p : Parser) : Parser :=
  {| vm := vm p; source := source p; tokenStart := tokenStart p;
     currentChar := currentChar p; currentLine := currentLine p;
     current := current p; previous := previous p;
     skipNewlines := b; hasError := hasError p;
     stderr := stderr p |}.

(** [error]: latches [hasError] and prints one diagnostic about the previous
    token. *)
Definition error (p : Parser) (message : string) : Parser :=
  {| vm := vm p; source := source p; tokenStart := tokenStart p;
     currentChar := currentChar p; currentLine := currentLine p;
     current := current p; previous := previous p;
     skipNewlines := skipNewlines p; hasError := true;
     stderr := stderr p ++
       [{| diag_line := line (previous p);
           diag_lexeme :=
             take (end_ (previous p) - start (previous p))
                  (drop (start (previous p)) (source p));
           diag_message := message |}] |}.

(** ** Lexing *)

Definition NUL : ascii := zero.
Definition newline : ascii := "010".
Definition quote : ascii := "034".

Definition isName (c : ascii) : bool :=
  (("a" <=c c) && (c <=c "z")) || (("A" <=c c) && (c <=c "Z")) || (c == "_").

Definition isDigit (c : ascii) : bool := ("0" <=c c) && (c <=c "9").

(** [source[i]]: the buffer holds the characters of [source] and then the
    zero terminator; any other offset is outside of it. *)
Definition charAt (p : Parser) (i : nat) : outcome ascii :=
  match source p !! i with
  | Some c => Ok c
  | None => if decide (i = length (source p)) then Ok NUL
            else Undefined ReadPastBuffer
  end.

Definition peekChar (p : Parser) : outcome ascii := charAt p (currentChar p).

Definition peekNextChar (p : Parser) : outcome ascii :=
  let* c := peekChar p in
  if c == NUL then Ok NUL else charAt p (currentChar p + 1).

Definition nextChar (p : Parser) : outcome (ascii * Parser) :=
  let* c := peekChar p in
  Ok (c, set_currentChar (currentChar p + 1) p).

Definition makeToken (p : Parser) (t : TokenType) : Parser :=
  set_current {| type := t; start := tokenStart p; end_ := currentChar p;
                 line := currentLine p |} p.

(** The loops of the lexer take a bound on their number of iterations.
    Every iteration moves [currentChar] forward, so [charsLeft] is never
    reached (lemma [nextToken_fuel] below). *)
Definition charsLeft (p : Parser) : nat :=
  S (S (length (source p) - currentChar p)).

(** [while (test(peekChar(parser))) nextChar(parser);], the shape of the
    loops of [skipLineComment], [skipWhitespace], [readNumber] and
    [readName]. *)
Fixpoint advanceWhile_loop (test : ascii -> bool) (fuel : nat) (p : Parser)
  : outcome Parser :=
  match fuel with
  | O => OutOfFuel
  | S fuel =>
      let* c := peekChar p in
      if test c then
        let* (_, p) := nextChar p in
        advanceWhile_loop test fuel p
      else Ok p
  end.

Definition advanceWhile (test : ascii -> bool) (p : Parser) : outcome Parser :=
  advanceWhile_loop test (charsLeft p) p.

Definition skipLineComment (p : Parser) : outcome Parser :=
  advanceWhile (fun c => negb (c == newline) && negb (c == NUL)) p.

(** [peekChar(parser) == a && test(peekNextChar(parser))]: the second
    character is read only when the first one matches. *)
Definition peekBoth (p : Parser) (a : ascii) (test : ascii -> bool)
  : outcome bool :=
  let* c := peekChar p in
  if c == a then
    let* c' := peekNextChar p in
    Ok (test c')
  else Ok false.

Fixpoint skipBlockComment_loop (fuel : nat) (nesting : nat) (p : Parser)
  : outcome Parser :=
  match fuel with
  | O => OutOfFuel
  | S fuel =>
      if decide (0 < nesting) then
        let* c := peekChar p in
        if c == NUL then Ok p else
        let* opening := peekBoth p "/" (fun c' => c' == "*") in
        if opening then
          let* (_, p) := nextChar p in
          let* (_, p) := nextChar p in
          skipBlockComment_loop fuel (nesting + 1) p
        else
        let* closing := peekBoth p "*" (fun c' => c' == "/") in
        if closing then
          let* (_, p) := nextChar p in
          let* (_, p) := nextChar p in
          skipBlockComment_loop fuel (nesting - 1) p
        else
          let* (_, p) := nextChar p in
          skipBlockComment_loop fuel nesting p
      else Ok p
  end.

Definition skipBlockComment (p : Parser) : outcome Parser :=
  let* (_, p) := nextChar p in
  skipBlockComment_loop (charsLeft p) 1 p.

Definition skipWhitespace (p : Parser) : outcome Parser :=
  advanceWhile (fun c => c == " ") p.

(** The text of the token being lexed. *)
Definition tokenText (p : Parser) : list ascii :=
  take (currentChar p - tokenStart p) (drop (tokenStart p) (source p)).

Definition isKeyword (p : Parser) (keyword : string) : bool :=
  bool_decide (tokenText p = list_ascii_of_string keyword).

Definition readNumber (p : Parser) : outcome Parser :=
  let* p := advanceWhile isDigit p in
  let* fraction := peekBoth p "." isDigit in
  let* p := (if fraction then
               let* (_, p) := nextChar p in
               advanceWhile isDigit p
             else Ok p) in
  Ok (makeToken p TOKEN_NUMBER).

Definition readName (p : Parser) : outcome Parser :=
  let* p := advanceWhile (fun c => isName c || isDigit c) p in
  let t := TOKEN_NAME in
  let t := if isKeyword p "class" then TOKEN_CLASS else t in
  let t := if isKeyword p "else" then TOKEN_ELSE else t in
  let t := if isKeyword p "false" then TOKEN_FALSE else t in
  let t := if isKeyword p "fn" then TOKEN_FN else t in
  let t := if isKeyword p "if" then TOKEN_IF else t in
  let t := if isKeyword p "is" then TOKEN_IS else t in
  let t := if isKeyword p "null" then TOKEN_NULL else t in
  let t := if isKeyword p "static" then TOKEN_STATIC else t in
  let t := if isKeyword p "this" then TOKEN_THIS else t in
  let t := if isKeyword p "true" then TOKEN_TRUE else t in
  let t := if isKeyword p "var" then TOKEN_VAR else t in
  Ok (makeToken p t).

Fixpoint readString_loop (fuel : nat) (p : Parser) : outcome Parser :=
  match fuel with
  | O => OutOfFuel
  | S fuel =>
      let* (c, p) := nextChar p in
      if negb (c == quote) then readString_loop fuel p else Ok p
  end.

Definition readString (p : Parser) : outcome Parser :=
  let* p := readString_loop (charsLeft p) p in
  Ok (makeToken p TOKEN_STRING).

(** One character after [c] decides between a one- and a two-character
    operator. *)
Definition oneOrTwo (p : Parser) (second : ascii) (two one : TokenType)
  : outcome Parser :=
  let* c := peekChar p in
  if c == second then
    let* (_, p) := nextChar p in
    Ok (makeToken p two)
  else Ok (makeToken p one).

Fixpoint readRawToken_loop (fuel : nat) (p : Parser) : outcome Parser :=
  match fuel with
  | O => OutOfFuel
  | S fuel =>
      let* c0 := peekChar p in
      if c0 == NUL then
        let p := set_tokenStart (currentChar p) p in
        Ok (makeToken p TOKEN_EOF)
      else
        let p := set_tokenStart (currentChar p) p in
        let* (c, p) := nextChar p in
        if c == "(" then Ok (makeToken p TOKEN_LEFT_PAREN)
        else if c == ")" then Ok (makeToken p TOKEN_RIGHT_PAREN)
        else if c == "[" then Ok (makeToken p TOKEN_LEFT_BRACKET)
        else if c == "]" then Ok (makeToken p TOKEN_RIGHT_BRACKET)
        else if c == "{" then Ok (makeToken p TOKEN_LEFT_BRACE)
        else if c == "}" then Ok (makeToken p TOKEN_RIGHT_BRACE)
        else if c == ":" then Ok (makeToken p TOKEN_COLON)
        else if c == "." then Ok (makeToken p TOKEN_DOT)
        else if c == "," then Ok (makeToken p TOKEN_COMMA)
        else if c == "*" then Ok (makeToken p TOKEN_STAR)
        else if c == "/" then
          let* c1 := peekChar p in
          if c1 == "/" then
            let* p := skipLineComment p in
            readRawToken_loop fuel p
          else if c1 == "*" then
            let* p := skipBlockComment p in
            readRawToken_loop fuel p
          else Ok (makeToken p TOKEN_SLASH)
        else if c == "%" then Ok (makeToken p TOKEN_PERCENT)
        else if c == "+" then Ok (makeToken p TOKEN_PLUS)
        else if c == "-" then
          let* c1 := peekChar p in
          if isDigit c1 then readNumber p
          else Ok (makeToken p TOKEN_MINUS)
        else if c == "|" then Ok (makeToken p TOKEN_PIPE)
        else if c == "&" then Ok (makeToken p TOKEN_AMP)
        else if c == "=" then oneOrTwo p "=" TOKEN_EQEQ TOKEN_EQ
        else if c == "<" then oneOrTwo p "=" TOKEN_LTEQ TOKEN_LT
        else if c == ">" then oneOrTwo p "=" TOKEN_GTEQ TOKEN_GT
        else if c == "!" then oneOrTwo p "=" TOKEN_BANGEQ TOKEN_BANG
        else if c == newline then
          let p := set_currentLine (currentLine p + 1) p in
          Ok (makeToken p TOKEN_LINE)
        else if c == " " then
          let* p := skipWhitespace p in
          readRawToken_loop fuel p
        else if c == quote then readString p
        else if isName c then readName p
        else if isDigit c then readNumber p
        else Ok (makeToken p TOKEN_ERROR)
  end.

Definition readRawToken (p : Parser) : outcome Parser :=
  readRawToken_loop (charsLeft p) p.

(** The tokens after which [nextToken] discards newlines. *)
Definition discardsNewlinesAfter (t : TokenType) : bool :=
  match t with
  | TOKEN_LEFT_PAREN | TOKEN_LEFT_BRACKET | TOKEN_LEFT_BRACE | TOKEN_DOT
  | TOKEN_COMMA | TOKEN_STAR | TOKEN_SLASH | TOKEN_PERCENT | TOKEN_PLUS
  | TOKEN_MINUS | TOKEN_PIPE | TOKEN_AMP | TOKEN_BANG | TOKEN_EQ | TOKEN_LT
  | TOKEN_GT | TOKEN_LTEQ | TOKEN_GTEQ | TOKEN_EQEQ | TOKEN_BANGEQ
  | TOKEN_CLASS | TOKEN_ELSE | TOKEN_IF | TOKEN_IS | TOKEN_STATIC
  | TOKEN_VAR => true
  | _ => false
  end.

Fixpoint nextToken_loop (fuel : nat) (p : Parser) : outcome Parser :=
  match fuel with
  | O => OutOfFuel
  | S fuel =>
      let* p := readRawToken p in
      match type (current p) with
      | TOKEN_LINE =>
          if negb (skipNewlines p) then Ok (set_skipNewlines true p)
          else nextToken_loop fuel p
      | t =>
          if discardsNewlinesAfter t then Ok (set_skipNewlines true p)
          else Ok (set_skipNewlines false p)
      end
  end.

Definition nextToken (p : Parser) : outcome Parser :=
  let p := set_previous (current p) p in
  nextToken_loop (charsLeft p) p.

(** ** Parsing helpers *)

(** [source + token.start] for [token.end - token.start] characters. *)
Definition lexeme (p : Parser) (t : Token) : list ascii :=
  take (end_ t - start t) (drop (start t) (source p)).

Definition peek (p : Parser) : TokenType := type (current p).

(** [match] of the C code. *)
Definition match_ (p : Parser) (expected : TokenType) : outcome (bool * Parser) :=
  if decide (peek p <> expected) then Ok (false, p)
  else
    let* p := nextToken p in
    Ok (true, p).

Definition consume (p : Parser) (expected : TokenType) (errorMessage : string)
  : outcome Parser :=
  let* p := nextToken p in
  if decide (type (previous p) <> expected) then Ok (error p errorMessage)
  else Ok p.

(** ** Compiler frames and code generation *)

(** Modelled from the spec: the opcodes of the VM, an enumeration declared
    outside of [compiler.c].  The development is parametric in their
    numbering. *)
Class Opcodes := {
  CODE_CONSTANT : Z;
  CODE_NULL : Z;
  CODE_FALSE : Z;
  CODE_TRUE : Z;
  CODE_CLASS : Z;
  CODE_SUBCLASS : Z;
  CODE_METACLASS : Z;
  CODE_METHOD : Z;
  CODE_DUP : Z;
  CODE_POP : Z;
  CODE_LOAD_LOCAL : Z;
  CODE_STORE_LOCAL : Z;
  CODE_LOAD_GLOBAL : Z;
  CODE_STORE_GLOBAL : Z;
  CODE_CALL_0 : Z;
  CODE_JUMP : Z;
  CODE_JUMP_IF : Z;
  CODE_IS : Z;
  CODE_END : Z
}.

(** [CALL_0], [CALL_1], ... follow each other in the enumeration: [call]
    computes [CODE_CALL_0 + numArgs]. *)
Definition CODE_CALL_1 `{Opcodes} : Z := (CODE_CALL_0 + 1)%Z.

(** Modelled from the spec: a cell of the bytecode buffer is one byte; a
    value stored in it keeps its low eight bits. *)
Definition toByte (code : Z) : Z := (code mod 256)%Z.

Definition MAX_NAME : nat := 256.

Inductive Compiler := {
  parent : option Compiler;  (* the frame of the enclosing block *)
  fn : ObjFn;
  numCodes : nat;
  locals : SymbolTable;
  isMethod : bool
}.

Definition State : Type := Compiler * Parser.

Definition set_fn (f : ObjFn) (c : Compiler) : Compiler :=
  {| parent := parent c; fn := f; numCodes := numCodes c;
     locals := locals c; isMethod := isMethod c |}.

Definition set_numCodes (n : nat) (c : Compiler) : Compiler :=
  {| parent := parent c; fn := fn c; numCodes := n;
     locals := locals c; isMethod := isMethod c |}.

Definition set_locals (s : SymbolTable) (c : Compiler) : Compiler :=
  {| parent := parent c; fn := fn c; numCodes := numCodes c;
     locals := s; isMethod := isMethod c |}.

Definition set_bytecode (b : list Z) (f : ObjFn) : ObjFn :=
  {| bytecode := b; constants := constants f; numConstants := numConstants f |}.

Definition set_constants (k : list Value) (n : nat) (f : ObjFn) : ObjFn :=
  {| bytecode := bytecode f; constants := k; numConstants := n |}.

Definition set_globalSymbols (s : SymbolTable) (v : VM) : VM :=
  {| globalSymbols := s; methods := methods v |}.

Definition set_methods (s : SymbolTable) (v : VM) : VM :=
  {| globalSymbols := globalSymbols v; methods := s |}.

Definition initCompiler (parent : option Compiler) (isMethod : bool) : Compiler :=
  {| parent := parent;
     fn := set_constants (constants newFunction) 0 newFunction;
     numCodes := 0;
     locals := initSymbolTable;
     isMethod := isMethod |}.

(** [fn->bytecode[i] = code]. *)
Definition writeCode (c : Compiler) (i : nat) (code : Z) : Compiler :=
  set_fn (set_bytecode (store 0%Z (bytecode (fn c)) i (toByte code)) (fn c)) c.

Definition emit (c : Compiler) (code : Z) : nat * Compiler :=
  (numCodes c, set_numCodes (numCodes c + 1) (writeCode c (numCodes c) code)).

Definition addConstant (c : Compiler) (constant : Value) : nat * Compiler :=
  (numConstants (fn c),
   set_fn (set_constants
             (store NULL_VAL (constants (fn c)) (numConstants (fn c)) constant)
             (numConstants (fn c) + 1) (fn c)) c).

(** The object an entry of the pool points to has been filled by the frame
    of the nested function: the entry shows the finished object. *)
Definition completeConstant (c : Compiler) (i : nat) (f : ObjFn) : Compiler :=
  set_fn (set_constants (store NULL_VAL (constants (fn c)) i (OBJ_VAL_fn f))
                        (numConstants (fn c)) (fn c)) c.

Definition declareVariable (c : Compiler) (p : Parser)
  : outcome (Z * Compiler * Parser) :=
  let* p := consume p TOKEN_NAME "Expected variable name." in
  let name := lexeme p (previous p) in
  let '(symbol, c, p) :=
    match parent c with
    | Some _ =>
        let added := addSymbol (locals c) name in
        (fst added, set_locals (snd added) c, p)
    | None =>
        let added := addSymbol (globalSymbols (vm p)) name in
        (fst added, c, set_vm (set_globalSymbols (snd added) (vm p)) p)
    end in
  let p := if decide (symbol = (-1)%Z)
           then error p "Variable is already defined." else p in
  Ok (symbol, c, p).

(** ** Grammar *)

Definition PREC_NONE : nat := 0.
Definition PREC_LOWEST : nat := 1.
Definition PREC_ASSIGNMENT : nat := 2.
Definition PREC_IS : nat := 3.
Definition PREC_EQUALITY : nat := 4.
Definition PREC_COMPARISON : nat := 5.
Definition PREC_BITWISE : nat := 6.
Definition PREC_TERM : nat := 7.
Definition PREC_FACTOR : nat := 8.
Definition PREC_UNARY : nat := 9.
Definition PREC_CALL : nat := 10.

(** The functions a [GrammarRule] can point to. *)
Inductive GrammarFn :=
| fn_grouping | fn_unaryOp | fn_boolean | fn_function | fn_name | fn_null
| fn_number | fn_string | fn_this | fn_call | fn_is | fn_infixOp.

Inductive SignatureFn :=
| sig_parameterList | sig_infixSignature | sig_unarySignature
| sig_mixedSignature.

Module GrammarRule.
Record t := {
  prefix : option GrammarFn;
  infix : option GrammarFn;
  method : option SignatureFn;
  precedence : nat;
  name : option string
}.
End GrammarRule.

Definition UNUSED : GrammarRule.t :=
  GrammarRule.Build_t None None None PREC_NONE None.
Definition PREFIX (f : GrammarFn) : GrammarRule.t :=
  GrammarRule.Build_t (Some f) None None PREC_NONE None.
Definition INFIX (prec : nat) (f : GrammarFn) : GrammarRule.t :=
  GrammarRule.Build_t None (Some f) None prec None.
Definition INFIX_OPERATOR (prec : nat) (name : string) : GrammarRule.t :=
  GrammarRule.Build_t None (Some fn_infixOp) (Some sig_infixSignature) prec
                      (Some name).
Definition OPERATOR (prec : nat) (name : string) : GrammarRule.t :=
  GrammarRule.Build_t (Some fn_unaryOp) (Some fn_infixOp)
                      (Some sig_mixedSignature) prec (Some name).
Definition PREFIX_OPERATOR (name : string) : GrammarRule.t :=
  GrammarRule.Build_t (Some fn_unaryOp) None (Some sig_unarySignature)
                      PREC_NONE (Some name).

Definition rules (t : TokenType) : GrammarRule.t :=
  match t with
  | TOKEN_LEFT_PAREN => PREFIX fn_grouping
  | TOKEN_RIGHT_PAREN => UNUSED
  | TOKEN_LEFT_BRACKET => UNUSED
  | TOKEN_RIGHT_BRACKET => UNUSED
  | TOKEN_LEFT_BRACE => UNUSED
  | TOKEN_RIGHT_BRACE => UNUSED
  | TOKEN_COLON => UNUSED
  | TOKEN_DOT => INFIX PREC_CALL fn_call
  | TOKEN_COMMA => UNUSED
  | TOKEN_STAR => INFIX_OPERATOR PREC_FACTOR "* "
  | TOKEN_SLASH => INFIX_OPERATOR PREC_FACTOR "/ "
  | TOKEN_PERCENT => INFIX_OPERATOR PREC_TERM "% "
  | TOKEN_PLUS => INFIX_OPERATOR PREC_TERM "+ "
  | TOKEN_MINUS => OPERATOR PREC_TERM "- "
  | TOKEN_PIPE => UNUSED
  | TOKEN_AMP => UNUSED
  | TOKEN_BANG => PREFIX_OPERATOR "!"
  | TOKEN_EQ => UNUSED
  | TOKEN_LT => INFIX_OPERATOR PREC_COMPARISON "< "
  | TOKEN_GT => INFIX_OPERATOR PREC_COMPARISON "> "
  | TOKEN_LTEQ => INFIX_OPERATOR PREC_COMPARISON "<= "
  | TOKEN_GTEQ => INFIX_OPERATOR PREC_COMPARISON ">= "
  | TOKEN_EQEQ => INFIX_OPERATOR PREC_EQUALITY "== "
  | TOKEN_BANGEQ => INFIX_OPERATOR PREC_EQUALITY "!= "
  | TOKEN_CLASS => UNUSED
  | TOKEN_ELSE => UNUSED
  | TOKEN_FALSE => PREFIX fn_boolean
  | TOKEN_FN => PREFIX fn_function
  | TOKEN_IF => UNUSED
  | TOKEN_IS => INFIX PREC_IS fn_is
  | TOKEN_NULL => PREFIX fn_null
  | TOKEN_STATIC => UNUSED
  | TOKEN_THIS => PREFIX fn_this
  | TOKEN_TRUE => PREFIX fn_boolean
  | TOKEN_VAR => UNUSED
  | TOKEN_NAME =>
      GrammarRule.Build_t (Some fn_name) None (Some sig_parameterList)
                          PREC_NONE None
  | TOKEN_NUMBER => PREFIX fn_number
  | TOKEN_STRING => PREFIX fn_string
  | TOKEN_LINE => UNUSED
  | TOKEN_ERROR => UNUSED
  | TOKEN_EOF => UNUSED
  end.

Section CodeGeneration.
Context {ops : Opcodes}.

Definition defineVariable (c : Compiler) (symbol : Z) : Compiler :=
  match parent c with
  | None =>
      let '(_, c) := emit c CODE_STORE_GLOBAL in
      let '(_, c) := emit c symbol in
      c
  | Some _ =>
      let '(_, c) := emit c CODE_DUP in
      c
  end.

(** Appending a space to a [char name[MAX_NAME]] that holds [name], the
    way [name[length++] = ' '] does. *)
Definition appendSpace (name : option (list ascii))
  : outcome (option (list ascii)) :=
  match name with
  | None => Undefined NullName
  | Some text =>
      if decide (length text < MAX_NAME) then Ok (Some (text ++ [" "]))
      else Undefined NameOverflow
  end.

(** [ensureSymbol(&vm->methods, name, length)]. *)
Definition ensureMethod (p : Parser) (name : list ascii) : Z * Parser :=
  let ensured := ensureSymbol (methods (vm p)) name in
  (fst ensured, set_vm (set_methods (snd ensured) (vm p)) p).

Fixpoint parameterList_loop (fuel : nat) (c : Compiler) (p : Parser)
    (name : option (list ascii))
  : outcome (Compiler * Parser * option (list ascii)) :=
  match fuel with
  | O => OutOfFuel
  | S fuel =>
      let* (_, c, p) := declareVariable c p in
      let* name := match name with
                   | Some _ => appendSpace name
                   | None => Ok None
                   end in
      let* (comma, p) := match_ p TOKEN_COMMA in
      if comma then parameterList_loop fuel c p name
      else Ok (c, p, name)
  end.

Definition parameterList (fuel : nat) (c : Compiler) (p : Parser)
    (name : option (list ascii))
  : outcome (Compiler * Parser * option (list ascii)) :=
  let* (paren, p) := match_ p TOKEN_LEFT_PAREN in
  if paren then
    let* (c, p, name) := parameterList_loop fuel c p name in
    let* p := consume p TOKEN_RIGHT_PAREN "Expect ')' after parameters." in
    Ok (c, p, name)
  else Ok (c, p, name).

Definition boolean (c : Compiler) (p : Parser) : State :=
  if decide (type (previous p) = TOKEN_FALSE)
  then (snd (emit c CODE_FALSE), p)
  else (snd (emit c CODE_TRUE), p).

Definition null (c : Compiler) (p : Parser) : State :=
  (snd (emit c CODE_NULL), p).

(** The value [strtod] of the C library reads at the start of [text]: an
    optional sign, decimal digits with an optional fraction, an optional
    exponent.  [None] when no digit is found ([end] is the start of the
    text).  The value is the exact rational; the rounding to a [double] and
    the hexadecimal, infinity and NaN forms are not modelled. *)
Definition digitValue (c : ascii) : Z := (Z.of_nat (nat_of_ascii c) - 48)%Z.

Fixpoint strtod_digits (text : list ascii) (acc : Z) (count : nat)
  : Z * nat * list ascii :=
  match text with
  | c :: rest =>
      if isDigit c then strtod_digits rest (acc * 10 + digitValue c)%Z (S count)
      else (acc, count, text)
  | [] => (acc, count, text)
  end.

Definition strtod_sign (text : list ascii) : bool * list ascii :=
  match text with
  | c :: rest =>
      if c == "-" then (true, rest)
      else if c == "+" then (false, rest)
      else (false, text)
  | [] => (false, text)
  end.

Definition strtod_exponent (text : list ascii) : Z :=
  match text with
  | c :: rest =>
      if (c == "e") || (c == "E") then
        let '(negative, rest) := strtod_sign rest in
        let '(e, count, _) := strtod_digits rest 0%Z 0 in
        if decide (count = 0) then 0%Z
        else if negative then (- e)%Z else e
      else 0%Z
  | [] => 0%Z
  end.

Definition strtod (text : list ascii) : option Q :=
  let '(negative, text) := strtod_sign text in
  let '(whole, wholeDigits, text) := strtod_digits text 0%Z 0 in
  let '(mantissa, fractionDigits, text) :=
    match text with
    | c :: rest =>
        if c == "." then strtod_digits rest whole 0 else (whole, 0, text)
    | [] => (whole, 0, text)
    end in
  if decide (wholeDigits + fractionDigits = 0) then None
  else
    let mantissa := if negative then (- mantissa)%Z else mantissa in
    let exponent := (strtod_exponent text - Z.of_nat fractionDigits)%Z in
    Some (Qred (if decide (0 <= exponent)%Z
                then (mantissa * 10 ^ exponent)%Z # 1
                else mantissa # Z.to_pos (10 ^ (- exponent)))).

Definition number (c : Compiler) (p : Parser) : State :=
  let token := previous p in
  let '(value, p) :=
    match strtod (drop (start token) (source p)) with
    | Some value => (value, p)
    | None => (0%Q, error p "Invalid number literal.")
    end in
  let '(constant, c) := addConstant c (NUM_VAL value) in
  let '(_, c) := emit c CODE_CONSTANT in
  let '(_, c) := emit c (Z.of_nat constant) in
  (c, p).

(** [length] is a [size_t]: on a token shorter than the two quotes it would
    wrap around, and [newString] would read far outside of the source. *)
Definition string_ (c : Compiler) (p : Parser) : outcome State :=
  let token := previous p in
  if decide (end_ token - start token < 2) then Undefined ReadPastBuffer
  else
    let length := end_ token - start token - 2 in
    let text := take length (drop (start token + 1) (source p)) in
    let '(constant, c) := addConstant c (newString text) in
    let '(_, c) := emit c CODE_CONSTANT in
    let '(_, c) := emit c (Z.of_nat constant) in
    Ok (c, p).

(** The loop of [this_]: is [isMethod] set on the frame or on an enclosing
    one? *)
Fixpoint insideMethod (c : Compiler) : bool :=
  match c with
  | Build_Compiler parent _ _ _ isMethod =>
      if isMethod then true
      else match parent with
           | Some thisCompiler => insideMethod thisCompiler
           | None => false
           end
  end.

Definition this_ (c : Compiler) (p : Parser) : State :=
  if negb (insideMethod c)
  then (c, error p "Cannot use 'this' outside of a method.")
  else
    let '(_, c) := emit c CODE_LOAD_LOCAL in
    let '(_, c) := emit c 0%Z in
    (c, p).

Definition infixSignature (c : Compiler) (p : Parser) (name : option (list ascii))
  : outcome (Compiler * Parser * option (list ascii)) :=
  let* name := appendSpace name in
  let* (_, c, p) := declareVariable c p in
  Ok (c, p, name).

Definition unarySignature (c : Compiler) (p : Parser) (name : option (list ascii))
  : outcome (Compiler * Parser * option (list ascii)) :=
  Ok (c, p, name).

Definition mixedSignature (c : Compiler) (p : Parser) (name : option (list ascii))
  : outcome (Compiler * Parser * option (list ascii)) :=
  if decide (type (current p) = TOKEN_NAME) then
    let* name := appendSpace name in
    let* (_, c, p) := declareVariable c p in
    Ok (c, p, name)
  else Ok (c, p, name).

Definition callSignatureFn (fuel : nat) (signature : SignatureFn)
    (c : Compiler) (p : Parser) (name : option (list ascii))
  : outcome (Compiler * Parser * option (list ascii)) :=
  match signature with
  | sig_parameterList => parameterList fuel c p name
  | sig_infixSignature => infixSignature c p name
  | sig_unarySignature => unarySignature c p name
  | sig_mixedSignature => mixedSignature c p name
  end.

(** The recursive part of the grammar.  [fuel] bounds the depth of the
    nested calls, an iteration of a loop counting as one call.

    [blockBody] is the loop that [function], [statement], [method] and
    [compile] each write out: definitions separated by newlines up to the
    [closing] token. *)
Fixpoint parsePrecedence (fuel : nat) (c : Compiler) (p : Parser)
    (allowAssignment : bool) (precedence : nat) {struct fuel} : outcome State :=
  match fuel with
  | O => OutOfFuel
  | S fuel =>
      let* p := nextToken p in
      match GrammarRule.prefix (rules (type (previous p))) with
      | None => Ok (c, error p "No prefix parser.")
      | Some prefix =>
          let* (c, p) := callGrammarFn fuel prefix c p allowAssignment in
          parsePrecedence_infix fuel c p allowAssignment precedence
      end
  end

with parsePrecedence_infix (fuel : nat) (c : Compiler) (p : Parser)
    (allowAssignment : bool) (precedence : nat) {struct fuel} : outcome State :=
  match fuel with
  | O => OutOfFuel
  | S fuel =>
      if decide (precedence <= GrammarRule.precedence (rules (type (current p))))
      then
        let* p := nextToken p in
        match GrammarRule.infix (rules (type (previous p))) with
        | None => Undefined NullFunction
        | Some infix =>
            let* (c, p) := callGrammarFn fuel infix c p allowAssignment in
            parsePrecedence_infix fuel c p allowAssignment precedence
        end
      else Ok (c, p)
  end

with callGrammarFn (fuel : nat) (f : GrammarFn) (c : Compiler) (p : Parser)
    (allowAssignment : bool) {struct fuel} : outcome State :=
  match fuel with
  | O => OutOfFuel
  | S fuel =>
      match f with
      | fn_grouping => grouping fuel c p allowAssignment
      | fn_unaryOp => unaryOp fuel c p allowAssignment
      | fn_boolean => Ok (boolean c p)
      | fn_function => function fuel c p allowAssignment
      | fn_name => name fuel c p allowAssignment
      | fn_null => Ok (null c p)
      | fn_number => Ok (number c p)
      | fn_string => string_ c p
      | fn_this => Ok (this_ c p)
      | fn_call => call fuel c p allowAssignment
      | fn_is => is_ fuel c p allowAssignment
      | fn_infixOp => infixOp fuel c p allowAssignment
      end
  end

with grouping (fuel : nat) (c : Compiler) (p : Parser) (allowAssignment : bool)
    {struct fuel} : outcome State :=
  match fuel with
  | O => OutOfFuel
  | S fuel =>
      let* (c, p) := expression fuel c p false in
      let* p := consume p TOKEN_RIGHT_PAREN "Expect ')' after expression." in
      Ok (c, p)
  end

with unaryOp (fuel : nat) (c : Compiler) (p : Parser) (allowAssignment : bool)
    {struct fuel} : outcome State :=
  match fuel with
  | O => OutOfFuel
  | S fuel =>
      let rule := rules (type (previous p)) in
      let* (c, p) := parsePrecedence fuel c p false (PREC_UNARY + 1) in
      match GrammarRule.name rule with
      | None => Undefined NullName
      | Some name =>
          let '(symbol, p) := ensureMethod p (take 1 (list_ascii_of_string name)) in
          let '(_, c) := emit c CODE_CALL_0 in
          let '(_, c) := emit c symbol in
          Ok (c, p)
      end
  end

with function (fuel : nat) (c : Compiler) (p : Parser) (allowAssignment : bool)
    {struct fuel} : outcome State :=
  match fuel with
  | O => OutOfFuel
  | S fuel =>
      let fnCompiler := initCompiler (Some c) false in
      let '(constant, c) := addConstant c (OBJ_VAL_fn (fn fnCompiler)) in
      let fnCompiler :=
        set_locals (snd (addSymbol (locals fnCompiler)
                                   (list_ascii_of_string "(this)")))
                   fnCompiler in
      let* (fnCompiler, p, _) := parameterList fuel fnCompiler p None in
      let* (brace, p) := match_ p TOKEN_LEFT_BRACE in
      let* (fnCompiler, p) :=
        if brace
        then blockBody fuel fnCompiler p TOKEN_RIGHT_BRACE
                       "Expect '}' after function body."
        else expression fuel fnCompiler p false in
      let '(_, fnCompiler) := emit fnCompiler CODE_END in
      let c := completeConstant c constant (fn fnCompiler) in
      let '(_, c) := emit c CODE_CONSTANT in
      let '(_, c) := emit c (Z.of_nat (numConstants (fn c)) - 1)%Z in
      Ok (c, p)
  end

with blockBody (fuel : nat) (c : Compiler) (p : Parser) (closing : TokenType)
    (message : string) {struct fuel} : outcome State :=
  match fuel with
  | O => OutOfFuel
  | S fuel =>
      let* (c, p) := definition fuel c p in
      let* (newLine, p) := match_ p TOKEN_LINE in
      if negb newLine then
        let* p := consume p closing message in
        Ok (c, p)
      else
        let* (closed, p) := match_ p closing in
        if closed then Ok (c, p)
        else
          let '(_, c) := emit c CODE_POP in
          blockBody fuel c p closing message
  end

with name (fuel : nat) (c : Compiler) (p : Parser) (allowAssignment : bool)
    {struct fuel} : outcome State :=
  match fuel with
  | O => OutOfFuel
  | S fuel =>
      let local := findSymbol (locals c) (lexeme p (previous p)) in
      let global :=
        if decide (local = (-1)%Z)
        then findSymbol (globalSymbols (vm p)) (lexeme p (previous p))
        else 0%Z in
      let p := if decide (local = (-1)%Z /\ global = (-1)%Z)
               then error p "Undefined variable." else p in
      let* (assign, p) := match_ p TOKEN_EQ in
      if assign then
        let p := if negb allowAssignment
                 then error p "Invalid assignment." else p in
        let* (c, p) := statement fuel c p in
        if decide (local <> (-1)%Z) then
          let '(_, c) := emit c CODE_STORE_LOCAL in
          let '(_, c) := emit c local in
          Ok (c, p)
        else
          let '(_, c) := emit c CODE_STORE_GLOBAL in
          let '(_, c) := emit c global in
          Ok (c, p)
      else if decide (local <> (-1)%Z) then
        let '(_, c) := emit c CODE_LOAD_LOCAL in
        let '(_, c) := emit c local in
        Ok (c, p)
      else
        let '(_, c) := emit c CODE_LOAD_GLOBAL in
        let '(_, c) := emit c global in
        Ok (c, p)
  end

with call (fuel : nat) (c : Compiler) (p : Parser) (allowAssignment : bool)
    {struct fuel} : outcome State :=
  match fuel with
  | O => OutOfFuel
  | S fuel =>
      let* p := consume p TOKEN_NAME "Expect method name after '.'." in
      let partLength := end_ (previous p) - start (previous p) in
      if decide (MAX_NAME < partLength) then Undefined NameOverflow
      else
        let name := Some (lexeme p (previous p)) in
        let* (paren, p) := match_ p TOKEN_LEFT_PAREN in
        let* (c, p, name, numArgs) :=
          if paren then
            let* (c, p, name, numArgs) := call_arguments fuel c p name 0 in
            let* p := consume p TOKEN_RIGHT_PAREN "Expect ')' after arguments." in
            Ok (c, p, name, numArgs)
          else Ok (c, p, name, 0) in
        let '(symbol, p) := ensureMethod p (default [] name) in
        let '(_, c) := emit c (CODE_CALL_0 + Z.of_nat numArgs)%Z in
        let '(_, c) := emit c symbol in
        Ok (c, p)
  end

with call_arguments (fuel : nat) (c : Compiler) (p : Parser)
    (name : option (list ascii)) (numArgs : nat) {struct fuel}
  : outcome (Compiler * Parser * option (list ascii) * nat) :=
  match fuel with
  | O => OutOfFuel
  | S fuel =>
      let* (c, p) := statement fuel c p in
      let numArgs := numArgs + 1 in
      let* name := appendSpace name in
      let* (comma, p) := match_ p TOKEN_COMMA in
      if comma then call_arguments fuel c p name numArgs
      else Ok (c, p, name, numArgs)
  end

with is_ (fuel : nat) (c : Compiler) (p : Parser) (allowAssignment : bool)
    {struct fuel} : outcome State :=
  match fuel with
  | O => OutOfFuel
  | S fuel =>
      let* (c, p) := parsePrecedence fuel c p false PREC_CALL in
      let '(_, c) := emit c CODE_IS in
      Ok (c, p)
  end

with infixOp (fuel : nat) (c : Compiler) (p : Parser) (allowAssignment : bool)
    {struct fuel} : outcome State :=
  match fuel with
  | O => OutOfFuel
  | S fuel =>
      let rule := rules (type (previous p)) in
      let* (c, p) :=
        parsePrecedence fuel c p false (GrammarRule.precedence rule + 1) in
      match GrammarRule.name rule with
      | None => Undefined NullName
      | Some name =>
          let '(symbol, p) := ensureMethod p (list_ascii_of_string name) in
          let '(_, c) := emit c CODE_CALL_1 in
          let '(_, c) := emit c symbol in
          Ok (c, p)
      end
  end

with expression (fuel : nat) (c : Compiler) (p : Parser) (allowAssignment : bool)
    {struct fuel} : outcome State :=
  match fuel with
  | O => OutOfFuel
  | S fuel => parsePrecedence fuel c p allowAssignment PREC_LOWEST
  end

with assignment (fuel : nat) (c : Compiler) (p : Parser) {struct fuel}
  : outcome State :=
  match fuel with
  | O => OutOfFuel
  | S fuel => expression fuel c p true
  end

with statement (fuel : nat) (c : Compiler) (p : Parser) {struct fuel}
  : outcome State :=
  match fuel with
  | O => OutOfFuel
  | S fuel =>
      let* (isIf, p) := match_ p TOKEN_IF in
      if isIf then
        let* p := consume p TOKEN_LEFT_PAREN "Expect '(' after 'if'." in
        let* (c, p) := assignment fuel c p in
        let* p := consume p TOKEN_RIGHT_PAREN "Expect ')' after if condition." in
        let '(_, c) := emit c CODE_JUMP_IF in
        let '(ifJump, c) := emit c 255%Z in
        let* (c, p) := statement fuel c p in
        let '(_, c) := emit c CODE_JUMP in
        let '(elseJump, c) := emit c 255%Z in
        let c := writeCode c ifJump (Z.of_nat (numCodes c - ifJump - 1)) in
        let* (isElse, p) := match_ p TOKEN_ELSE in
        let* (c, p) :=
          if isElse then statement fuel c p
          else Ok (snd (emit c CODE_NULL), p) in
        let c := writeCode c elseJump (Z.of_nat (numCodes c - elseJump - 1)) in
        Ok (c, p)
      else
        let* (brace, p) := match_ p TOKEN_LEFT_BRACE in
        if brace then
          blockBody fuel c p TOKEN_RIGHT_BRACE "Expect '}' after block body."
        else assignment fuel c p
  end

with method (fuel : nat) (c : Compiler) (p : Parser) (isStatic : bool)
    (signature : SignatureFn) {struct fuel} : outcome State :=
  match fuel with
  | O => OutOfFuel
  | S fuel =>
      let methodCompiler := initCompiler (Some c) true in
      let '(constant, c) := addConstant c (OBJ_VAL_fn (fn methodCompiler)) in
      let methodCompiler :=
        set_locals (snd (addSymbol (locals methodCompiler)
                                   (list_ascii_of_string "(this)")))
                   methodCompiler in
      let length := end_ (previous p) - start (previous p) in
      if decide (MAX_NAME < length) then Undefined NameOverflow
      else
        let name := Some (lexeme p (previous p)) in
        let* (methodCompiler, p, name) :=
          callSignatureFn fuel signature methodCompiler p name in
        let '(symbol, p) := ensureMethod p (default [] name) in
        let* p := consume p TOKEN_LEFT_BRACE "Expect '{' to begin method body." in
        let* (methodCompiler, p) :=
          blockBody fuel methodCompiler p TOKEN_RIGHT_BRACE
                    "Expect '}' after method body." in
        let '(_, methodCompiler) := emit methodCompiler CODE_END in
        let c := completeConstant c constant (fn methodCompiler) in
        let c := if isStatic then snd (emit c CODE_METACLASS) else c in
        let '(_, c) := emit c CODE_METHOD in
        let '(_, c) := emit c symbol in
        let '(_, c) := emit c (Z.of_nat constant) in
        let c := if isStatic then snd (emit c CODE_POP) else c in
        Ok (c, p)
  end

with definition (fuel : nat) (c : Compiler) (p : Parser) {struct fuel}
  : outcome State :=
  match fuel with
  | O => OutOfFuel
  | S fuel =>
      let* (isClass, p) := match_ p TOKEN_CLASS in
      if isClass then
        let* (symbol, c, p) := declareVariable c p in
        let* (isSubclass, p) := match_ p TOKEN_IS in
        let* (c, p) :=
          if isSubclass then
            let* (c, p) := parsePrecedence fuel c p false PREC_CALL in
            Ok (snd (emit c CODE_SUBCLASS), p)
          else Ok (snd (emit c CODE_CLASS), p) in
        let c := defineVariable c symbol in
        let* p := consume p TOKEN_LEFT_BRACE "Expect '}' after class body." in
        definition_methods fuel c p
      else
        let* (isVar, p) := match_ p TOKEN_VAR in
        if isVar then
          let* (symbol, c, p) := declareVariable c p in
          let* p := consume p TOKEN_EQ "Expect '=' after variable name." in
          let* (c, p) := statement fuel c p in
          Ok (defineVariable c symbol, p)
        else statement fuel c p
  end

with definition_methods (fuel : nat) (c : Compiler) (p : Parser) {struct fuel}
  : outcome State :=
  match fuel with
  | O => OutOfFuel
  | S fuel =>
      let* (closed, p) := match_ p TOKEN_RIGHT_BRACE in
      if closed then Ok (c, p)
      else
        let* (isStatic, p) := match_ p TOKEN_STATIC in
        let signature := GrammarRule.method (rules (type (current p))) in
        let* p := nextToken p in
        match signature with
        | None => Ok (c, error p "Expect method definition.")
        | Some signature =>
            let* (c, p) := method fuel c p isStatic signature in
            let* p := consume p TOKEN_LINE
                        "Expect newline after definition in class." in
            definition_methods fuel c p
        end
  end.

(** ** The entry point *)

(** The parser [compile] starts from.  [previous] is not initialised by the
    C code; the first [nextToken] overwrites it. *)
Definition initParser (machine : VM) (source : list ascii) : Parser :=
  let zeroToken := {| type := TOKEN_EOF; start := 0; end_ := 0; line := 0 |} in
  {| vm := machine; source := source; tokenStart := 0; currentChar := 0;
     currentLine := 1; current := zeroToken; previous := zeroToken;
     skipNewlines := true; hasError := false; stderr := [] |}.

(** [compile] up to its last statement: the frame of the top-level function
    and the parser when the code has been emitted. *)
Definition compile_frame (fuel : nat) (machine : VM) (source : list ascii)
  : outcome State :=
  let parser := initParser machine source in
  let* parser := nextToken parser in
  let compiler := initCompiler None false in
  let* (compiler, parser) :=
    blockBody fuel compiler parser TOKEN_EOF "Expect end of file." in
  let '(_, compiler) := emit compiler CODE_END in
  Ok (compiler, parser).

(** [compile]: [None] is the NULL it returns after an error.  The result
    comes with the VM, whose symbol tables the compilation has extended. *)
Definition compile (fuel : nat) (machine : VM) (source : list ascii)
  : outcome (option ObjFn * VM) :=
  let* (compiler, parser) := compile_frame fuel machine source in
  Ok (if hasError parser then None else Some (fn compiler), vm parser).

End CodeGeneration.

(** * Vocabulary of the properties

    The relations, measures and example inputs that the statements of the
    second half of the file are written with. *)

(** ** The lexer *)

(** What the raw lexer leaves alone, and how far the cursor goes: never
    back, and not past the terminator when it moves. *)
Record lexed (p p' : Parser) : Prop := {
  lexed_vm : vm p' = vm p;
  lexed_source : source p' = source p;
  lexed_previous : previous p' = previous p;
  lexed_skipNewlines : skipNewlines p' = skipNewlines p;
  lexed_hasError : hasError p' = hasError p;
  lexed_stderr : stderr p' = stderr p;
  lexed_ge : currentChar p <= currentChar p';
  lexed_le : currentChar p' <= Nat.max (currentChar p) (length (source p))
}.

(** [skipNewlines] after a token of type [t] has been emitted. *)
Definition skipsAfter (t : TokenType) : bool :=
  bool_decide (t = TOKEN_LINE) || discardsNewlinesAfter t.

(** What the loop of [nextToken] changes: the current token, the cursor and
    [skipNewlines]. *)
Record filtered (p p' : Parser) : Prop := {
  filtered_vm : vm p' = vm p;
  filtered_source : source p' = source p;
  filtered_previous : previous p' = previous p;
  filtered_hasError : hasError p' = hasError p;
  filtered_stderr : stderr p' = stderr p;
  filtered_ge : currentChar p <= currentChar p';
  filtered_le : currentChar p' <= Nat.max (currentChar p) (length (source p));
  filtered_token :
    type (current p') = TOKEN_EOF \/ currentChar p < currentChar p';
  filtered_skipNewlines : skipNewlines p' = skipsAfter (type (current p'));
  filtered_line : type (current p') = TOKEN_LINE -> skipNewlines p = false
}.

(** What [nextToken] changes: the two tokens, the cursor and
    [skipNewlines]. *)
Record advanced (p p' : Parser) : Prop := {
  advanced_vm : vm p' = vm p;
  advanced_source : source p' = source p;
  advanced_previous : previous p' = current p;
  advanced_hasError : hasError p' = hasError p;
  advanced_stderr : stderr p' = stderr p;
  advanced_ge : currentChar p <= currentChar p';
  advanced_le : currentChar p' <= Nat.max (currentChar p) (length (source p));
  advanced_token :
    type (current p') = TOKEN_EOF \/ currentChar p < currentChar p';
  advanced_skipNewlines : skipNewlines p' = skipsAfter (type (current p'));
  advanced_line : type (current p') = TOKEN_LINE -> skipNewlines p = false
}.

(** The tokens that cannot end an expression, in the words of the
    specification: the binary and unary operators, the opening brackets,
    [.], [,] and the keywords that must be followed by more tokens. *)
Definition spec_cannotEndExpression (t : TokenType) : bool :=
  match t with
  | TOKEN_STAR | TOKEN_SLASH | TOKEN_PERCENT | TOKEN_PLUS | TOKEN_MINUS
  | TOKEN_PIPE | TOKEN_AMP | TOKEN_BANG | TOKEN_EQ | TOKEN_LT | TOKEN_GT
  | TOKEN_LTEQ | TOKEN_GTEQ | TOKEN_EQEQ | TOKEN_BANGEQ => true
  | TOKEN_LEFT_PAREN | TOKEN_LEFT_BRACKET | TOKEN_LEFT_BRACE => true
  | TOKEN_DOT | TOKEN_COMMA => true
  | TOKEN_CLASS | TOKEN_ELSE | TOKEN_FN | TOKEN_IF | TOKEN_IS | TOKEN_STATIC
  | TOKEN_VAR => true
  | _ => false
  end.

(** The tokens [nextToken] emits for a source, up to the end of the file,
    from the state [compile] starts in. *)
Fixpoint tokens_loop (fuel : nat) (p : Parser) : outcome (list Token) :=
  match fuel with
  | O => OutOfFuel
  | S fuel =>
      let* p := nextToken p in
      if decide (type (current p) = TOKEN_EOF) then Ok []
      else
        let* rest := tokens_loop fuel p in
        Ok (current p :: rest)
  end.

Definition tokens (source : string) : outcome (list Token) :=
  tokens_loop (S (String.length source))
              (initParser {| globalSymbols := []; methods := [] |}
                          (list_ascii_of_string source)).

(** The state after [nextToken] at the end of the buffer: one more EOF
    token. *)
Definition atEnd (p : Parser) : Parser :=
  set_skipNewlines false
    (makeToken (set_tokenStart (currentChar p) (set_previous (current p) p))
               TOKEN_EOF).

(** The characters that [skipWhitespace] and the newline filter drop. *)
Definition blank (c : ascii) : Prop := c = " " \/ c = newline.

(** ** Fuel *)

(** [m'] is [m], or [m] ran out of fuel. *)
Definition refines {A} (m m' : outcome A) : Prop := m = OutOfFuel \/ m = m'.

(** What is left to parse: the characters after the cursor and the current
    token, unless it is the end of the file. *)
Definition measure (p : Parser) : nat :=
  length (source p) - currentChar p +
  (if decide (type (current p) = TOKEN_EOF) then 0 else 1).

(** Enough fuel for a source: [compile] does not run out of it. *)
Definition enoughFuel (source : list ascii) : nat := 8 * length source + 6.

(** ** Frames and parser states *)

(** The code below [numCodes] stays as it is while the frame goes from [c]
    to [c']: the bytes are written at [numCodes] or above, but for the
    jumps patched by the [if] that emitted them.  And the buffer holds
    exactly [numCodes] bytes if it did. *)
Record extends (c c' : Compiler) : Prop := {
  extends_numCodes : numCodes c <= numCodes c';
  extends_code : forall i, i < numCodes c ->
    cell 0%Z (bytecode (fn c')) i = cell 0%Z (bytecode (fn c)) i;
  extends_length : length (bytecode (fn c)) = numCodes c ->
    length (bytecode (fn c')) = numCodes c'
}.

(** The diagnostics and the error flag go together. *)
Definition reported (p : Parser) : Prop := hasError p = true <-> stderr p <> [].

(** What the compiler keeps of the parser: the source, and the flag going
    with the diagnostics. *)
Record parsed (p p' : Parser) : Prop := {
  parsed_source : source p' = source p;
  parsed_reported : reported p -> reported p'
}.

(** What the compiler keeps of the parser, for termination: the source, and
    no more left to parse than before. *)
Record shrinks (p p' : Parser) : Prop := {
  shrinks_source : source p' = source p;
  shrinks_measure : measure p' <= measure p
}.

(** ** Statements over the functions of the grammar

    The functions of the grammar are defined together; so are the
    statements about them, one conjunct for each function. *)

Section Grammar.
Context {ops : Opcodes}.

(** The statement for the functions of the grammar, at two amounts of
    fuel. *)
Definition grammar_refines (n m : nat) : Prop :=
  (forall c p a prec,
     refines (parsePrecedence n c p a prec) (parsePrecedence m c p a prec)) /\
  (forall c p a prec,
     refines (parsePrecedence_infix n c p a prec)
             (parsePrecedence_infix m c p a prec)) /\
  (forall f c p a, refines (callGrammarFn n f c p a) (callGrammarFn m f c p a)) /\
  (forall c p a, refines (grouping n c p a) (grouping m c p a)) /\
  (forall c p a, refines (unaryOp n c p a) (unaryOp m c p a)) /\
  (forall c p a, refines (function n c p a) (function m c p a)) /\
  (forall c p t s, refines (blockBody n c p t s) (blockBody m c p t s)) /\
  (forall c p a, refines (name n c p a) (name m c p a)) /\
  (forall c p a, refines (call n c p a) (call m c p a)) /\
  (forall c p nm k,
     refines (call_arguments n c p nm k) (call_arguments m c p nm k)) /\
  (forall c p a, refines (is_ n c p a) (is_ m c p a)) /\
  (forall c p a, refines (infixOp n c p a) (infixOp m c p a)) /\
  (forall c p a, refines (expression n c p a) (expression m c p a)) /\
  (forall c p, refines (assignment n c p) (assignment m c p)) /\
  (forall c p, refines (statement n c p) (statement m c p)) /\
  (forall c p b s, refines (method n c p b s) (method m c p b s)) /\
  (forall c p, refines (definition n c p) (definition m c p)) /\
  (forall c p, refines (definition_methods n c p) (definition_methods m c p)).

(** The functions of the grammar return when the fuel is eight times what
    is left to parse, plus the number of calls that a function can make
    before a token is consumed. *)
Definition grammar_terminates (n : nat) : Prop :=
  (forall c p a prec,
     8 * measure p + 1 <= n -> parsePrecedence n c p a prec <> OutOfFuel) /\
  (forall c p a prec,
     8 * measure p + 1 <= n -> parsePrecedence_infix n c p a prec <> OutOfFuel) /\
  (forall f c p a, 8 * measure p + 4 <= n -> callGrammarFn n f c p a <> OutOfFuel) /\
  (forall c p a, 8 * measure p + 3 <= n -> grouping n c p a <> OutOfFuel) /\
  (forall c p a, 8 * measure p + 2 <= n -> unaryOp n c p a <> OutOfFuel) /\
  (forall c p a, 8 * measure p + 3 <= n -> function n c p a <> OutOfFuel) /\
  (forall c p t s, 8 * measure p + 6 <= n -> blockBody n c p t s <> OutOfFuel) /\
  (forall c p a, 8 * measure p + 1 <= n -> name n c p a <> OutOfFuel) /\
  (forall c p a, 8 * measure p + 1 <= n -> call n c p a <> OutOfFuel) /\
  (forall c p nm k,
     8 * measure p + 5 <= n -> call_arguments n c p nm k <> OutOfFuel) /\
  (forall c p a, 8 * measure p + 2 <= n -> is_ n c p a <> OutOfFuel) /\
  (forall c p a, 8 * measure p + 2 <= n -> infixOp n c p a <> OutOfFuel) /\
  (forall c p a, 8 * measure p + 2 <= n -> expression n c p a <> OutOfFuel) /\
  (forall c p, 8 * measure p + 3 <= n -> assignment n c p <> OutOfFuel) /\
  (forall c p, 8 * measure p + 4 <= n -> statement n c p <> OutOfFuel) /\
  (forall c p b s, 8 * measure p + 7 <= n -> method n c p b s <> OutOfFuel) /\
  (forall c p, 8 * measure p + 5 <= n -> definition n c p <> OutOfFuel) /\
  (forall c p, 8 * measure p + 1 <= n -> definition_methods n c p <> OutOfFuel).

(** A relation between the frame a function is given and the one it
    leaves, and one between the parser states. *)
Variable Rc : Compiler -> Compiler -> Prop.
Variable Rp : Parser -> Parser -> Prop.

Definition kept (c : Compiler) (p : Parser) (r : State) : Prop :=
  Rc c (fst r) /\ Rp p (snd r).

(** The statement for the functions of the grammar, for one amount of
    fuel. *)
Definition grammar_kept (n : nat) : Prop :=
  (forall c p a prec r, parsePrecedence n c p a prec = Ok r -> kept c p r) /\
  (forall c p a prec r, parsePrecedence_infix n c p a prec = Ok r -> kept c p r) /\
  (forall f c p a r, callGrammarFn n f c p a = Ok r -> kept c p r) /\
  (forall c p a r, grouping n c p a = Ok r -> kept c p r) /\
  (forall c p a r, unaryOp n c p a = Ok r -> kept c p r) /\
  (forall c p a r, function n c p a = Ok r -> kept c p r) /\
  (forall c p t s r, blockBody n c p t s = Ok r -> kept c p r) /\
  (forall c p a r, name n c p a = Ok r -> kept c p r) /\
  (forall c p a r, call n c p a = Ok r -> kept c p r) /\
  (forall c p nm k c' p' nm' k',
     call_arguments n c p nm k = Ok (c', p', nm', k') -> Rc c c' /\ Rp p p') /\
  (forall c p a r, is_ n c p a = Ok r -> kept c p r) /\
  (forall c p a r, infixOp n c p a = Ok r -> kept c p r) /\
  (forall c p a r, expression n c p a = Ok r -> kept c p r) /\
  (forall c p r, assignment n c p = Ok r -> kept c p r) /\
  (forall c p r, statement n c p = Ok r -> kept c p r) /\
  (forall c p b s r, method n c p b s = Ok r -> kept c p r) /\
  (forall c p r, definition n c p = Ok r -> kept c p r) /\
  (forall c p r, definition_methods n c p = Ok r -> kept c p r).

End Grammar.

(** ** Example inputs *)

(** Modelled from the spec: a numbering of the opcodes, in the order of the
    instruction table of the specification, with the calls of zero to ten
    arguments after each other.  Only the examples use it. *)
Definition example_opcodes : Opcodes := {|
  CODE_CONSTANT := 0;
  CODE_NULL := 1;
  CODE_FALSE := 2;
  CODE_TRUE := 3;
  CODE_CLASS := 4;
  CODE_SUBCLASS := 5;
  CODE_METACLASS := 6;
  CODE_METHOD := 7;
  CODE_DUP := 8;
  CODE_POP := 9;
  CODE_LOAD_LOCAL := 10;
  CODE_STORE_LOCAL := 11;
  CODE_LOAD_GLOBAL := 12;
  CODE_STORE_GLOBAL := 13;
  CODE_CALL_0 := 14;
  CODE_JUMP := 25;
  CODE_JUMP_IF := 26;
  CODE_IS := 27;
  CODE_END := 28
|}.

(** A VM whose two symbol tables are empty. *)
Definition emptyVM : VM := {| globalSymbols := []; methods := [] |}.

(** The result of a run that is known to give one. *)
Definition resultOf {A} (default : A) (m : outcome A) : A :=
  match m with
  | Ok a => a
  | _ => default
  end.

(** The frame and the parser state [compile] ends with, for the example
    numbering and the empty VM. *)
Definition compiled (source : string) : State :=
  let text := list_ascii_of_string source in
  resultOf (initCompiler None false, initParser emptyVM text)
           (compile_frame (ops := example_opcodes) (enoughFuel text) emptyVM text).

(** The parser state after one more token. *)
Definition next (p : Parser) : Parser := resultOf p (nextToken p).

(** The parser state [compile] gives to the grammar: the first token has
    been read. *)
Definition started (source : string) : Parser :=
  next (initParser emptyVM (list_ascii_of_string source)).

(** The parser state [unaryOp] is called in for [-true]: the operator is the
    previous token. *)
Definition afterMinus : Parser := next (started "-true").

(** A [+], two newlines and a number. *)
Definition plusThenNewlines : string :=
  String "+" (String newline (String newline "1")).

(** [fn], a newline and a number. *)
Definition fnThenNewline : string := String "f" (String "n" (String newline "1")).

(** A condition followed by a branch of more than 255 bytes: 128 times the
    prefix operator [!], two bytes each. *)
Definition longBranch : string :=
  String.append "if (true) "
    (String.append (string_of_list_ascii (repeat "!" 128)) "true").

(** ** The tokens of the lexer *)

(** Only the cursor differs between [p] and [p']. *)
Definition moved (p p' : Parser) : Prop := p' = set_currentChar (currentChar p') p.

(** The token [p'] holds after the lexer has run from [p]: it is the text
    between [tokenStart] and the cursor, read after the cursor of [p]; it is
    empty for the end of the file only, which is made at a zero character
    only. *)
Record tokenized (p p' : Parser) : Prop := {
  tokenized_start : start (current p') = tokenStart p';
  tokenized_end : end_ (current p') = currentChar p';
  tokenized_line : line (current p') = currentLine p';
  tokenized_ge : currentChar p <= start (current p');
  tokenized_eof : type (current p') = TOKEN_EOF ->
    peekChar p' = Ok NUL /\ start (current p') = end_ (current p');
  tokenized_token : type (current p') <> TOKEN_EOF ->
    start (current p') < end_ (current p')
}.

(** ** The parser across a function of the grammar *)

(** What stays of the parser state: the source; the error flag once it is
    set; the diagnostics printed so far, to which nothing is added while the
    flag is not set; and the cursor never goes back. *)
Record latched (p p' : Parser) : Prop := {
  latched_source : source p' = source p;
  latched_hasError : hasError p = true -> hasError p' = true;
  latched_stderr : exists more, stderr p' = stderr p ++ more;
  latched_silent : hasError p' = false -> stderr p' = stderr p;
  latched_cursor : currentChar p <= currentChar p'
}.

(** The lookahead is the end of the file at a zero character only. *)
Definition endsAtNUL (p : Parser) : Prop :=
  type (current p) = TOKEN_EOF -> peekChar p = Ok NUL.

Definition ended (p p' : Parser) : Prop := endsAtNUL p -> endsAtNUL p'.

(** The text of the tokens that have one: the punctuation, the operators,
    the keywords and the newline. *)
Definition spelling (t : TokenType) : option (list ascii) :=
  match t with
  | TOKEN_LEFT_PAREN => Some ["("]
  | TOKEN_RIGHT_PAREN => Some [")"]
  | TOKEN_LEFT_BRACKET => Some ["["]
  | TOKEN_RIGHT_BRACKET => Some ["]"]
  | TOKEN_LEFT_BRACE => Some ["{"]
  | TOKEN_RIGHT_BRACE => Some ["}"]
  | TOKEN_COLON => Some [":"]
  | TOKEN_DOT => Some ["."]
  | TOKEN_COMMA => Some [","]
  | TOKEN_STAR => Some ["*"]
  | TOKEN_SLASH => Some ["/"]
  | TOKEN_PERCENT => Some ["%"]
  | TOKEN_PLUS => Some ["+"]
  | TOKEN_MINUS => Some ["-"]
  | TOKEN_PIPE => Some ["|"]
  | TOKEN_AMP => Some ["&"]
  | TOKEN_BANG => Some ["!"]
  | TOKEN_EQ => Some ["="]
  | TOKEN_LT => Some ["<"]
  | TOKEN_GT => Some [">"]
  | TOKEN_LTEQ => Some ["<"; "="]
  | TOKEN_GTEQ => Some [">"; "="]
  | TOKEN_EQEQ => Some ["="; "="]
  | TOKEN_BANGEQ => Some ["!"; "="]
  | TOKEN_CLASS => Some (list_ascii_of_string "class")
  | TOKEN_ELSE => Some (list_ascii_of_string "else")
  | TOKEN_FALSE => Some (list_ascii_of_string "false")
  | TOKEN_FN => Some (list_ascii_of_string "fn")
  | TOKEN_IF => Some (list_ascii_of_string "if")
  | TOKEN_IS => Some (list_ascii_of_string "is")
  | TOKEN_NULL => Some (list_ascii_of_string "null")
  | TOKEN_STATIC => Some (list_ascii_of_string "static")
  | TOKEN_THIS => Some (list_ascii_of_string "this")
  | TOKEN_TRUE => Some (list_ascii_of_string "true")
  | TOKEN_VAR => Some (list_ascii_of_string "var")
  | TOKEN_LINE => Some [newline]
  | TOKEN_NAME | TOKEN_NUMBER | TOKEN_STRING | TOKEN_ERROR | TOKEN_EOF => None
  end.

(** ** More example inputs *)

(** The string literal [abc], with its quotes. *)
Definition quotedABC : list ascii := quote :: ["a"; "b"; "c"] ++ [quote].

(** The parser state [call] is called in for [a.b(1)]: the dot is the
    previous token. *)
Definition afterDot : Parser := next (next (started "a.b(1)")).

(** The parser state [function] is called in for [fn 1]. *)
Definition afterFn : Parser := next (started "fn 1").

(** The parser state [name] is called in for [x]. *)
Definition afterName : Parser := next (started "x").

(** ** Two runs of [compile] on one VM *)








Section Replay.
Context {ops : Opcodes}.



End Replay.

(** * Properties *)

(** ** The outcome monad *)

Lemma bind_Ok {A B} (m : outcome A) (k : A -> outcome B) b :
  bind m k = Ok b -> exists a, m = Ok a /\ k a = Ok b.
Proof. destruct m; simpl; intros H; try discriminate H. eauto. Qed.

Lemma bind_not_OutOfFuel {A B} (m : outcome A) (k : A -> outcome B) :
  m <> OutOfFuel -> (forall a, m = Ok a -> k a <> OutOfFuel) ->
  bind m k <> OutOfFuel.
Proof. destruct m; simpl; intros Hm Hk; [apply Hk; reflexivity | discriminate | contradiction]. Qed.

(** Splits a hypothesis [H : m = Ok r] along the binds, conditionals and
    pattern matchings at the head of [m]. *)
Ltac inv_Ok H :=
  repeat match type of H with
  | bind ?m _ = Ok _ =>
      let a := fresh "a" in let E := fresh "E" in
      apply bind_Ok in H; destruct H as (a & E & H)
  | (let '(_, _) := ?x in _) = Ok _ => destruct x
  | (if ?b then _ else _) = Ok _ => destruct b eqn:?
  | Undefined _ = Ok _ => discriminate H
  | OutOfFuel = Ok _ => discriminate H
  | Ok _ = Ok _ => injection H as H
  end.

(** ** The character cursor *)

Lemma charAt_fuel p i : charAt p i <> OutOfFuel.
Proof.
  unfold charAt. destruct (source p !! i); [discriminate|].
  destruct (decide _); discriminate.
Qed.

Lemma charAt_le p i c : charAt p i = Ok c -> i <= length (source p).
Proof.
  unfold charAt. destruct (source p !! i) eqn:E.
  - intros _. apply lookup_lt_Some in E. lia.
  - destruct (decide _); [lia | discriminate].
Qed.

Lemma charAt_lt p i c : charAt p i = Ok c -> c <> NUL -> i < length (source p).
Proof.
  unfold charAt. destruct (source p !! i) eqn:E.
  - intros _ _. apply lookup_lt_Some in E. lia.
  - destruct (decide _); [congruence | discriminate].
Qed.

Lemma lexed_refl p : lexed p p.
Proof. split; auto; lia. Qed.

Lemma lexed_trans p q r : lexed p q -> lexed q r -> lexed p r.
Proof.
  intros [] []. split; try congruence; try lia.
  rewrite lexed_source0 in *. lia.
Qed.

Lemma nextChar_Ok p c p' :
  nextChar p = Ok (c, p') ->
  peekChar p = Ok c /\ p' = set_currentChar (currentChar p + 1) p.
Proof.
  unfold nextChar. intros H. inv_Ok H. split; congruence.
Qed.

Lemma nextChar_fuel p : nextChar p <> OutOfFuel.
Proof.
  unfold nextChar, peekChar. pose proof (charAt_fuel p (currentChar p)).
  destruct (charAt p (currentChar p)); simpl; congruence.
Qed.

Lemma nextChar_lexed p c p' :
  nextChar p = Ok (c, p') -> c <> NUL -> lexed p p' /\ currentChar p < currentChar p'.
Proof.
  intros H Hc. apply nextChar_Ok in H as [H ->].
  apply charAt_lt in H; [|assumption].
  split; [split|]; simpl; auto; lia.
Qed.

Lemma peekNextChar_fuel p : peekNextChar p <> OutOfFuel.
Proof.
  unfold peekNextChar, peekChar. apply bind_not_OutOfFuel; [apply charAt_fuel|].
  intros a _. destruct (a == NUL); [discriminate | apply charAt_fuel].
Qed.

Lemma peekBoth_fuel p a test : peekBoth p a test <> OutOfFuel.
Proof.
  unfold peekBoth. apply bind_not_OutOfFuel; [apply charAt_fuel|].
  intros c _. destruct (c == a); [|discriminate].
  apply bind_not_OutOfFuel; [apply peekNextChar_fuel | discriminate].
Qed.

Lemma peekBoth_true p a test :
  peekBoth p a test = Ok true -> peekChar p = Ok a.
Proof.
  unfold peekBoth. intros H. inv_Ok H; [|discriminate].
  apply Ascii.eqb_eq in Heqb. congruence.
Qed.

(** ** The loops of the lexer *)

Lemma advanceWhile_loop_lexed test fuel p p' :
  (forall c, test c = true -> c <> NUL) ->
  advanceWhile_loop test fuel p = Ok p' -> lexed p p'.
Proof.
  intros Htest. revert p. induction fuel as [|fuel IH]; intros p H; simpl in H.
  - discriminate.
  - inv_Ok H.
    + destruct a0 as [c p1]. apply nextChar_lexed in E0 as [L _].
      * eapply lexed_trans; eauto.
      * apply nextChar_Ok in E0 as [E0 _]. apply Htest. congruence.
    + subst. apply lexed_refl.
Qed.

Lemma advanceWhile_loop_fuel test fuel p :
  length (source p) + 1 - currentChar p < fuel ->
  advanceWhile_loop test fuel p <> OutOfFuel.
Proof.
  revert p. induction fuel as [|fuel IH]; intros p Hf; [lia|]. simpl.
  apply bind_not_OutOfFuel; [apply charAt_fuel|]. intros c Hc.
  destruct (test c); [|discriminate].
  apply bind_not_OutOfFuel; [apply nextChar_fuel|]. intros [c' p1] H1.
  apply nextChar_Ok in H1 as [_ ->]. apply IH. simpl.
  apply charAt_le in Hc. lia.
Qed.

Lemma advanceWhile_lexed test p p' :
  (forall c, test c = true -> c <> NUL) ->
  advanceWhile test p = Ok p' -> lexed p p'.
Proof. apply advanceWhile_loop_lexed. Qed.

Lemma advanceWhile_fuel test p : advanceWhile test p <> OutOfFuel.
Proof. apply advanceWhile_loop_fuel. unfold charsLeft. lia. Qed.

Lemma isDigit_NUL c : isDigit c = true -> c <> NUL.
Proof. intros H ->. discriminate H. Qed.

Lemma isName_NUL c : isName c = true -> c <> NUL.
Proof. intros H ->. discriminate H. Qed.

Lemma eqb_NUL a c : a <> NUL -> (c == a) = true -> c <> NUL.
Proof. intros Ha H ->. apply Ascii.eqb_eq in H. congruence. Qed.

Lemma peekBoth_next p a test :
  peekBoth p a test = Ok true -> a <> NUL ->
  exists c', charAt p (currentChar p + 1) = Ok c' /\ test c' = true.
Proof.
  unfold peekBoth, peekNextChar. intros H Ha. inv_Ok H; [|discriminate].
  apply Ascii.eqb_eq in Heqb. subst a. rewrite E in E0. simpl in E0.
  destruct (a0 == NUL) eqn:N; [apply Ascii.eqb_eq in N; contradiction|].
  exists a1. split; congruence.
Qed.

(** Two characters are consumed after [peekBoth] has seen them. *)
Lemma nextChar_twice p a test c1 p1 c2 p2 :
  peekBoth p a test = Ok true -> a <> NUL ->
  (forall c, test c = true -> c <> NUL) ->
  nextChar p = Ok (c1, p1) -> nextChar p1 = Ok (c2, p2) ->
  lexed p p2 /\ currentChar p < currentChar p2.
Proof.
  intros Hb Ha Ht H1 H2.
  destruct (peekBoth_next _ _ _ Hb Ha) as (c' & Hc' & Htc).
  pose proof (peekBoth_true _ _ _ Hb) as Hp.
  destruct (nextChar_lexed _ _ _ H1) as [L1 S1].
  { apply nextChar_Ok in H1 as [H1 _]. congruence. }
  destruct (nextChar_lexed _ _ _ H2) as [L2 S2].
  { apply nextChar_Ok in H1 as [_ ->]. apply nextChar_Ok in H2 as [H2 _].
    unfold peekChar in H2. simpl in H2. unfold charAt in *. simpl in H2.
    apply Ht. congruence. }
  split; [eapply lexed_trans; eauto | lia].
Qed.

Lemma skipBlockComment_loop_lexed fuel nesting p p' :
  skipBlockComment_loop fuel nesting p = Ok p' -> lexed p p'.
Proof.
  revert nesting p. induction fuel as [|fuel IH]; intros nesting p H; simpl in H.
  - discriminate.
  - destruct (decide (0 < nesting)); [|injection H as <-; apply lexed_refl].
    inv_Ok H.
    + subst. apply lexed_refl.
    + eapply lexed_trans; [|eapply IH; eassumption].
      eapply nextChar_twice;
        [eassumption | discriminate | intros c; apply eqb_NUL; discriminate
        | eassumption | eassumption].
    + eapply lexed_trans; [|eapply IH; eassumption].
      eapply nextChar_twice;
        [eassumption | discriminate | intros c; apply eqb_NUL; discriminate
        | eassumption | eassumption].
    + eapply lexed_trans; [|eapply IH; eassumption].
      eapply nextChar_lexed; eauto.
      apply nextChar_Ok in E2 as [E2 _]. intros ->.
      rewrite E in E2. injection E2 as ->. discriminate Heqb.
Qed.

Lemma skipBlockComment_loop_fuel fuel nesting p :
  length (source p) + 1 - currentChar p < fuel ->
  skipBlockComment_loop fuel nesting p <> OutOfFuel.
Proof.
  revert nesting p. induction fuel as [|fuel IH]; intros nesting p Hf; [lia|].
  simpl. destruct (decide (0 < nesting)); [|discriminate].
  apply bind_not_OutOfFuel; [apply charAt_fuel|]. intros c Hc.
  apply charAt_le in Hc.
  destruct (c == NUL); [discriminate|].
  assert (Hstep : forall n c1 p1, nextChar p = Ok (c1, p1) ->
            skipBlockComment_loop fuel n p1 <> OutOfFuel).
  { intros n c1 p1 H1. apply nextChar_Ok in H1 as [_ ->]. apply IH. simpl. lia. }
  assert (Hstep2 : forall n c1 p1 c2 p2, nextChar p = Ok (c1, p1) ->
            nextChar p1 = Ok (c2, p2) ->
            skipBlockComment_loop fuel n p2 <> OutOfFuel).
  { intros n c1 p1 c2 p2 H1 H2. apply nextChar_Ok in H1 as [_ ->].
    apply nextChar_Ok in H2 as [_ ->]. apply IH. simpl. lia. }
  apply bind_not_OutOfFuel; [apply peekBoth_fuel|]. intros [] _.
  - apply bind_not_OutOfFuel; [apply nextChar_fuel|]. intros [c1 p1] H1.
    apply bind_not_OutOfFuel; [apply nextChar_fuel|]. intros [c2 p2] H2. eauto.
  - apply bind_not_OutOfFuel; [apply peekBoth_fuel|]. intros [] _.
    + apply bind_not_OutOfFuel; [apply nextChar_fuel|]. intros [c1 p1] H1.
      apply bind_not_OutOfFuel; [apply nextChar_fuel|]. intros [c2 p2] H2. eauto.
    + apply bind_not_OutOfFuel; [apply nextChar_fuel|]. intros [c1 p1] H1. eauto.
Qed.

Lemma readString_loop_lexed fuel p p' :
  readString_loop fuel p = Ok p' -> lexed p p' /\ currentChar p < currentChar p'.
Proof.
  revert p. induction fuel as [|fuel IH]; intros p H; simpl in H; [discriminate|].
  inv_Ok H.
  - apply IH in H as [L S]. apply nextChar_Ok in E as [_ ->].
    destruct L. simpl in *. split; [split|]; simpl; auto; lia.
  - subst. apply nextChar_lexed in E; [assumption|].
    intros ->. discriminate Heqb.
Qed.

Lemma readString_loop_fuel fuel p :
  length (source p) + 1 - currentChar p < fuel ->
  readString_loop fuel p <> OutOfFuel.
Proof.
  revert p. induction fuel as [|fuel IH]; intros p Hf; [lia|]. simpl.
  apply bind_not_OutOfFuel; [apply nextChar_fuel|]. intros [c p1] H1.
  destruct (negb _); [|discriminate].
  apply nextChar_Ok in H1 as [Hc ->]. apply IH. simpl.
  apply charAt_le in Hc. lia.
Qed.

Lemma lexed_makeToken p q t : lexed p q -> lexed p (makeToken q t).
Proof. intros []. split; assumption. Qed.

Lemma lexed_set_tokenStart p n : lexed p (set_tokenStart n p).
Proof. split; simpl; auto; lia. Qed.

Lemma lexed_set_currentLine p q n : lexed p q -> lexed p (set_currentLine n q).
Proof. intros []. split; assumption. Qed.

Lemma readNumber_lexed p p' :
  readNumber p = Ok p' -> lexed p p' /\ type (current p') = TOKEN_NUMBER.
Proof.
  unfold readNumber. intros H. inv_Ok H. subst p'.
  split; [|reflexivity]. apply lexed_makeToken.
  apply advanceWhile_lexed in E; [|apply isDigit_NUL].
  eapply lexed_trans; [eassumption|].
  match goal with H : (if ?b then _ else _) = Ok _ |- _ => destruct b eqn:B; inv_Ok H end.
  - match goal with H : advanceWhile _ _ = Ok _ |- _ =>
      apply advanceWhile_lexed in H; [|apply isDigit_NUL] end.
    match goal with H : nextChar _ = Ok _ |- _ =>
      pose proof (nextChar_Ok _ _ _ H) as [Hc _];
      apply nextChar_lexed in H as [L _] end.
    + eauto using lexed_trans.
    + subst. match goal with H : peekBoth _ _ _ = Ok true |- _ =>
        apply peekBoth_true in H; rewrite H in Hc end.
      intros ->. discriminate Hc.
  - subst. apply lexed_refl.
Qed.

Lemma readNumber_fuel p : readNumber p <> OutOfFuel.
Proof.
  unfold readNumber. apply bind_not_OutOfFuel; [apply advanceWhile_fuel|].
  intros p1 _. apply bind_not_OutOfFuel; [apply peekBoth_fuel|]. intros b _.
  apply bind_not_OutOfFuel; [|discriminate].
  destruct b; [|discriminate].
  apply bind_not_OutOfFuel; [apply nextChar_fuel|]. intros [c p2] _.
  apply advanceWhile_fuel.
Qed.

Lemma readName_lexed p p' : readName p = Ok p' -> lexed p p'.
Proof.
  unfold readName. intros H. inv_Ok H; subst p'; apply lexed_makeToken;
    (eapply advanceWhile_lexed; [|eassumption]);
    intros c Hc; apply orb_true_iff in Hc as [Hc|Hc];
    auto using isName_NUL, isDigit_NUL.
Qed.

Lemma readName_fuel p : readName p <> OutOfFuel.
Proof.
  unfold readName. apply bind_not_OutOfFuel; [apply advanceWhile_fuel|].
  discriminate.
Qed.

Lemma readString_lexed p p' :
  readString p = Ok p' -> lexed p p' /\ type (current p') = TOKEN_STRING.
Proof.
  unfold readString. intros H. inv_Ok H. subst p'.
  apply readString_loop_lexed in E as [L _].
  split; [apply lexed_makeToken; assumption | reflexivity].
Qed.

Lemma readString_fuel p : readString p <> OutOfFuel.
Proof.
  unfold readString. apply bind_not_OutOfFuel; [|discriminate].
  apply readString_loop_fuel. unfold charsLeft. lia.
Qed.

Lemma oneOrTwo_lexed p second two one p' :
  second <> NUL -> oneOrTwo p second two one = Ok p' -> lexed p p'.
Proof.
  unfold oneOrTwo. intros Hs H. inv_Ok H; subst p'; apply lexed_makeToken.
  - eapply nextChar_lexed; [eassumption|].
    apply nextChar_Ok in E0 as [E0 _]. apply Ascii.eqb_eq in Heqb. congruence.
  - apply lexed_refl.
Qed.

Lemma oneOrTwo_fuel p second two one : oneOrTwo p second two one <> OutOfFuel.
Proof.
  unfold oneOrTwo. apply bind_not_OutOfFuel; [apply charAt_fuel|]. intros c _.
  destruct (c == second); [|discriminate].
  apply bind_not_OutOfFuel; [apply nextChar_fuel|]. intros [] _. discriminate.
Qed.

Lemma skipBlockComment_lexed p p' :
  peekChar p = Ok "*" -> skipBlockComment p = Ok p' -> lexed p p'.
Proof.
  unfold skipBlockComment. intros Hp H. inv_Ok H.
  apply skipBlockComment_loop_lexed in H.
  apply nextChar_lexed in E as [L _]; [eauto using lexed_trans|].
  apply nextChar_Ok in E as [E _]. intros ->. rewrite Hp in E. discriminate E.
Qed.

Lemma skipBlockComment_fuel p : skipBlockComment p <> OutOfFuel.
Proof.
  unfold skipBlockComment. apply bind_not_OutOfFuel; [apply nextChar_fuel|].
  intros [c p1] _. apply skipBlockComment_loop_fuel. unfold charsLeft. lia.
Qed.

Lemma skipLineComment_lexed p p' : skipLineComment p = Ok p' -> lexed p p'.
Proof.
  apply advanceWhile_lexed. intros c H ->. discriminate H.
Qed.

Lemma skipWhitespace_lexed p p' : skipWhitespace p = Ok p' -> lexed p p'.
Proof.
  apply advanceWhile_lexed. intros c H ->. discriminate H.
Qed.

(** The first character of a token has been consumed: what follows in
    [readRawToken] ends further on. *)
Ltac lexed_leaf IH :=
  match goal with
  | H : makeToken _ _ = _ |- _ => subst; apply lexed_makeToken; apply lexed_refl
  | H : makeToken (set_currentLine _ _) _ = _ |- _ =>
      subst; apply lexed_makeToken, lexed_set_currentLine, lexed_refl
  | H : readNumber _ = Ok _ |- _ => apply readNumber_lexed in H as [H _]; exact H
  | H : readName _ = Ok _ |- _ => apply readName_lexed in H; exact H
  | H : readString _ = Ok _ |- _ => apply readString_lexed in H as [H _]; exact H
  | H : oneOrTwo _ _ _ _ = Ok _ |- _ =>
      apply oneOrTwo_lexed in H; [exact H | discriminate]
  | H : skipLineComment _ = Ok _, H' : readRawToken_loop _ _ = Ok _ |- _ =>
      apply skipLineComment_lexed in H; apply IH in H' as [H' _];
      exact (lexed_trans _ _ _ H H')
  | H : skipWhitespace _ = Ok _, H' : readRawToken_loop _ _ = Ok _ |- _ =>
      apply skipWhitespace_lexed in H; apply IH in H' as [H' _];
      exact (lexed_trans _ _ _ H H')
  | H : skipBlockComment _ = Ok _, H' : readRawToken_loop _ _ = Ok _ |- _ =>
      apply skipBlockComment_lexed in H;
      [ apply IH in H' as [H' _]; exact (lexed_trans _ _ _ H H')
      | match goal with
        | P : peekChar _ = Ok ?c, Q : (?c == "*") = true |- _ =>
            apply Ascii.eqb_eq in Q; rewrite P, Q; reflexivity
        end ]
  end.

Lemma readRawToken_loop_lexed fuel p p' :
  readRawToken_loop fuel p = Ok p' ->
  lexed p p' /\ (type (current p') = TOKEN_EOF \/ currentChar p < currentChar p').
Proof.
  revert p. induction fuel as [|fuel IH]; intros p H; simpl in H; [discriminate|].
  apply bind_Ok in H as (c0 & Hc0 & H).
  destruct (c0 == NUL) eqn:N.
  { injection H as <-. split; [|left; reflexivity].
    apply lexed_makeToken, lexed_set_tokenStart. }
  apply bind_Ok in H as ([c p1] & H1 & H).
  assert (L1 : lexed p p1 /\ currentChar p < currentChar p1).
  { pose proof (nextChar_Ok _ _ _ H1) as [Hc _].
    apply nextChar_lexed in H1 as [L S].
    - split; [|exact S]. eapply lexed_trans; [apply lexed_set_tokenStart|exact L].
    - unfold peekChar, charAt in *. simpl in Hc. rewrite Hc0 in Hc.
      injection Hc as <-. intros ->. discriminate N. }
  destruct L1 as [L1 S1].
  assert (L2 : lexed p1 p') by (inv_Ok H; lexed_leaf IH).
  split; [eapply lexed_trans; eassumption|]. right. destruct L2. lia.
Qed.

Lemma readRawToken_loop_fuel fuel p :
  length (source p) + 1 - currentChar p < fuel ->
  readRawToken_loop fuel p <> OutOfFuel.
Proof.
  revert p. induction fuel as [|fuel IH]; intros p Hf; [lia|]. simpl.
  apply bind_not_OutOfFuel; [apply charAt_fuel|]. intros c0 Hc0.
  apply charAt_le in Hc0.
  destruct (c0 == NUL); [discriminate|].
  apply bind_not_OutOfFuel; [apply nextChar_fuel|]. intros [c p1] H1.
  apply nextChar_Ok in H1 as [_ ->].
  assert (Hrec : forall q, lexed (set_currentChar (currentChar p + 1)
                                    (set_tokenStart (currentChar p) p)) q ->
                 readRawToken_loop fuel q <> OutOfFuel).
  { intros q []. apply IH. simpl in *. rewrite lexed_source0. lia. }
  repeat match goal with
  | |- (if ?b then _ else _) <> OutOfFuel => destruct b eqn:?
  | |- Ok _ <> OutOfFuel => discriminate
  | |- bind _ _ <> OutOfFuel => apply bind_not_OutOfFuel; [|intros ? ?]
  | |- peekChar _ <> OutOfFuel => apply charAt_fuel
  | |- readNumber _ <> OutOfFuel => apply readNumber_fuel
  | |- readName _ <> OutOfFuel => apply readName_fuel
  | |- readString _ <> OutOfFuel => apply readString_fuel
  | |- oneOrTwo _ _ _ _ <> OutOfFuel => apply oneOrTwo_fuel
  | |- skipLineComment _ <> OutOfFuel => apply advanceWhile_fuel
  | |- skipWhitespace _ <> OutOfFuel => apply advanceWhile_fuel
  | |- skipBlockComment _ <> OutOfFuel => apply skipBlockComment_fuel
  | H : skipLineComment _ = Ok _ |- readRawToken_loop _ _ <> _ =>
      apply Hrec, skipLineComment_lexed, H
  | H : skipWhitespace _ = Ok _ |- readRawToken_loop _ _ <> _ =>
      apply Hrec, skipWhitespace_lexed, H
  | H : skipBlockComment _ = Ok _ |- readRawToken_loop _ _ <> _ =>
      apply Hrec; apply skipBlockComment_lexed in H; [exact H|]
  | P : peekChar _ = Ok ?c, Q : (?c == "*") = true |- peekChar _ = Ok "*" =>
      apply Ascii.eqb_eq in Q; rewrite P, Q; reflexivity
  end.
Qed.

Lemma readRawToken_lexed p p' :
  readRawToken p = Ok p' ->
  lexed p p' /\ (type (current p') = TOKEN_EOF \/ currentChar p < currentChar p').
Proof. apply readRawToken_loop_lexed. Qed.

Lemma readRawToken_fuel p : readRawToken p <> OutOfFuel.
Proof. apply readRawToken_loop_fuel. unfold charsLeft. lia. Qed.

(** ** The newline filter *)

Lemma nextToken_loop_filtered fuel p p' :
  nextToken_loop fuel p = Ok p' -> filtered p p'.
Proof.
  revert p. induction fuel as [|fuel IH]; intros p H; simpl in H; [discriminate|].
  apply bind_Ok in H as (q & Hq & H).
  apply readRawToken_lexed in Hq as [L T].
  assert (Hemit : set_skipNewlines (discardsNewlinesAfter (type (current q))) q = p' ->
                  type (current q) <> TOKEN_LINE -> filtered p p').
  { intros <- Hne. destruct L. split; simpl; try assumption.
    - unfold skipsAfter. rewrite bool_decide_eq_false_2 by assumption. reflexivity.
    - contradiction. }
  destruct (type (current q)) eqn:Ty;
    try (apply Hemit; [simpl in H; inv_Ok H; exact H | discriminate]).
  destruct (negb (skipNewlines q)) eqn:Sk.
  - injection H as <-. destruct L. split; simpl; try assumption.
    + destruct T as [T|T]; [discriminate T | right; exact T].
    + rewrite Ty. reflexivity.
    + intros _. rewrite <- lexed_skipNewlines0.
      destruct (skipNewlines q); [discriminate Sk | reflexivity].
  - apply IH in H as []. destruct L.
    split; try congruence; try lia.
    + rewrite lexed_source0 in *. lia.
    + destruct filtered_token0; [left; assumption | right; lia].
    + intros HL. apply filtered_line0 in HL. rewrite HL in Sk. discriminate Sk.
Qed.

Lemma nextToken_loop_fuel fuel p :
  length (source p) + 1 - currentChar p < fuel ->
  nextToken_loop fuel p <> OutOfFuel.
Proof.
  revert p. induction fuel as [|fuel IH]; intros p Hf; [lia|]. simpl.
  apply bind_not_OutOfFuel; [apply readRawToken_fuel|]. intros q Hq.
  apply readRawToken_lexed in Hq as [L T].
  destruct (type (current q)) eqn:Ty; try (simpl; discriminate).
  destruct (negb (skipNewlines q)); [discriminate|].
  apply IH. destruct T as [T|T]; [congruence|].
  destruct L. rewrite lexed_source0. lia.
Qed.

Lemma nextToken_advanced p p' : nextToken p = Ok p' -> advanced p p'.
Proof.
  unfold nextToken. intros H.
  apply nextToken_loop_filtered in H as []. simpl in *.
  split; assumption.
Qed.

Lemma nextToken_fuel p : nextToken p <> OutOfFuel.
Proof. apply nextToken_loop_fuel. unfold charsLeft. simpl. lia. Qed.

(** ** Newlines *)

(** The newline filter, as the code has it.  [nextToken] never emits two LINE tokens in a row, and the
    token it emits after an operator, an opening bracket, [.], [,] or one
    of the keywords [class], [else], [if], [is], [static], [var] is never a
    LINE: the raw newlines in between are dropped. *)
Theorem nextToken_newlines p p1 p2 :
  nextToken p = Ok p1 ->
  nextToken p1 = Ok p2 ->
  type (current p1) = TOKEN_LINE \/
  (spec_cannotEndExpression (type (current p1)) = true /\
   type (current p1) <> TOKEN_FN) ->
  type (current p2) <> TOKEN_LINE.
Proof.
  intros H1 H2 Ht HL.
  apply nextToken_advanced in H1 as A1.
  apply nextToken_advanced in H2 as A2.
  apply (advanced_line _ _ A2) in HL.
  rewrite (advanced_skipNewlines _ _ A1) in HL.
  unfold skipsAfter in HL.
  destruct Ht as [Ht | [Ht Hfn]].
  - rewrite Ht in HL. discriminate HL.
  - destruct (type (current p1)); try discriminate Ht; try discriminate HL.
    contradiction.
Qed.

(** ** Negative number literals *)

Lemma charAt_defined p i : i <= length (source p) -> exists c, charAt p i = Ok c.
Proof.
  intros Hi. unfold charAt. destruct (source p !! i) eqn:E; [eauto|].
  apply lookup_ge_None in E. destruct (decide _); [eauto | lia].
Qed.

Lemma set_currentChar_same p : set_currentChar (currentChar p) p = p.
Proof. destruct p; reflexivity. Qed.

Lemma set_currentChar_twice n m p :
  set_currentChar n (set_currentChar m p) = set_currentChar n p.
Proof. reflexivity. Qed.

(** A loop of the lexer only moves the cursor; it ends inside the buffer
    when it starts there, and after the first character when that one
    passes the test. *)
Lemma advanceWhile_loop_defined test fuel p :
  (forall c, test c = true -> c <> NUL) ->
  currentChar p <= length (source p) ->
  length (source p) + 1 - currentChar p < fuel ->
  exists n, currentChar p <= n <= length (source p) /\
            (forall c, peekChar p = Ok c -> test c = true -> currentChar p < n) /\
            advanceWhile_loop test fuel p = Ok (set_currentChar n p).
Proof.
  intros Ht. revert p. induction fuel as [|fuel IH]; intros p Hle Hf; [lia|].
  simpl. destruct (charAt_defined p (currentChar p) Hle) as [c Hc].
  unfold peekChar. rewrite Hc. simpl.
  destruct (test c) eqn:T.
  - unfold nextChar, peekChar. rewrite Hc. simpl.
    apply Ht in T. apply charAt_lt in Hc; [|assumption].
    destruct (IH (set_currentChar (currentChar p + 1) p)) as (n & Hn & _ & Hr);
      simpl; try lia.
    exists n. simpl in Hn. split; [lia|]. split; [intros; lia|].
    rewrite Hr. reflexivity.
  - exists (currentChar p). split; [lia|]. split; [congruence|].
    rewrite set_currentChar_same. reflexivity.
Qed.

Lemma advanceWhile_defined test p :
  (forall c, test c = true -> c <> NUL) ->
  currentChar p <= length (source p) ->
  exists n, currentChar p <= n <= length (source p) /\
            (forall c, peekChar p = Ok c -> test c = true -> currentChar p < n) /\
            advanceWhile test p = Ok (set_currentChar n p).
Proof.
  intros Ht Hle. apply advanceWhile_loop_defined; try assumption.
  unfold charsLeft. lia.
Qed.

Lemma peekBoth_defined p a test :
  currentChar p <= length (source p) -> exists b, peekBoth p a test = Ok b.
Proof.
  intros Hle. unfold peekBoth, peekNextChar, peekChar.
  destruct (charAt_defined p _ Hle) as [c Hc]. rewrite Hc. simpl.
  destruct (c == a); [|eauto].
  destruct (c == NUL) eqn:N; simpl; [eauto|].
  assert (c <> NUL) as Hn by (intros ->; discriminate N).
  apply charAt_lt in Hc; [|assumption].
  destruct (charAt_defined p (currentChar p + 1)) as [c' Hc']; [lia|].
  rewrite Hc'. simpl. eauto.
Qed.

Lemma readNumber_defined p :
  currentChar p <= length (source p) ->
  exists n, currentChar p <= n <= length (source p) /\
            (forall c, peekChar p = Ok c -> isDigit c = true -> currentChar p < n) /\
            readNumber p = Ok (makeToken (set_currentChar n p) TOKEN_NUMBER).
Proof.
  intros Hle. unfold readNumber.
  destruct (advanceWhile_defined isDigit p isDigit_NUL Hle) as (n & Hn & Hs & ->).
  simpl.
  destruct (peekBoth_defined (set_currentChar n p) "." isDigit) as [b Hb];
    [simpl; lia|].
  rewrite Hb. simpl. destruct b; simpl.
  - pose proof (peekBoth_true _ _ _ Hb) as Hp.
    unfold nextChar. rewrite Hp. cbn [bind].
    change (set_currentChar (currentChar (set_currentChar n p) + 1)
                            (set_currentChar n p))
      with (set_currentChar (n + 1) p).
    apply charAt_lt in Hp; [|discriminate]. simpl in Hp.
    destruct (advanceWhile_defined isDigit (set_currentChar (n + 1) p) isDigit_NUL)
      as (m & Hm & _ & ->); [simpl; lia|].
    simpl in *. exists m. split; [lia|]. split; [|reflexivity].
    intros c Hc Hd. specialize (Hs c Hc Hd). lia.
  - exists n. split; [lia|]. split; [exact Hs | reflexivity].
Qed.

(** C7.  Where the lexer reads a [-]: followed by a digit, it makes one
    NUMBER token that starts at the [-] and goes over the digit at least;
    followed by anything else, it makes the one-character MINUS token.  So
    [-1] is one token and [a - 1] three. *)
Theorem minus_before_digit p d :
  peekChar p = Ok "-" ->
  charAt p (currentChar p + 1) = Ok d ->
  (isDigit d = true ->
   exists p', readRawToken p = Ok p' /\
     type (current p') = TOKEN_NUMBER /\
     start (current p') = currentChar p /\
     currentChar p + 2 <= end_ (current p')) /\
  (isDigit d = false ->
   exists p', readRawToken p = Ok p' /\
     current p' = {| type := TOKEN_MINUS; start := currentChar p;
                     end_ := currentChar p + 1; line := currentLine p |}) /\
  tokens "-1" =
    Ok [ {| type := TOKEN_NUMBER; start := 0; end_ := 2; line := 1 |} ] /\
  tokens "a - 1" =
    Ok [ {| type := TOKEN_NAME; start := 0; end_ := 1; line := 1 |};
         {| type := TOKEN_MINUS; start := 2; end_ := 3; line := 1 |};
         {| type := TOKEN_NUMBER; start := 4; end_ := 5; line := 1 |} ].
Proof.
  intros Hp Hd.
  assert (Hraw : readRawToken p =
            let p1 := set_currentChar (currentChar p + 1)
                        (set_tokenStart (currentChar p) p) in
            if isDigit d then readNumber p1 else Ok (makeToken p1 TOKEN_MINUS)).
  { unfold readRawToken, charsLeft. simpl. rewrite Hp. simpl.
    unfold nextChar. unfold peekChar in *. unfold charAt in *. simpl.
    rewrite Hp. simpl. rewrite Hd. simpl. reflexivity. }
  rewrite Hraw. simpl. pose proof (charAt_le _ _ _ Hd) as Hle.
  split; [|split; [|split; reflexivity]]; intros Hdigit; rewrite Hdigit.
  - destruct (readNumber_defined (set_currentChar (currentChar p + 1)
                (set_tokenStart (currentChar p) p))) as (n & Hn & Hs & ->);
      [simpl; lia|].
    simpl in Hn. eexists. split; [reflexivity|]. simpl.
    split; [reflexivity|]. split; [reflexivity|].
    specialize (Hs d Hd Hdigit). simpl in Hs. lia.
  - eexists. split; reflexivity.
Qed.

(** ** Unterminated strings *)

Lemma readString_loop_unterminated fuel p :
  length (source p) + 1 - currentChar p < fuel ->
  (forall i c, currentChar p <= i -> source p !! i = Some c -> c <> quote) ->
  readString_loop fuel p = Undefined ReadPastBuffer.
Proof.
  revert p. induction fuel as [|fuel IH]; intros p Hf Hq; [lia|]. simpl.
  unfold nextChar, peekChar, charAt.
  destruct (source p !! currentChar p) eqn:E; simpl.
  - destruct (a == quote) eqn:Q.
    + apply Ascii.eqb_eq in Q. exfalso. eapply Hq; [|eassumption|exact Q]. lia.
    + simpl. apply lookup_lt_Some in E. apply IH; simpl; [lia|].
      intros i c Hi. apply Hq. lia.
  - destruct (decide _) as [e|n]; [|reflexivity]. simpl.
    apply IH; simpl; [lia|]. intros i c Hi. apply Hq. lia.
Qed.

(** [readString] on a string that is not closed: the loop goes over the
    terminator and reads the buffer after it. *)
Lemma readString_unterminated p :
  (forall i c, currentChar p <= i -> source p !! i = Some c -> c <> quote) ->
  readString p = Undefined ReadPastBuffer.
Proof.
  intros Hq. unfold readString.
  rewrite readString_loop_unterminated; [reflexivity | unfold charsLeft; lia | exact Hq].
Qed.

(** ** Buffers *)

Lemma cell_store_eq {A} (zero : A) buffer i v : cell zero (store zero buffer i v) i = v.
Proof.
  unfold cell, store. destruct (decide (i < length buffer)).
  - rewrite list_lookup_insert_eq by assumption. reflexivity.
  - rewrite lookup_app_r by lia. rewrite lookup_app_r; rewrite length_replicate; [|lia].
    replace (i - length buffer - (i - length buffer)) with 0 by lia. reflexivity.
Qed.

Lemma cell_store_ne {A} (zero : A) buffer i j v :
  i <> j -> cell zero (store zero buffer i v) j = cell zero buffer j.
Proof.
  intros Hne. unfold cell, store. destruct (decide (i < length buffer)).
  - rewrite list_lookup_insert_ne by assumption. reflexivity.
  - destruct (decide (j < length buffer)).
    + rewrite lookup_app_l by assumption. reflexivity.
    + rewrite (lookup_ge_None_2 buffer j) by lia. simpl.
      rewrite lookup_app_r by lia.
      destruct (decide (j < i)).
      * rewrite lookup_app_l by (rewrite length_replicate; lia).
        rewrite lookup_replicate_2 by lia. reflexivity.
      * rewrite lookup_app_r by (rewrite length_replicate; lia).
        rewrite length_replicate.
        rewrite lookup_ge_None_2; [reflexivity | simpl; lia].
Qed.

Lemma length_store {A} (zero : A) buffer i v :
  length (store zero buffer i v) = Nat.max (length buffer) (i + 1).
Proof.
  unfold store. destruct (decide (i < length buffer)).
  - rewrite length_insert. lia.
  - rewrite !length_app, length_replicate. simpl. lia.
Qed.

Lemma store_end {A} (zero : A) buffer v :
  store zero buffer (length buffer) v = buffer ++ [v].
Proof.
  unfold store. destruct (decide _); [lia|].
  replace (length buffer - length buffer) with 0 by lia. reflexivity.
Qed.

(** ** Symbol tables *)

Lemma findSymbol_from_range i symbols name :
  findSymbol_from i symbols name = (-1)%Z \/
  (Z.of_nat i <= findSymbol_from i symbols name < Z.of_nat (i + length symbols))%Z.
Proof.
  revert i. induction symbols as [|s rest IH]; intros i; simpl; [left; reflexivity|].
  destruct (decide (s = name)); [right; lia|].
  destruct (IH (S i)) as [H|H]; [left; exact H | right; lia].
Qed.


Lemma findSymbol_from_new i symbols name :
  findSymbol_from i symbols name = (-1)%Z ->
  findSymbol_from i (symbols ++ [name]) name = Z.of_nat (i + length symbols).
Proof.
  revert i. induction symbols as [|s rest IH]; intros i; simpl.
  - intros _. destruct (decide (name = name)); [f_equal; lia | contradiction].
  - destruct (decide (s = name)); [lia|]. intros H. rewrite IH by exact H.
    f_equal. lia.
Qed.

(** The symbol [ensureSymbol] returns is the one of the name in the table
    it leaves. *)
Lemma ensureSymbol_findSymbol symbols name :
  findSymbol (snd (ensureSymbol symbols name)) name = fst (ensureSymbol symbols name)
  /\ (0 <= fst (ensureSymbol symbols name))%Z.
Proof.
  unfold ensureSymbol, findSymbol.
  destruct (decide (findSymbol_from 0 symbols name = (-1)%Z)) as [E|N]; simpl.
  - rewrite findSymbol_from_new by exact E. split; lia.
  - split; [reflexivity|].
    destruct (findSymbol_from_range 0 symbols name); [contradiction | lia].
Qed.


Section Claims.
Context {ops : Opcodes}.

(** ** Prefix minus *)

(** C3, amended.  The code [unaryOp] emits for a prefix [-] ends with a
    [CALL_0] whose operand is the symbol, in the method table of the VM, of
    the one-character name [-]: [ensureSymbol] is given the length 1, and
    the space of the name [- ] of the rule is left out. *)
Theorem unaryOp_minus_symbol fuel c p allowAssignment c' p' :
  type (previous p) = TOKEN_MINUS ->
  unaryOp fuel c p allowAssignment = Ok (c', p') ->
  2 <= numCodes c' /\
  cell 0%Z (bytecode (fn c')) (numCodes c' - 2) = toByte CODE_CALL_0 /\
  cell 0%Z (bytecode (fn c')) (numCodes c' - 1) =
    toByte (findSymbol (methods (vm p')) (list_ascii_of_string "-")) /\
  (0 <= findSymbol (methods (vm p')) (list_ascii_of_string "-"))%Z.
Proof.
  intros Hminus H. destruct fuel as [|fuel]; [discriminate H|].
  simpl in H. rewrite Hminus in H. simpl in H.
  apply bind_Ok in H as ([c1 p1] & _ & H). injection H as <- <-. simpl.
  destruct (ensureSymbol_findSymbol (methods (vm p1)) ["-"]) as [Hfind Hpos].
  rewrite Hfind.
  split; [lia|].
  replace (numCodes c1 + 1 + 1 - 2) with (numCodes c1) by lia.
  replace (numCodes c1 + 1 + 1 - 1) with (numCodes c1 + 1) by lia.
  split; [|split; [|exact Hpos]].
  - rewrite cell_store_ne by lia. apply cell_store_eq.
  - apply cell_store_eq.
Qed.
End Claims.

(** ** More fuel does not change a result *)

Lemma refines_refl {A} (m : outcome A) : refines m m.
Proof. right. reflexivity. Qed.

Lemma refines_OutOfFuel {A} (m : outcome A) : refines OutOfFuel m.
Proof. left. reflexivity. Qed.

Lemma refines_bind {A B} (m m' : outcome A) (k k' : A -> outcome B) :
  refines m m' -> (forall a, refines (k a) (k' a)) ->
  refines (bind m k) (bind m' k').
Proof.
  intros [-> | <-] Hk; [left; reflexivity|].
  destruct m; simpl; [apply Hk | right; reflexivity | left; reflexivity].
Qed.

Lemma refines_Ok {A} (m m' : outcome A) a : refines m m' -> m = Ok a -> m' = Ok a.
Proof. intros [-> | <-]; [discriminate | auto]. Qed.

Ltac refines_step :=
  match goal with
  | |- refines ?m ?m => apply refines_refl
  | |- refines OutOfFuel _ => apply refines_OutOfFuel
  | |- refines (bind _ _) (bind _ _) => apply refines_bind; [|intros ?]
  | |- refines (match ?x with _ => _ end) (match ?x with _ => _ end) =>
      destruct x
  | |- refines (if ?b then _ else _) (if ?b then _ else _) => destruct b
  end.

Section Mono.
Context {ops : Opcodes}.

Lemma parameterList_loop_refines n m c p name :
  n <= m ->
  refines (parameterList_loop n c p name) (parameterList_loop m c p name).
Proof.
  revert m c p name. induction n as [|n IH]; intros m c p name Hle.
  - apply refines_OutOfFuel.
  - destruct m as [|m]; [lia|]. simpl.
    repeat first [ apply IH; lia | refines_step ].
Qed.

Lemma parameterList_refines n m c p name :
  n <= m -> refines (parameterList n c p name) (parameterList m c p name).
Proof.
  intros Hle. unfold parameterList.
  repeat first [ apply parameterList_loop_refines; assumption | refines_step ].
Qed.

Lemma callSignatureFn_refines n m s c p name :
  n <= m ->
  refines (callSignatureFn n s c p name) (callSignatureFn m s c p name).
Proof.
  intros Hle. destruct s; simpl;
    first [ apply parameterList_refines; assumption | apply refines_refl ].
Qed.

Lemma grammar_refines_le n : forall m, n <= m -> grammar_refines n m.
Proof.
  induction n as [|n IH]; intros m Hle.
  - repeat split; intros; apply refines_OutOfFuel.
  - destruct m as [|m]; [lia|].
    assert (n <= m) as Hle' by lia.
    destruct (IH m Hle') as
      (IH1 & IH2 & IH3 & IH4 & IH5 & IH6 & IH7 & IH8 & IH9 & IH10 & IH11 &
       IH12 & IH13 & IH14 & IH15 & IH16 & IH17 & IH18).
    pose proof (parameterList_refines n m) as IHp.
    pose proof (callSignatureFn_refines n m) as IHs.
    repeat split; intros; simpl;
      repeat first
        [ apply IH1 | apply IH2 | apply IH3 | apply IH4 | apply IH5 | apply IH6
        | apply IH7 | apply IH8 | apply IH9 | apply IH10 | apply IH11
        | apply IH12 | apply IH13 | apply IH14 | apply IH15 | apply IH16
        | apply IH17 | apply IH18 | apply IHp; assumption
        | apply IHs; assumption | refines_step ].
Qed.
End Mono.

Section MonoCompile.
Context {ops : Opcodes}.

Lemma compile_frame_refines n m machine source :
  n <= m ->
  refines (compile_frame n machine source) (compile_frame m machine source).
Proof.
  intros Hle. unfold compile_frame.
  destruct (grammar_refines_le n m Hle) as (_ & _ & _ & _ & _ & _ & IH7 & _).
  repeat first [ apply IH7 | refines_step ].
Qed.

Lemma compile_refines n m machine source :
  n <= m -> refines (compile n machine source) (compile m machine source).
Proof.
  intros Hle. unfold compile.
  repeat first [ apply compile_frame_refines; assumption | refines_step ].
Qed.

Lemma compile_frame_more_fuel n m machine source r :
  compile_frame n machine source = Ok r -> n <= m ->
  compile_frame m machine source = Ok r.
Proof.
  intros H Hle. eapply refines_Ok; [apply compile_frame_refines|]; eassumption.
Qed.

Lemma compile_more_fuel n m machine source r :
  compile n machine source = Ok r -> n <= m ->
  compile m machine source = Ok r.
Proof.
  intros H Hle. eapply refines_Ok; [apply compile_refines|]; eassumption.
Qed.

End MonoCompile.

Section Claims2.
Context {ops : Opcodes}.


(** ** Unterminated strings, from [compile] *)

(** C10.  [readString] on a buffer with no closing quote from the cursor on
    reads after the terminator; so does [compile] on a source that starts a
    string and never closes it. *)
Theorem unterminated_string_reads_past_buffer :
  (forall p,
     (forall i c, currentChar p <= i -> source p !! i = Some c -> c <> quote) ->
     readString p = Undefined ReadPastBuffer) /\
  (forall fuel machine text,
     (forall c, In c text -> c <> quote) ->
     compile fuel machine (quote :: text) = Undefined ReadPastBuffer).
Proof.
  split; [exact readString_unterminated|].
  intros fuel machine text Hq.
  unfold compile, compile_frame.
  assert (nextToken (initParser machine (quote :: text)) = Undefined ReadPastBuffer) as ->;
    [|reflexivity].
  unfold nextToken, charsLeft. simpl.
  unfold readRawToken, charsLeft. simpl.
  rewrite readString_unterminated; [reflexivity|].
  simpl. intros i c Hi Hc. destruct i as [|i]; [lia|]. simpl in Hc.
  apply Hq. apply list_elem_of_In. eapply list_elem_of_lookup_2. exact Hc.
Qed.

(** ** Blank sources *)

Lemma nextToken_at_end p :
  currentChar p = length (source p) -> nextToken p = Ok (atEnd p).
Proof.
  intros Hend. unfold nextToken, charsLeft. simpl.
  unfold readRawToken, charsLeft. simpl.
  unfold peekChar, charAt. simpl.
  rewrite (lookup_ge_None_2 (source p) (currentChar p)) by lia.
  destruct (decide (currentChar p = length (source p))); [|contradiction].
  reflexivity.
Qed.

Lemma readRawToken_loop_blank fuel p :
  length (source p) + 1 - currentChar p < fuel ->
  currentChar p <= length (source p) ->
  (forall i c, currentChar p <= i -> source p !! i = Some c -> blank c) ->
  exists q, readRawToken_loop fuel p = Ok q /\
    (type (current q) = TOKEN_LINE \/
     (type (current q) = TOKEN_EOF /\ currentChar q = length (source p))).
Proof.
  revert p. induction fuel as [|fuel IH]; intros p Hf Hle Hb; [lia|].
  simpl. unfold peekChar, charAt.
  destruct (source p !! currentChar p) as [c|] eqn:E.
  - pose proof (lookup_lt_Some _ _ _ E) as Hlt.
    unfold nextChar, peekChar, charAt. simpl. rewrite E.
    destruct (Hb _ _ (Nat.le_refl _) E) as [-> | ->]; simpl.
    + destruct (advanceWhile_defined (fun c => c == " ")
                  (set_currentChar (currentChar p + 1)
                     (set_tokenStart (currentChar p) p)))
        as (n & Hn & _ & Hr); [intros c H ->; discriminate H | simpl; lia |].
      unfold skipWhitespace. rewrite Hr. cbn [bind]. simpl in Hn.
      destruct (IH (set_currentChar n
                      (set_currentChar (currentChar p + 1)
                         (set_tokenStart (currentChar p) p))))
        as (q & Hq & Hty); simpl; [lia | lia | |].
      * intros i c Hi. apply Hb. lia.
      * exists q. split; assumption.
    + eexists. split; [reflexivity|]. left. reflexivity.
  - apply lookup_ge_None in E.
    destruct (decide (currentChar p = length (source p))); [|lia].
    simpl. eexists. split; [reflexivity|]. right. split; [reflexivity|].
    simpl. lia.
Qed.

Lemma nextToken_loop_blank fuel p :
  length (source p) + 1 - currentChar p < fuel ->
  currentChar p <= length (source p) ->
  skipNewlines p = true ->
  (forall i c, currentChar p <= i -> source p !! i = Some c -> blank c) ->
  exists p', nextToken_loop fuel p = Ok p' /\
    type (current p') = TOKEN_EOF /\ currentChar p' = length (source p).
Proof.
  revert p. induction fuel as [|fuel IH]; intros p Hf Hle Hs Hb; [lia|].
  simpl.
  destruct (readRawToken_loop_blank (charsLeft p) p) as (q & Hq & Hty);
    [unfold charsLeft; lia | assumption | assumption |].
  unfold readRawToken. rewrite Hq. simpl.
  apply readRawToken_loop_lexed in Hq as [L T].
  destruct Hty as [Hty | [Hty Hend]]; rewrite Hty.
  - rewrite (lexed_skipNewlines _ _ L), Hs. simpl.
    destruct T as [T|T]; [congruence|].
    pose proof (lexed_le _ _ L) as Hq_le.
    pose proof (lexed_source _ _ L) as Hsrc.
    destruct (IH q) as (p' & Hp' & Hty' & Hend').
    + rewrite Hsrc. lia.
    + rewrite Hsrc. lia.
    + rewrite (lexed_skipNewlines _ _ L). exact Hs.
    + rewrite Hsrc. intros i c Hi. apply Hb. lia.
    + exists p'. rewrite <- Hsrc. auto.
  - simpl. eexists. split; [reflexivity|]. split; assumption.
Qed.

(** The parse of an empty rest of file: [parsePrecedence] finds no prefix
    parser for the EOF token. *)
Lemma blockBody_at_end n c p :
  type (current p) = TOKEN_EOF ->
  currentChar p = length (source p) ->
  blockBody (6 + n) c p TOKEN_EOF "Expect end of file." =
    Ok (c, atEnd (error (atEnd p) "No prefix parser.")).
Proof.
  intros Hty Hend. simpl. unfold match_, peek.
  do 4 (rewrite ?Hty; simpl).
  rewrite (nextToken_at_end p Hend). simpl. rewrite Hty. simpl.
  unfold consume. rewrite nextToken_at_end by exact Hend. reflexivity.
Qed.

(** C2, amended.  On a source of spaces and newlines only, the empty source
    included, [compile] prints "No prefix parser." and returns NULL; the
    bytecode of the top-level function it gives up is the single
    instruction [END]. *)
Theorem blank_source_fails machine text fuel :
  (forall c, In c text -> blank c) ->
  6 <= fuel ->
  compile fuel machine text = Ok (None, machine) /\
  exists c p,
    compile_frame fuel machine text = Ok (c, p) /\
    bytecode (fn c) = [toByte CODE_END] /\
    numCodes c = 1 /\
    hasError p = true /\
    map diag_message (stderr p) = ["No prefix parser."%string].
Proof.
  intros Hb Hfuel.
  destruct (nextToken_loop_blank
              (charsLeft (set_previous (current (initParser machine text))
                                       (initParser machine text)))
              (set_previous (current (initParser machine text))
                            (initParser machine text)))
    as (p1 & Hp1 & Hty & Hend).
  { unfold charsLeft. lia. }
  { simpl. lia. }
  { reflexivity. }
  { simpl. intros i c _ Hc. apply Hb, list_elem_of_In.
    eapply list_elem_of_lookup_2. exact Hc. }
  pose proof (nextToken_loop_filtered _ _ _ Hp1) as F.
  pose proof (filtered_source _ _ F) as Hsrc. simpl in Hsrc, Hend.
  rewrite <- Hsrc in Hend.
  assert (compile_frame fuel machine text =
          Ok (snd (emit (initCompiler None false) CODE_END),
              atEnd (error (atEnd p1) "No prefix parser."))) as Hframe.
  { apply (compile_frame_more_fuel 6); [|exact Hfuel].
    unfold compile_frame, nextToken. rewrite Hp1. cbn [bind].
    rewrite (blockBody_at_end 0) by assumption. reflexivity. }
  split.
  - unfold compile. rewrite Hframe. cbn [bind]. simpl.
    rewrite (filtered_vm _ _ F). reflexivity.
  - eexists _, _. split; [exact Hframe|]. simpl.
    rewrite (filtered_stderr _ _ F). simpl. repeat split.
Qed.
End Claims2.

(** ** What every function of the grammar preserves *)

Lemma Ok_inj {A} (a b : A) : Ok a = Ok b -> a = b.
Proof. intros H. injection H as H. exact H. Qed.

(** Like [inv_Ok], with an equation for every pattern matching on a pair. *)
Ltac inv_steps H :=
  repeat match type of H with
  | bind ?m _ = Ok _ =>
      let a := fresh "a" in let E := fresh "E" in
      apply bind_Ok in H; destruct H as (a & E & H)
  | (let '(_, _) := ?x in _) = Ok _ =>
      let E := fresh "E" in destruct x as [? ?] eqn:E
  | (if ?b then _ else _) = Ok _ => destruct b eqn:?
  | (match ?x with _ => _ end) = Ok _ => destruct x eqn:?
  | Undefined _ = Ok _ => discriminate H
  | OutOfFuel = Ok _ => discriminate H
  | Ok _ = Ok _ => apply Ok_inj in H
  end.

(** One step of a function of the grammar, nothing below it. *)
Ltac grammar_step H :=
  cbn [parsePrecedence parsePrecedence_infix callGrammarFn grouping unaryOp
       function blockBody name call call_arguments is_ infixOp expression
       assignment statement method definition definition_methods] in H.

Ltac inv_any :=
  match goal with
  | H : bind _ _ = Ok _ |- _ => inv_steps H
  | H : (match _ with _ => _ end) = Ok _ |- _ => inv_steps H
  | H : Ok _ = Ok _ |- _ => apply Ok_inj in H
  end.

Section Closure.
Context {ops : Opcodes}.

(** A relation between the frame a function is given and the one it
    leaves, and one between the parser states, both kept by every step of
    the compiler. *)
Variable Rc : Compiler -> Compiler -> Prop.
Variable Rp : Parser -> Parser -> Prop.

Hypothesis Rc_refl : forall c, Rc c c.
Hypothesis Rc_trans : forall c1 c2 c3, Rc c1 c2 -> Rc c2 c3 -> Rc c1 c3.
Hypothesis Rc_numCodes : forall c c', Rc c c' -> numCodes c <= numCodes c'.
Hypothesis Rc_emit : forall c code, Rc c (snd (emit c code)).
Hypothesis Rc_addConstant : forall c v, Rc c (snd (addConstant c v)).
Hypothesis Rc_completeConstant : forall c i f, Rc c (completeConstant c i f).
Hypothesis Rc_set_locals : forall c s, Rc c (set_locals s c).
Hypothesis Rc_writeCode : forall c0 c i code,
  Rc c0 c -> numCodes c0 <= i < numCodes c -> Rc c0 (writeCode c i code).

Hypothesis Rp_refl : forall p, Rp p p.
Hypothesis Rp_trans : forall p1 p2 p3, Rp p1 p2 -> Rp p2 p3 -> Rp p1 p3.
Hypothesis Rp_nextToken : forall p p', nextToken p = Ok p' -> Rp p p'.
Hypothesis Rp_error : forall p message, Rp p (error p message).
Hypothesis Rp_set_vm : forall p v, Rp p (set_vm v p).

Lemma match_kept p t b p' : match_ p t = Ok (b, p') -> Rp p p'.
Proof.
  unfold match_. intros H. inv_steps H; injection H as <- <-; auto.
Qed.

Lemma consume_kept p t message p' : consume p t message = Ok p' -> Rp p p'.
Proof.
  unfold consume. intros H. inv_steps H; subst; eauto.
Qed.

Lemma declareVariable_kept c p s c' p' :
  declareVariable c p = Ok (s, c', p') -> Rc c c' /\ Rp p p'.
Proof.
  unfold declareVariable. intros H. apply bind_Ok in H as (p1 & H1 & H).
  apply consume_kept in H1.
  destruct (parent c); simpl in H; injection H as <- <- <-;
    (split; [auto|]);
    match goal with
    | |- Rp _ (if ?b then _ else _) => destruct b
    end; eauto.
Qed.

Lemma defineVariable_kept c s : Rc c (defineVariable c s).
Proof.
  unfold defineVariable. destruct (parent c); simpl.
  - apply (Rc_emit c CODE_DUP).
  - eapply Rc_trans; [apply (Rc_emit c CODE_STORE_GLOBAL)|].
    apply (Rc_emit (snd (emit c CODE_STORE_GLOBAL)) s).
Qed.

Lemma emit_kept c code i c' :
  emit c code = (i, c') ->
  Rc c c' /\ i = numCodes c /\ numCodes c' = numCodes c + 1.
Proof.
  intros H. pose proof (Rc_emit c code) as R. rewrite H in R.
  unfold emit in H. injection H as <- <-. auto.
Qed.

Lemma addConstant_kept c v i c' : addConstant c v = (i, c') -> Rc c c'.
Proof. intros H. pose proof (Rc_addConstant c v) as R. rewrite H in R. exact R. Qed.

Lemma ensureMethod_kept p name s p' : ensureMethod p name = (s, p') -> Rp p p'.
Proof. unfold ensureMethod. intros H. injection H as <- <-. apply Rp_set_vm. Qed.

(** Names the pairs that the goal takes apart, and turns the equations
    about [emit] and [addConstant] into what they keep. *)
Ltac name_pairs :=
  repeat match goal with
  | |- context [let '(_, _) := ?x in _] =>
      let E := fresh "E" in destruct x as [? ?] eqn:E
  end;
  repeat match goal with
  | E : emit _ _ = (_, _) |- _ => apply emit_kept in E as (? & ? & ?)
  | E : addConstant _ _ = (_, _) |- _ => apply addConstant_kept in E
  end.

Lemma boolean_kept c p : kept Rc Rp c p (boolean c p).
Proof.
  unfold boolean. destruct (decide _); split; simpl; auto; apply Rc_emit.
Qed.

Lemma null_kept c p : kept Rc Rp c p (null c p).
Proof. split; simpl; auto. apply Rc_emit. Qed.

Lemma number_kept c p : kept Rc Rp c p (number c p).
Proof.
  unfold number. destruct (strtod _); name_pairs; split; simpl; eauto.
Qed.

Lemma string_kept c p r : string_ c p = Ok r -> kept Rc Rp c p r.
Proof.
  unfold string_. destruct (decide _); [discriminate|].
  name_pairs. intros Hr. apply Ok_inj in Hr as <-. split; simpl; eauto.
Qed.

Lemma this_kept c p : kept Rc Rp c p (this_ c p).
Proof.
  unfold this_. destruct (negb _); name_pairs; split; simpl; eauto.
Qed.

(** Turns the equations of the context about a step into what the step
    keeps. *)
Ltac keep_facts :=
  repeat match goal with
  | E : match_ _ _ = Ok (_, _) |- _ => apply match_kept in E
  | E : consume _ _ _ = Ok _ |- _ => apply consume_kept in E
  | E : nextToken _ = Ok _ |- _ => apply Rp_nextToken in E
  | E : declareVariable _ _ = Ok (_, _, _) |- _ =>
      apply declareVariable_kept in E as [? ?]
  | E : emit _ _ = (_, _) |- _ => apply emit_kept in E as (? & ? & ?)
  | E : addConstant _ _ = (_, _) |- _ => apply addConstant_kept in E
  | E : ensureMethod _ _ = (_, _) |- _ => apply ensureMethod_kept in E
  | E : string_ _ _ = Ok _ |- _ => apply string_kept in E as [? ?]
  end.

(** Goes back from the last frame, or parser state, to the first one along
    the steps of the context. *)
Ltac chain_c :=
  match goal with
  | |- Rc ?a ?a => apply Rc_refl
  | H : Rc ?a ?b |- Rc ?a ?b => exact H
  | |- Rc ?a (completeConstant ?x _ _) =>
      apply (Rc_trans a x); [chain_c | apply Rc_completeConstant]
  | |- Rc ?a (defineVariable ?x _) =>
      apply (Rc_trans a x); [chain_c | apply defineVariable_kept]
  | |- Rc ?a (snd (emit ?x _)) =>
      apply (Rc_trans a x); [chain_c | apply Rc_emit]
  | |- Rc ?a (fst (boolean ?x ?y)) =>
      apply (Rc_trans a x); [chain_c | apply (boolean_kept x y)]
  | |- Rc ?a (fst (null ?x ?y)) =>
      apply (Rc_trans a x); [chain_c | apply (null_kept x y)]
  | |- Rc ?a (fst (number ?x ?y)) =>
      apply (Rc_trans a x); [chain_c | apply (number_kept x y)]
  | |- Rc ?a (fst (this_ ?x ?y)) =>
      apply (Rc_trans a x); [chain_c | apply (this_kept x y)]
  | |- Rc _ (if ?b then _ else _) => destruct b; chain_c
  | |- Rc ?a (writeCode ?x _ _) =>
      apply Rc_writeCode;
      [ chain_c
      | repeat match goal with
        | H : Rc ?x ?y |- _ =>
            lazymatch goal with
            | _ : numCodes x <= numCodes y |- _ => fail
            | _ => pose proof (Rc_numCodes _ _ H)
            end
        end; simpl in *; lia ]
  | H : Rc ?x ?b |- Rc ?a ?b => apply (Rc_trans a x b); [chain_c | exact H]
  end.

Ltac chain_p :=
  match goal with
  | |- Rp ?a ?a => apply Rp_refl
  | H : Rp ?a ?b |- Rp ?a ?b => exact H
  | |- Rp ?a (error ?x _) => apply (Rp_trans a x); [chain_p | apply Rp_error]
  | |- Rp ?a (set_vm _ ?x) => apply (Rp_trans a x); [chain_p | apply Rp_set_vm]
  | |- Rp ?a (snd (boolean ?x ?y)) =>
      apply (Rp_trans a y); [chain_p | apply (boolean_kept x y)]
  | |- Rp ?a (snd (null ?x ?y)) =>
      apply (Rp_trans a y); [chain_p | apply (null_kept x y)]
  | |- Rp ?a (snd (number ?x ?y)) =>
      apply (Rp_trans a y); [chain_p | apply (number_kept x y)]
  | |- Rp ?a (snd (this_ ?x ?y)) =>
      apply (Rp_trans a y); [chain_p | apply (this_kept x y)]
  | |- Rp _ (if ?b then _ else _) => destruct b; chain_p
  | H : Rp ?x ?b |- Rp ?a ?b => apply (Rp_trans a x b); [chain_p | exact H]
  end.

Ltac kept_by H :=
  inv_steps H; keep_facts; simplify_eq; simpl; (split; [chain_c | chain_p]).

Lemma parameterList_loop_kept n c p name c' p' name' :
  parameterList_loop n c p name = Ok (c', p', name') -> Rc c c' /\ Rp p p'.
Proof.
  revert c p name. induction n as [|n IH]; intros c p name H; simpl in H;
    [discriminate|].
  inv_steps H; keep_facts; simplify_eq.
  - apply IH in H as [? ?]. split; [chain_c | chain_p].
  - split; [chain_c | chain_p].
Qed.

Lemma parameterList_kept n c p name c' p' name' :
  parameterList n c p name = Ok (c', p', name') -> Rc c c' /\ Rp p p'.
Proof.
  unfold parameterList. intros H. inv_steps H;
    repeat match goal with
    | E : parameterList_loop _ _ _ _ = Ok _ |- _ =>
        apply parameterList_loop_kept in E as [? ?]
    end; keep_facts; simplify_eq; (split; [chain_c | chain_p]).
Qed.

Lemma callSignatureFn_kept n s c p name c' p' name' :
  callSignatureFn n s c p name = Ok (c', p', name') -> Rc c c' /\ Rp p p'.
Proof.
  destruct s; simpl.
  - apply parameterList_kept.
  - unfold infixSignature. intros H. kept_by H.
  - unfold unarySignature. intros H. kept_by H.
  - unfold mixedSignature. intros H. kept_by H.
Qed.

Lemma grammar_kept_all n : grammar_kept Rc Rp n.
Proof.
  induction n as [|n IH].
  - repeat split; intros; discriminate.
  - destruct IH as
      (IH1 & IH2 & IH3 & IH4 & IH5 & IH6 & IH7 & IH8 & IH9 & IH10 & IH11 &
       IH12 & IH13 & IH14 & IH15 & IH16 & IH17 & IH18).
    unfold grammar_kept, kept.
    repeat match goal with
    | |- _ /\ _ => split
    end; intros;
    match goal with
    | H : _ = Ok _ |- _ => grammar_step H
    end;
    repeat inv_any;
    repeat match goal with
    | E : parsePrecedence n _ _ _ _ = Ok _ |- _ => apply IH1 in E as [? ?]
    | E : parsePrecedence_infix n _ _ _ _ = Ok _ |- _ => apply IH2 in E as [? ?]
    | E : callGrammarFn n _ _ _ _ = Ok _ |- _ => apply IH3 in E as [? ?]
    | E : grouping n _ _ _ = Ok _ |- _ => apply IH4 in E as [? ?]
    | E : unaryOp n _ _ _ = Ok _ |- _ => apply IH5 in E as [? ?]
    | E : function n _ _ _ = Ok _ |- _ => apply IH6 in E as [? ?]
    | E : blockBody n _ _ _ _ = Ok _ |- _ => apply IH7 in E as [? ?]
    | E : name n _ _ _ = Ok _ |- _ => apply IH8 in E as [? ?]
    | E : call n _ _ _ = Ok _ |- _ => apply IH9 in E as [? ?]
    | E : call_arguments n _ _ _ _ = Ok _ |- _ => apply IH10 in E as [? ?]
    | E : is_ n _ _ _ = Ok _ |- _ => apply IH11 in E as [? ?]
    | E : infixOp n _ _ _ = Ok _ |- _ => apply IH12 in E as [? ?]
    | E : expression n _ _ _ = Ok _ |- _ => apply IH13 in E as [? ?]
    | E : assignment n _ _ = Ok _ |- _ => apply IH14 in E as [? ?]
    | E : statement n _ _ = Ok _ |- _ => apply IH15 in E as [? ?]
    | E : method n _ _ _ _ = Ok _ |- _ => apply IH16 in E as [? ?]
    | E : definition n _ _ = Ok _ |- _ => apply IH17 in E as [? ?]
    | E : definition_methods n _ _ = Ok _ |- _ => apply IH18 in E as [? ?]
    | E : parameterList _ _ _ _ = Ok _ |- _ => apply parameterList_kept in E as [? ?]
    | E : callSignatureFn _ _ _ _ _ = Ok _ |- _ =>
        apply callSignatureFn_kept in E as [? ?]
    end;
    keep_facts; simplify_eq; cbn [fst snd] in *; (split; [chain_c | chain_p]).
Qed.
End Closure.

(** ** Emitted code is final *)

Lemma extends_refl c : extends c c.
Proof. split; auto. Qed.

Lemma extends_trans c1 c2 c3 : extends c1 c2 -> extends c2 c3 -> extends c1 c3.
Proof.
  intros [] []. split; [lia | | auto].
  intros i Hi. rewrite extends_code1 by lia. auto.
Qed.

Lemma extends_writeCode c0 c i code :
  extends c0 c -> numCodes c0 <= i < numCodes c -> extends c0 (writeCode c i code).
Proof.
  intros [] Hi. split; simpl; [assumption | |].
  - intros j Hj. rewrite cell_store_ne by lia. auto.
  - intros H. rewrite length_store. rewrite extends_length0 by assumption. lia.
Qed.

Lemma extends_emit c code : extends c (snd (emit c code)).
Proof.
  split; simpl; [lia | |].
  - intros j Hj. rewrite cell_store_ne by lia. reflexivity.
  - intros H. rewrite length_store. lia.
Qed.

Lemma extends_addConstant c v : extends c (snd (addConstant c v)).
Proof. split; simpl; auto. Qed.

Lemma extends_completeConstant c i f : extends c (completeConstant c i f).
Proof. split; simpl; auto. Qed.

Lemma extends_set_locals c s : extends c (set_locals s c).
Proof. split; simpl; auto. Qed.

Lemma parsed_refl p : parsed p p.
Proof. split; auto. Qed.

Lemma parsed_trans p1 p2 p3 : parsed p1 p2 -> parsed p2 p3 -> parsed p1 p3.
Proof. intros [] []. split; [congruence | auto]. Qed.

Lemma parsed_nextToken p p' : nextToken p = Ok p' -> parsed p p'.
Proof.
  intros H. apply nextToken_advanced in H. split.
  - apply (advanced_source _ _ H).
  - unfold reported. rewrite (advanced_hasError _ _ H), (advanced_stderr _ _ H). auto.
Qed.

Lemma parsed_error p message : parsed p (error p message).
Proof.
  split; [reflexivity|]. intros _. unfold reported. simpl.
  split; [|reflexivity]. intros _ H. apply app_eq_nil in H as [_ H]. discriminate H.
Qed.

Lemma parsed_set_vm p v : parsed p (set_vm v p).
Proof. split; [reflexivity | auto]. Qed.

Lemma cell_writeCode_eq c i code :
  cell 0%Z (bytecode (fn (writeCode c i code))) i = toByte code.
Proof. apply cell_store_eq. Qed.

Lemma cell_writeCode_ne c i j code :
  i <> j ->
  cell 0%Z (bytecode (fn (writeCode c i code))) j = cell 0%Z (bytecode (fn c)) j.
Proof. apply cell_store_ne. Qed.

Lemma bytecode_set_numCodes n c : bytecode (fn (set_numCodes n c)) = bytecode (fn c).
Proof. reflexivity. Qed.

Lemma toByte_range code : (0 <= toByte code <= 255)%Z.
Proof. unfold toByte. pose proof (Z.mod_pos_bound code 256). lia. Qed.

Lemma toByte_small n : n <= 255 -> toByte (Z.of_nat n) = Z.of_nat n.
Proof. intros H. unfold toByte. apply Z.mod_small. lia. Qed.

(** Reads a cell through the writes and the steps that came after it. *)
Ltac read_cell :=
  repeat first
    [ rewrite bytecode_set_numCodes
    | rewrite cell_writeCode_eq
    | rewrite cell_writeCode_ne by lia
    | match goal with
      | K : forall i, _ -> cell _ _ i = cell _ _ i |- _ => rewrite K by lia
      end ].

Section Frames.
Context {ops : Opcodes}.

Lemma grammar_extends n : grammar_kept extends parsed n.
Proof.
  apply grammar_kept_all.
  - apply extends_refl.
  - apply extends_trans.
  - intros c c' []. assumption.
  - apply extends_emit.
  - apply extends_addConstant.
  - apply extends_completeConstant.
  - apply extends_set_locals.
  - apply extends_writeCode.
  - apply parsed_refl.
  - apply parsed_trans.
  - apply parsed_nextToken.
  - apply parsed_error.
  - apply parsed_set_vm.
Qed.

Lemma statement_extends n c p c' p' :
  statement n c p = Ok (c', p') -> extends c c' /\ parsed p p'.
Proof.
  destruct (grammar_extends n) as
    (_ & _ & _ & _ & _ & _ & _ & _ & _ & _ & _ & _ & _ & _ & H & _).
  apply H.
Qed.

Lemma assignment_extends n c p c' p' :
  assignment n c p = Ok (c', p') -> extends c c' /\ parsed p p'.
Proof.
  destruct (grammar_extends n) as
    (_ & _ & _ & _ & _ & _ & _ & _ & _ & _ & _ & _ & _ & H & _).
  apply H.
Qed.

Lemma blockBody_extends n c p t s c' p' :
  blockBody n c p t s = Ok (c', p') -> extends c c' /\ parsed p p'.
Proof.
  destruct (grammar_extends n) as (_ & _ & _ & _ & _ & _ & H & _).
  apply H.
Qed.

(** ** Jumps *)

(** The jumps of an [if], as the code patches them.  An [if] statement leaves a [JUMP_IF] and a [JUMP] in the
    code, each followed by one operand byte, at [ifJump] and at
    [elseJump].  When [statement] returns, the operand of the [JUMP_IF] is
    the low byte of the distance from the byte after it to the code of the
    else branch, which starts after the operand of the [JUMP], and the
    operand of the [JUMP] the low byte of the distance from the byte after
    it to the end of the statement.  An operand is the distance itself when
    the distance is at most 255. *)
Theorem if_jump_operands fuel c p c' p' :
  peek p = TOKEN_IF ->
  statement fuel c p = Ok (c', p') ->
  exists ifJump elseJump,
    let elseTarget := elseJump + 1 in
    let endTarget := numCodes c' in
    numCodes c < ifJump /\ ifJump + 2 <= elseJump /\ elseJump < numCodes c' /\
    cell 0%Z (bytecode (fn c')) (ifJump - 1) = toByte CODE_JUMP_IF /\
    cell 0%Z (bytecode (fn c')) (elseJump - 1) = toByte CODE_JUMP /\
    cell 0%Z (bytecode (fn c')) ifJump =
      (Z.of_nat (elseTarget - (ifJump + 1)) mod 256)%Z /\
    cell 0%Z (bytecode (fn c')) elseJump =
      (Z.of_nat (endTarget - (elseJump + 1)) mod 256)%Z /\
    (0 <= cell 0%Z (bytecode (fn c')) ifJump <= 255)%Z /\
    (0 <= cell 0%Z (bytecode (fn c')) elseJump <= 255)%Z /\
    (elseTarget - (ifJump + 1) <= 255 ->
     cell 0%Z (bytecode (fn c')) ifJump = Z.of_nat (elseTarget - (ifJump + 1))) /\
    (endTarget - (elseJump + 1) <= 255 ->
     cell 0%Z (bytecode (fn c')) elseJump = Z.of_nat (endTarget - (elseJump + 1))).
Proof.
  intros Hif H. destruct fuel as [|n]; [discriminate H|].
  grammar_step H. unfold match_ in H at 1. rewrite Hif in H.
  destruct (decide (TOKEN_IF <> TOKEN_IF)) as [N|_]; [contradiction|].
  repeat inv_any; simplify_eq.
  all: repeat match goal with
  | E : statement _ _ _ = Ok _ |- _ => apply statement_extends in E as [? _]
  | E : assignment _ _ _ = Ok _ |- _ => apply assignment_extends in E as [? _]
  | E : emit _ _ = (_, _) |- _ => unfold emit in E
  end; simplify_eq.
  all: repeat match goal with
  | H : extends _ _ |- _ =>
      let N := fresh "N" in let K := fresh "K" in
      pose proof (extends_numCodes _ _ H) as N;
      pose proof (extends_code _ _ H) as K;
      clear H
  end; cbn [numCodes writeCode set_numCodes set_fn emit snd fst] in *.
  all: match goal with
  | _ : numCodes _ <= numCodes ?c0, _ : numCodes ?c0 + 1 + 1 <= numCodes ?c3 |- _ =>
      exists (numCodes c0 + 1), (numCodes c3 + 1);
      replace (numCodes c0 + 1 - 1) with (numCodes c0) by lia;
      replace (numCodes c3 + 1 - 1) with (numCodes c3) by lia
  end; cbn zeta.
  all: repeat match goal with |- _ /\ _ => split end; try lia.
  all: try (intros Hsmall; read_cell; rewrite toByte_small by lia; f_equal; lia).
  all: try (read_cell; first [reflexivity | apply toByte_range | unfold toByte; do 2 f_equal; lia]).
Qed.
End Frames.

(** ** Termination *)

Lemma nextToken_measure p p' :
  nextToken p = Ok p' ->
  measure p' <= measure p /\
  (type (current p) <> TOKEN_EOF -> measure p' < measure p).
Proof.
  intros H. apply nextToken_advanced in H.
  pose proof (advanced_source _ _ H) as Hs.
  pose proof (advanced_ge _ _ H) as Hge.
  pose proof (advanced_le _ _ H) as Hle.
  pose proof (advanced_token _ _ H) as Ht.
  unfold measure. rewrite Hs.
  destruct (decide (type (current p') = TOKEN_EOF)) as [E'|N'];
    destruct (decide (type (current p) = TOKEN_EOF)) as [E|N];
    (split; [|intros; try contradiction]);
    try (destruct Ht as [Ht|Ht]; [contradiction|]); lia.
Qed.

Lemma shrinks_refl p : shrinks p p.
Proof. split; auto. Qed.

Lemma shrinks_trans p1 p2 p3 : shrinks p1 p2 -> shrinks p2 p3 -> shrinks p1 p3.
Proof. intros [] []. split; [congruence | lia]. Qed.

Lemma shrinks_nextToken p p' : nextToken p = Ok p' -> shrinks p p'.
Proof.
  intros H. split.
  - apply nextToken_advanced in H. apply (advanced_source _ _ H).
  - apply nextToken_measure in H as [H _]. exact H.
Qed.

Lemma shrinks_error p message : shrinks p (error p message).
Proof. split; reflexivity. Qed.

Lemma shrinks_set_vm p v : shrinks p (set_vm v p).
Proof. split; reflexivity. Qed.

Lemma measure_error p message : measure (error p message) = measure p.
Proof. reflexivity. Qed.

Lemma measure_set_vm p v : measure (set_vm v p) = measure p.
Proof. reflexivity. Qed.

Lemma match_fuel p t : match_ p t <> OutOfFuel.
Proof.
  unfold match_. destruct (decide _); [discriminate|].
  apply bind_not_OutOfFuel; [apply nextToken_fuel | discriminate].
Qed.

Lemma consume_fuel p t message : consume p t message <> OutOfFuel.
Proof.
  unfold consume. apply bind_not_OutOfFuel; [apply nextToken_fuel|].
  intros. destruct (decide _); discriminate.
Qed.

Lemma declareVariable_fuel c p : declareVariable c p <> OutOfFuel.
Proof.
  unfold declareVariable. apply bind_not_OutOfFuel; [apply consume_fuel|].
  intros. destruct (parent c); discriminate.
Qed.

Lemma appendSpace_fuel name : appendSpace name <> OutOfFuel.
Proof. unfold appendSpace. destruct name; [destruct (decide _)|]; discriminate. Qed.

(** A token that [match_] has consumed was not the end of the file when it
    was asked for another type. *)
Lemma match_measure p t b p' :
  match_ p t = Ok (b, p') ->
  measure p' <= measure p /\
  (b = true -> t <> TOKEN_EOF -> measure p' < measure p).
Proof.
  unfold match_, peek. destruct (decide (type (current p) <> t)) as [N|Y].
  - intros H. injection H as <- <-. split; [lia | discriminate].
  - intros H. apply bind_Ok in H as (p1 & H1 & H). injection H as <- <-.
    apply nextToken_measure in H1 as [H1 H2]. split; [exact H1|].
    intros _ Ht. apply H2.
    destruct (decide (type (current p) = t)) as [->|]; [exact Ht | contradiction].
Qed.

Lemma consume_measure p t message p' :
  consume p t message = Ok p' -> measure p' <= measure p.
Proof.
  unfold consume. intros H. apply bind_Ok in H as (p1 & H1 & H).
  apply nextToken_measure in H1 as [H1 _].
  destruct (decide _); injection H as <-; exact H1.
Qed.

Lemma nextToken_measure_lt p p' :
  nextToken p = Ok p' ->
  GrammarRule.prefix (rules (type (previous p'))) <> None \/
  GrammarRule.infix (rules (type (previous p'))) <> None \/
  GrammarRule.method (rules (type (current p))) <> None ->
  measure p' < measure p.
Proof.
  intros H Hr. pose proof (nextToken_advanced _ _ H) as A.
  apply nextToken_measure in H as [_ H]. apply H.
  rewrite (advanced_previous _ _ A) in Hr. intros E. rewrite E in Hr.
  simpl in Hr. tauto.
Qed.

Section Termination.
Context {ops : Opcodes}.

Lemma string_fuel c p : string_ c p <> OutOfFuel.
Proof. unfold string_. destruct (decide _); discriminate. Qed.

Lemma grammar_shrinks n : grammar_kept extends shrinks n.
Proof.
  apply grammar_kept_all.
  - apply extends_refl.
  - apply extends_trans.
  - intros c c' []. assumption.
  - apply extends_emit.
  - apply extends_addConstant.
  - apply extends_completeConstant.
  - apply extends_set_locals.
  - apply extends_writeCode.
  - apply shrinks_refl.
  - apply shrinks_trans.
  - apply shrinks_nextToken.
  - apply shrinks_error.
  - apply shrinks_set_vm.
Qed.

Lemma declareVariable_measure c p s c' p' :
  declareVariable c p = Ok (s, c', p') -> measure p' <= measure p.
Proof.
  intros H.
  apply (declareVariable_kept extends shrinks extends_refl extends_set_locals
           shrinks_refl shrinks_trans shrinks_nextToken shrinks_error
           shrinks_set_vm) in H as [_ []].
  assumption.
Qed.

Lemma parameterList_loop_fuel n c p name :
  8 * measure p + 1 <= n -> parameterList_loop n c p name <> OutOfFuel.
Proof.
  revert c p name. induction n as [|n IH]; intros c p name Hn; [lia|].
  simpl. apply bind_not_OutOfFuel; [apply declareVariable_fuel|].
  intros [[s c1] p1] H1. apply declareVariable_measure in H1.
  apply bind_not_OutOfFuel.
  { destruct name; [apply appendSpace_fuel | discriminate]. }
  intros name1 _. apply bind_not_OutOfFuel; [apply match_fuel|].
  intros [b p2] H2. apply match_measure in H2 as [H2 H3].
  destruct b; [|discriminate]. apply IH.
  specialize (H3 eq_refl ltac:(discriminate)). lia.
Qed.

Lemma parameterList_fuel n c p name :
  8 * measure p + 1 <= n -> parameterList n c p name <> OutOfFuel.
Proof.
  intros Hn. unfold parameterList.
  apply bind_not_OutOfFuel; [apply match_fuel|].
  intros [b p1] H1. apply match_measure in H1 as [H1 _].
  destruct b; [|discriminate].
  apply bind_not_OutOfFuel; [apply parameterList_loop_fuel; lia|].
  intros [[c2 p2] name2] _.
  apply bind_not_OutOfFuel; [apply consume_fuel | discriminate].
Qed.

Lemma callSignatureFn_fuel n s c p name :
  8 * measure p + 1 <= n -> callSignatureFn n s c p name <> OutOfFuel.
Proof.
  intros Hn. destruct s; simpl.
  - apply parameterList_fuel. exact Hn.
  - unfold infixSignature. apply bind_not_OutOfFuel; [apply appendSpace_fuel|].
    intros. apply bind_not_OutOfFuel; [apply declareVariable_fuel|].
    intros [[? ?] ?] _. discriminate.
  - discriminate.
  - unfold mixedSignature. destruct (decide _); [|discriminate].
    apply bind_not_OutOfFuel; [apply appendSpace_fuel|].
    intros. apply bind_not_OutOfFuel; [apply declareVariable_fuel|].
    intros [[? ?] ?] _. discriminate.
Qed.

Lemma callSignatureFn_measure n s c p name c' p' name' :
  callSignatureFn n s c p name = Ok (c', p', name') -> measure p' <= measure p.
Proof.
  intros H.
  apply (callSignatureFn_kept extends shrinks extends_refl extends_trans
           extends_set_locals shrinks_refl shrinks_trans shrinks_nextToken
           shrinks_error shrinks_set_vm) in H as [_ []].
  assumption.
Qed.

Lemma parameterList_measure n c p name c' p' name' :
  parameterList n c p name = Ok (c', p', name') -> measure p' <= measure p.
Proof. apply (callSignatureFn_measure n sig_parameterList). Qed.

Lemma ensureMethod_measure p name s p' :
  ensureMethod p name = (s, p') -> measure p' = measure p.
Proof. unfold ensureMethod. intros H. injection H as <- <-. reflexivity. Qed.

(** What is left to parse after a step that has returned. *)
Ltac measure_facts :=
  repeat inv_any; simplify_eq;
  repeat match goal with
  | H : negb ?b = false |- _ => apply negb_false_iff in H; subst b
  | H : negb ?b = true |- _ => apply negb_true_iff in H; subst b
  | E : match_ _ _ = Ok (_, _) |- _ => apply match_measure in E as [? ?]
  | E : consume _ _ _ = Ok _ |- _ => apply consume_measure in E
  | E : declareVariable _ _ = Ok (_, _, _) |- _ => apply declareVariable_measure in E
  | E : parameterList _ _ _ _ = Ok (_, _, _) |- _ => apply parameterList_measure in E
  | E : callSignatureFn _ _ _ _ _ = Ok (_, _, _) |- _ =>
      apply callSignatureFn_measure in E
  | E : ensureMethod _ _ = (_, _) |- _ => apply ensureMethod_measure in E
  | E : nextToken ?p = Ok ?q,
    R : GrammarRule.prefix (rules (type (previous ?q))) = Some _ |- _ =>
      apply nextToken_measure_lt in E; [|left; rewrite R; discriminate]
  | E : nextToken ?p = Ok ?q,
    R : GrammarRule.infix (rules (type (previous ?q))) = Some _ |- _ =>
      apply nextToken_measure_lt in E; [|right; left; rewrite R; discriminate]
  | E : nextToken ?p = Ok ?q,
    R : GrammarRule.method (rules (type (current ?p))) = Some _ |- _ =>
      apply nextToken_measure_lt in E; [|right; right; rewrite R; discriminate]
  | E : nextToken _ = Ok _ |- _ => apply nextToken_measure in E as [E _]
  | E : _ = Ok (_, _), K : forall _, _ |- _ =>
      apply K in E; destruct E as [_ [_ E]]; cbn [snd] in E
  | E : _ = Ok (_, _, _, _), K : forall _, _ |- _ =>
      apply K in E; destruct E as [_ [_ E]]
  | H : ?x = ?x -> _ |- _ => specialize (H eq_refl)
  | H : ?t <> TOKEN_EOF -> _ |- _ => specialize (H ltac:(discriminate))
  end.

Ltac measure_arith :=
  repeat match goal with
  | |- context [measure (if ?b then _ else _)] => destruct b
  | H : context [measure (if ?b then _ else _)] |- _ => destruct b
  end;
  rewrite ?measure_error, ?measure_set_vm in *; lia.

Ltac split_result a :=
  lazymatch type of a with
  | (_ * _ * _ * _)%type => destruct a as [[[? ?] ?] ?]
  | (_ * _ * _)%type => destruct a as [[? ?] ?]
  | (_ * _)%type => destruct a as [? ?]
  | _ => idtac
  end.

Ltac fuel_step :=
  match goal with
  | |- Ok _ <> OutOfFuel => discriminate
  | |- Undefined _ <> OutOfFuel => discriminate
  | |- bind _ _ <> OutOfFuel =>
      apply bind_not_OutOfFuel;
      [| let a := fresh "a" in let E := fresh "E" in
         intros a E; split_result a; cbn beta iota ]
  | |- nextToken _ <> OutOfFuel => apply nextToken_fuel
  | |- match_ _ _ <> OutOfFuel => apply match_fuel
  | |- consume _ _ _ <> OutOfFuel => apply consume_fuel
  | |- declareVariable _ _ <> OutOfFuel => apply declareVariable_fuel
  | |- appendSpace _ <> OutOfFuel => apply appendSpace_fuel
  | |- string_ _ _ <> OutOfFuel => apply string_fuel
  | |- parameterList _ _ _ _ <> OutOfFuel =>
      apply parameterList_fuel; measure_facts; measure_arith
  | |- callSignatureFn _ _ _ _ _ <> OutOfFuel =>
      apply callSignatureFn_fuel; measure_facts; measure_arith
  | T : forall _, _ |- _ <> OutOfFuel =>
      apply T; measure_facts; measure_arith
  | |- (if ?b then _ else _) <> OutOfFuel => destruct b eqn:?
  | |- match ?x with _ => _ end <> OutOfFuel => destruct x eqn:?
  end.

Lemma grammar_terminates_all n : grammar_terminates n.
Proof.
  induction n as [|n IH]; [repeat split; intros; lia|].
  destruct IH as
    (T1 & T2 & T3 & T4 & T5 & T6 & T7 & T8 & T9 & T10 & T11 &
     T12 & T13 & T14 & T15 & T16 & T17 & T18).
  destruct (grammar_shrinks n) as
    (K1 & K2 & K3 & K4 & K5 & K6 & K7 & K8 & K9 & K10 & K11 &
     K12 & K13 & K14 & K15 & K16 & K17 & K18).
  unfold kept in *. unfold grammar_terminates.
  repeat match goal with |- _ /\ _ => split end; intros;
    cbn [parsePrecedence parsePrecedence_infix callGrammarFn grouping unaryOp
         function blockBody name call call_arguments is_ infixOp expression
         assignment statement method definition definition_methods].
  all: repeat fuel_step.
Qed.
End Termination.

Section Entry.
Context {ops : Opcodes}.

(** ** The result of [compile] *)

Lemma compile_frame_fuel machine source :
  compile_frame (enoughFuel source) machine source <> OutOfFuel.
Proof.
  unfold compile_frame. apply bind_not_OutOfFuel; [apply nextToken_fuel|].
  intros p1 H1. apply nextToken_measure in H1 as [H1 _].
  apply bind_not_OutOfFuel.
  - destruct (grammar_terminates_all (enoughFuel source)) as
      (_ & _ & _ & _ & _ & _ & T & _).
    apply T. unfold enoughFuel. unfold measure in H1 at 2. simpl in H1. lia.
  - intros [c p] _. discriminate.
Qed.

(** The frame and the parser at the end of [compile]: the last byte of the
    code is [END], and the error flag is set exactly when something was
    printed. *)
Lemma compile_frame_end n machine source c p :
  compile_frame n machine source = Ok (c, p) ->
  reported p /\
  1 <= numCodes c /\
  length (bytecode (fn c)) = numCodes c /\
  last (bytecode (fn c)) = Some (toByte CODE_END).
Proof.
  unfold compile_frame. intros H.
  apply bind_Ok in H as (p1 & H1 & H).
  apply bind_Ok in H as ([c2 p2] & H2 & H).
  apply parsed_nextToken in H1. apply blockBody_extends in H2 as [Hc Hp].
  injection H as <- <-.
  split.
  - apply (parsed_reported _ _ Hp), (parsed_reported _ _ H1).
    unfold reported. simpl. split; [discriminate | congruence].
  - pose proof (extends_length _ _ Hc eq_refl) as Hlen. simpl.
    split; [lia|]. rewrite <- Hlen, store_end, length_app, last_snoc.
    simpl. split; [lia | reflexivity].
Qed.

(** C1.  [compile] returns for every source, unless it reads outside of
    the buffer or of a name (the cases C leaves undefined): the fuel
    [enoughFuel] is never used up.  Whenever it returns, the result is NULL
    exactly when a diagnostic was printed, which is when the error flag of
    the parser is set; and a function it returns has [END] as the last byte
    of its code. *)
Theorem compile_result machine source :
  compile (enoughFuel source) machine source <> OutOfFuel /\
  forall n result machine',
    compile n machine source = Ok (result, machine') ->
    exists c p,
      compile_frame n machine source = Ok (c, p) /\
      machine' = vm p /\
      (result = None <-> stderr p <> []) /\
      (result = None <-> hasError p = true) /\
      (forall f, result = Some f ->
         f = fn c /\ last (bytecode f) = Some (toByte CODE_END)).
Proof.
  split.
  - unfold compile. apply bind_not_OutOfFuel; [apply compile_frame_fuel|].
    intros [c p] _. discriminate.
  - intros n result machine' H. unfold compile in H.
    apply bind_Ok in H as ([c p] & Hframe & H). exists c, p.
    split; [exact Hframe|].
    apply compile_frame_end in Hframe as (Hrep & _ & _ & Hlast).
    injection H as <- <-. split; [reflexivity|].
    unfold reported in Hrep.
    destruct (hasError p) eqn:He.
    + split; [|split]; [| |discriminate].
      * split; [intros _; apply Hrep; reflexivity | reflexivity].
      * split; reflexivity.
    + split; [|split].
      * split; [discriminate|]. intros Hs. apply Hrep in Hs. discriminate Hs.
      * split; discriminate.
      * intros f Hf. injection Hf as <-. split; [reflexivity | exact Hlast].
Qed.
End Entry.

(** ** The span of a token *)

Lemma moved_refl p : moved p p.
Proof. unfold moved. destruct p; reflexivity. Qed.

Lemma moved_trans p q r : moved p q -> moved q r -> moved p r.
Proof. unfold moved. intros -> ->. reflexivity. Qed.

Lemma nextChar_moved p c p' : nextChar p = Ok (c, p') -> moved p p'.
Proof. intros H. apply nextChar_Ok in H as [_ ->]. reflexivity. Qed.

Lemma advanceWhile_loop_moved test fuel p p' :
  advanceWhile_loop test fuel p = Ok p' -> moved p p'.
Proof.
  revert p. induction fuel as [|fuel IH]; intros p H; simpl in H; [discriminate|].
  inv_Ok H.
  - apply nextChar_moved in E0. apply IH in H. eauto using moved_trans.
  - subst. apply moved_refl.
Qed.

Lemma skipBlockComment_loop_moved fuel nesting p p' :
  skipBlockComment_loop fuel nesting p = Ok p' -> moved p p'.
Proof.
  revert nesting p. induction fuel as [|fuel IH]; intros nesting p H; simpl in H;
    [discriminate|].
  inv_Ok H; subst; try apply moved_refl;
    repeat match goal with
    | E : nextChar _ = Ok _ |- _ => apply nextChar_moved in E
    | E : skipBlockComment_loop _ _ _ = Ok _ |- _ => apply IH in E
    end; eauto using moved_trans.
Qed.

Lemma readString_loop_moved fuel p p' :
  readString_loop fuel p = Ok p' -> moved p p'.
Proof.
  revert p. induction fuel as [|fuel IH]; intros p H; simpl in H; [discriminate|].
  inv_Ok H.
  - apply nextChar_moved in E. apply IH in H. eauto using moved_trans.
  - subst. eapply nextChar_moved; eassumption.
Qed.

Lemma makeToken_tokenized p0 q t :
  currentChar p0 <= tokenStart q -> tokenStart q < currentChar q ->
  t <> TOKEN_EOF -> tokenized p0 (makeToken q t).
Proof. intros Hge Hlt Ht. split; simpl; try reflexivity; try lia; intros; contradiction. Qed.

Lemma tokenized_from p q p' :
  currentChar p <= currentChar q -> tokenized q p' -> tokenized p p'.
Proof. intros Hle []. split; try assumption. lia. Qed.

Lemma readNumber_token p p' :
  readNumber p = Ok p' -> exists q, moved p q /\ p' = makeToken q TOKEN_NUMBER.
Proof.
  unfold readNumber. intros H. inv_Ok H. subst p'.
  eexists. split; [|reflexivity].
  match goal with
  | E : (if ?b then _ else _) = Ok _ |- _ => destruct b; inv_Ok E
  end;
    repeat match goal with
    | E : advanceWhile _ _ = Ok _ |- _ => apply advanceWhile_loop_moved in E
    | E : nextChar _ = Ok _ |- _ => apply nextChar_moved in E
    end; subst; eauto using moved_trans.
Qed.

Lemma readName_token p p' :
  readName p = Ok p' ->
  exists q t, moved p q /\ t <> TOKEN_EOF /\ p' = makeToken q t.
Proof.
  unfold readName. intros H. apply bind_Ok in H as (q & E & H).
  apply advanceWhile_loop_moved in E. injection H as <-.
  eexists q, _. split; [exact E|]. split; [|reflexivity].
  repeat match goal with
  | |- context [if ?b then _ else _] => destruct b
  end; discriminate.
Qed.

Lemma readString_token p p' :
  readString p = Ok p' -> exists q, moved p q /\ p' = makeToken q TOKEN_STRING.
Proof.
  unfold readString. intros H. inv_Ok H. subst p'.
  apply readString_loop_moved in E. eauto.
Qed.

Lemma oneOrTwo_token p second two one p' :
  oneOrTwo p second two one = Ok p' ->
  exists q, moved p q /\ (p' = makeToken q two \/ p' = makeToken q one).
Proof.
  unfold oneOrTwo. intros H. inv_Ok H; subst p'.
  - apply nextChar_moved in E0. eauto.
  - eauto using moved_refl.
Qed.

Lemma lexed_of_makeToken p q t : lexed p (makeToken q t) -> lexed p q.
Proof. intros []. split; assumption. Qed.

Lemma moved_tokenStart p q : moved p q -> tokenStart q = tokenStart p.
Proof. intros ->. reflexivity. Qed.

Lemma moved_currentLine p q : moved p q -> currentLine q = currentLine p.
Proof. intros ->. reflexivity. Qed.

Lemma readRawToken_loop_tokenized fuel p p' :
  readRawToken_loop fuel p = Ok p' -> tokenized p p'.
Proof.
  revert p. induction fuel as [|fuel IH]; intros p H; simpl in H; [discriminate|].
  apply bind_Ok in H as (c0 & Hc0 & H).
  destruct (c0 == NUL) eqn:N.
  { injection H as <-. apply Ascii.eqb_eq in N. subst c0.
    split; simpl; try reflexivity; try lia.
    - intros _. split; [exact Hc0 | reflexivity].
    - intros Hne. contradiction. }
  apply bind_Ok in H as ([c p1] & H1 & H).
  apply nextChar_Ok in H1 as [_ ->].
  set (p1 := set_currentChar (currentChar p + 1) (set_tokenStart (currentChar p) p)) in *.
  assert (Hleaf : forall q t, moved p1 q -> lexed p1 q -> t <> TOKEN_EOF ->
                    tokenized p (makeToken q t)).
  { intros q t M L Ht. apply makeToken_tokenized; [| |exact Ht].
    - rewrite (moved_tokenStart _ _ M). simpl. lia.
    - rewrite (moved_tokenStart _ _ M). destruct L. simpl in *. lia. }
  assert (Hrec : forall q, lexed p1 q -> readRawToken_loop fuel q = Ok p' ->
                   tokenized p p').
  { intros q L Hq. apply (tokenized_from p q); [|apply IH; exact Hq].
    destruct L. simpl in *. lia. }
  inv_Ok H;
    repeat match goal with
    | H : makeToken _ _ = _ |- _ => subst p'
    end;
    try (apply Hleaf; [apply moved_refl | apply lexed_refl | discriminate]).
  all: try match goal with
  | H : skipLineComment _ = Ok _, H' : readRawToken_loop _ _ = Ok _ |- _ =>
      apply skipLineComment_lexed in H; exact (Hrec _ H H')
  | H : skipWhitespace _ = Ok _, H' : readRawToken_loop _ _ = Ok _ |- _ =>
      apply skipWhitespace_lexed in H; exact (Hrec _ H H')
  | H : skipBlockComment _ = Ok _, H' : readRawToken_loop _ _ = Ok _ |- _ =>
      apply skipBlockComment_lexed in H;
      [ exact (Hrec _ H H')
      | match goal with
        | P : peekChar _ = Ok ?c, Q : (?c == "*") = true |- _ =>
            apply Ascii.eqb_eq in Q; rewrite P, Q; reflexivity
        end ]
  | H : readNumber _ = Ok _ |- _ =>
      pose proof (readNumber_lexed _ _ H) as [L _];
      apply readNumber_token in H as (q & M & ->);
      apply Hleaf; [exact M | | discriminate]
  | H : readName _ = Ok _ |- _ =>
      pose proof (readName_lexed _ _ H) as L;
      apply readName_token in H as (q & t & M & Ht & ->);
      apply Hleaf; [exact M | | exact Ht]
  | H : readString _ = Ok _ |- _ =>
      pose proof (readString_lexed _ _ H) as [L _];
      apply readString_token in H as (q & M & ->);
      apply Hleaf; [exact M | | discriminate]
  | H : oneOrTwo _ _ _ _ = Ok _ |- _ =>
      pose proof H as L; apply oneOrTwo_lexed in L; [|discriminate];
      apply oneOrTwo_token in H as (q & M & [-> | ->]);
      (apply Hleaf; [exact M | | discriminate])
  end.
  all: try (apply lexed_of_makeToken in L; exact L).
  split; simpl; try reflexivity; try lia; intros; try contradiction; try discriminate.
Qed.

Lemma nextToken_loop_tokenized fuel p p' :
  nextToken_loop fuel p = Ok p' -> tokenized p p'.
Proof.
  revert p. induction fuel as [|fuel IH]; intros p H; simpl in H; [discriminate|].
  apply bind_Ok in H as (q & Hq & H).
  pose proof (readRawToken_lexed _ _ Hq) as [L _].
  apply readRawToken_loop_tokenized in Hq.
  assert (Hemit : forall b, tokenized p (set_skipNewlines b q)).
  { intros b. destruct Hq. split; assumption. }
  destruct (type (current q)); try (simpl in H; inv_Ok H; subst p'; apply Hemit).
  destruct (negb (skipNewlines q)).
  - injection H as <-. apply Hemit.
  - apply (tokenized_from p q); [destruct L; lia | apply IH; exact H].
Qed.

Lemma nextToken_tokenized p p' : nextToken p = Ok p' -> tokenized p p'.
Proof.
  unfold nextToken. intros H. apply nextToken_loop_tokenized in H as [].
  split; assumption.
Qed.

Lemma nextToken_at_NUL p : peekChar p = Ok NUL -> nextToken p = Ok (atEnd p).
Proof.
  intros Hend. unfold nextToken, charsLeft. simpl.
  unfold readRawToken, charsLeft. simpl.
  unfold peekChar, charAt in *. simpl.
  destruct (source p !! currentChar p) as [c|].
  - injection Hend as ->. reflexivity.
  - destruct (decide (currentChar p = length (source p))); [reflexivity|].
    discriminate Hend.
Qed.

(** X1.  [nextToken] returns unless it reads outside of the buffer, and then
    the lookahead has become the previous token and the new lookahead is the
    text between [start] and [end], read after the old cursor and ending at
    the new one, inside the buffer when the old cursor was.  The token is
    empty only when it is the end of the file, which is made only at a zero
    character.  The lexer reports nothing: the source, the VM, the error
    flag and the diagnostics are as before. *)
Theorem nextToken_token_span p :
  nextToken p <> OutOfFuel /\
  forall p', nextToken p = Ok p' ->
    previous p' = current p /\
    currentChar p <= start (current p') /\
    start (current p') <= end_ (current p') /\
    end_ (current p') = currentChar p' /\
    (currentChar p <= length (source p) -> currentChar p' <= length (source p)) /\
    (type (current p') <> TOKEN_EOF -> start (current p') < end_ (current p')) /\
    (type (current p') = TOKEN_EOF ->
       start (current p') = end_ (current p') /\ peekChar p' = Ok NUL) /\
    source p' = source p /\ vm p' = vm p /\
    hasError p' = hasError p /\ stderr p' = stderr p.
Proof.
  split; [apply nextToken_fuel|]. intros p' H.
  pose proof (nextToken_advanced _ _ H) as A.
  apply nextToken_tokenized in H as T.
  destruct A, T.
  repeat match goal with |- _ /\ _ => split end; try assumption.
  - destruct (decide (type (current p') = TOKEN_EOF)) as [E|E].
    + apply tokenized_eof0 in E as [_ E]. lia.
    + apply tokenized_token0 in E. lia.
  - lia.
  - intros E. apply tokenized_eof0 in E as [? ?]. split; assumption.
Qed.

(** X2.  The end of the file is sticky: once [nextToken] has made the EOF
    token, every further call returns, makes the EOF token again and leaves
    the cursor where it is. *)
Theorem eof_is_sticky p p1 :
  nextToken p = Ok p1 ->
  type (current p1) = TOKEN_EOF ->
  exists p2,
    nextToken p1 = Ok p2 /\
    type (previous p2) = TOKEN_EOF /\
    type (current p2) = TOKEN_EOF /\
    currentChar p2 = currentChar p1 /\
    start (current p2) = currentChar p1 /\
    end_ (current p2) = currentChar p1.
Proof.
  intros H E. apply nextToken_tokenized in H as [].
  apply tokenized_eof0 in E as E'. destruct E' as [Hnul _].
  exists (atEnd p1). split; [apply nextToken_at_NUL; exact Hnul|].
  simpl. auto.
Qed.

(** ** Reads inside the buffer *)

Lemma bind_not_Undefined {A B} (m : outcome A) (k : A -> outcome B) f :
  m <> Undefined f -> (forall a, m = Ok a -> k a <> Undefined f) ->
  bind m k <> Undefined f.
Proof.
  destruct m; simpl; intros Hm Hk; [apply Hk; reflexivity | | discriminate].
  intros E. apply Hm. congruence.
Qed.

Lemma charAt_safe p i f : i <= length (source p) -> charAt p i <> Undefined f.
Proof. intros H. destruct (charAt_defined p i H) as [c ->]. discriminate. Qed.

Lemma nextChar_safe p f :
  currentChar p <= length (source p) -> nextChar p <> Undefined f.
Proof.
  intros H. unfold nextChar, peekChar.
  apply bind_not_Undefined; [apply charAt_safe; exact H | discriminate].
Qed.

Lemma peekNextChar_safe p f :
  currentChar p <= length (source p) -> peekNextChar p <> Undefined f.
Proof.
  intros H. unfold peekNextChar, peekChar.
  apply bind_not_Undefined; [apply charAt_safe; exact H|]. intros c Hc.
  destruct (c == NUL) eqn:N; [discriminate|].
  apply charAt_safe. apply charAt_lt in Hc; [lia|]. intros ->. discriminate N.
Qed.

Lemma peekBoth_safe p a test f :
  currentChar p <= length (source p) -> peekBoth p a test <> Undefined f.
Proof.
  intros H. destruct (peekBoth_defined p a test H) as [b ->]. discriminate.
Qed.

Lemma advanceWhile_safe test p f :
  (forall c, test c = true -> c <> NUL) ->
  currentChar p <= length (source p) -> advanceWhile test p <> Undefined f.
Proof.
  intros Ht H. destruct (advanceWhile_defined test p Ht H) as (n & _ & _ & ->).
  discriminate.
Qed.

Lemma skipBlockComment_loop_safe fuel nesting p f :
  currentChar p <= length (source p) ->
  skipBlockComment_loop fuel nesting p <> Undefined f.
Proof.
  revert nesting p. induction fuel as [|fuel IH]; intros nesting p Hle; simpl;
    [discriminate|].
  destruct (decide (0 < nesting)); [|discriminate].
  apply bind_not_Undefined; [apply charAt_safe; exact Hle|]. intros c Hc.
  destruct (c == NUL) eqn:N; [discriminate|].
  assert (Hlt : currentChar p < length (source p)).
  { apply charAt_lt in Hc; [exact Hc|]. intros ->. discriminate N. }
  assert (Htwo : forall a t b, peekBoth p a t = Ok true -> a <> NUL ->
            (forall c', t c' = true -> c' <> NUL) ->
            (let* (_, p1) := nextChar p in
             let* (_, p2) := nextChar p1 in
             skipBlockComment_loop fuel b p2) <> Undefined f).
  { intros a t b Hb Ha Ht.
    destruct (peekBoth_next _ _ _ Hb Ha) as (c' & Hc' & Tc').
    apply Ht in Tc'. apply charAt_lt in Hc'; [|exact Tc'].
    apply bind_not_Undefined; [apply nextChar_safe; lia|]. intros [c1 p1] H1.
    apply nextChar_Ok in H1 as [_ ->].
    apply bind_not_Undefined; [apply nextChar_safe; simpl; lia|]. intros [c2 p2] H2.
    apply nextChar_Ok in H2 as [_ ->]. apply IH. simpl. lia. }
  apply bind_not_Undefined; [apply peekBoth_safe; exact Hle|]. intros opening Ho.
  destruct opening.
  { apply (Htwo _ _ _ Ho); [discriminate|]. intros c' Q ->. discriminate Q. }
  apply bind_not_Undefined; [apply peekBoth_safe; exact Hle|]. intros closing Hcl.
  destruct closing.
  { apply (Htwo _ _ _ Hcl); [discriminate|]. intros c' Q ->. discriminate Q. }
  apply bind_not_Undefined; [apply nextChar_safe; lia|]. intros [c1 p1] H1.
  apply nextChar_Ok in H1 as [_ ->]. apply IH. simpl. lia.
Qed.

Lemma skipBlockComment_safe p f :
  peekChar p = Ok "*" -> skipBlockComment p <> Undefined f.
Proof.
  intros Hp. unfold skipBlockComment.
  pose proof (charAt_lt _ _ _ Hp ltac:(discriminate)) as Hlt.
  apply bind_not_Undefined; [apply nextChar_safe; lia|]. intros [c1 p1] H1.
  apply nextChar_Ok in H1 as [_ ->]. apply skipBlockComment_loop_safe. simpl. lia.
Qed.

Lemma readNumber_safe p f :
  currentChar p <= length (source p) -> readNumber p <> Undefined f.
Proof.
  intros H. destruct (readNumber_defined p H) as (n & _ & _ & ->). discriminate.
Qed.

Lemma readName_safe p f :
  currentChar p <= length (source p) -> readName p <> Undefined f.
Proof.
  intros H. unfold readName.
  apply bind_not_Undefined; [|discriminate].
  apply advanceWhile_safe; [|exact H].
  intros c Hc. apply orb_true_iff in Hc as [Hc|Hc];
    auto using isName_NUL, isDigit_NUL.
Qed.

Lemma oneOrTwo_safe p second two one f :
  currentChar p <= length (source p) -> second <> NUL ->
  oneOrTwo p second two one <> Undefined f.
Proof.
  intros H Hs. unfold oneOrTwo.
  apply bind_not_Undefined; [apply charAt_safe; exact H|]. intros c Hc.
  destruct (c == second); [|discriminate].
  apply bind_not_Undefined; [apply nextChar_safe; exact H|]. intros [] _.
  discriminate.
Qed.

Lemma readRawToken_loop_safe fuel p f :
  currentChar p <= length (source p) ->
  (forall i c, currentChar p <= i -> source p !! i = Some c -> c <> quote) ->
  readRawToken_loop fuel p <> Undefined f.
Proof.
  revert p. induction fuel as [|fuel IH]; intros p Hle Hq; simpl; [discriminate|].
  apply bind_not_Undefined; [apply charAt_safe; exact Hle|]. intros c0 Hc0.
  destruct (c0 == NUL) eqn:N; [discriminate|].
  assert (Hlt : currentChar p < length (source p)).
  { apply charAt_lt in Hc0; [exact Hc0|]. intros ->. discriminate N. }
  apply bind_not_Undefined; [apply nextChar_safe; simpl; lia|]. intros [c p1] H1.
  apply nextChar_Ok in H1 as [Hc ->].
  assert (Hsrc : source p !! currentChar p = Some c).
  { unfold peekChar, charAt in Hc, Hc0. simpl in Hc.
    destruct (source p !! currentChar p) as [x|] eqn:E.
    - congruence.
    - destruct (decide _); [|discriminate Hc0].
      injection Hc0 as <-. discriminate N. }
  assert (Hrec : forall q, lexed (set_currentChar (currentChar p + 1)
                                    (set_tokenStart (currentChar p) p)) q ->
                 readRawToken_loop fuel q <> Undefined f).
  { intros q L. pose proof (lexed_ge _ _ L) as Hge.
    pose proof (lexed_le _ _ L) as Hmax. simpl in Hge, Hmax. apply IH.
    - rewrite (lexed_source _ _ L). simpl. lia.
    - intros i x Hi. rewrite (lexed_source _ _ L). simpl. apply Hq. lia. }
  repeat match goal with
  | |- (if ?b then _ else _) <> Undefined _ => destruct b eqn:?
  | |- Ok _ <> Undefined _ => discriminate
  | |- bind _ _ <> Undefined _ => apply bind_not_Undefined; [|intros ? ?]
  | |- peekChar _ <> Undefined _ => apply charAt_safe; simpl; lia
  | |- readNumber _ <> Undefined _ => apply readNumber_safe; simpl; lia
  | |- readName _ <> Undefined _ => apply readName_safe; simpl; lia
  | |- oneOrTwo _ _ _ _ <> Undefined _ =>
      apply oneOrTwo_safe; [simpl; lia | discriminate]
  | |- skipLineComment _ <> Undefined _ =>
      apply advanceWhile_safe; [intros ? Q ->; discriminate Q | simpl; lia]
  | |- skipWhitespace _ <> Undefined _ =>
      apply advanceWhile_safe; [intros ? Q ->; discriminate Q | simpl; lia]
  | P : peekChar _ = Ok ?c, Q : (?c == "*") = true
    |- skipBlockComment _ <> Undefined _ =>
      apply skipBlockComment_safe; apply Ascii.eqb_eq in Q; rewrite P, Q; reflexivity
  | H : skipLineComment _ = Ok _ |- readRawToken_loop _ _ <> _ =>
      apply Hrec, skipLineComment_lexed, H
  | H : skipWhitespace _ = Ok _ |- readRawToken_loop _ _ <> _ =>
      apply Hrec, skipWhitespace_lexed, H
  | H : skipBlockComment _ = Ok _ |- readRawToken_loop _ _ <> _ =>
      apply Hrec; apply skipBlockComment_lexed in H; [exact H|]
  | P : peekChar _ = Ok ?c, Q : (?c == "*") = true |- peekChar _ = Ok "*" =>
      apply Ascii.eqb_eq in Q; rewrite P, Q; reflexivity
  | Q : (c == quote) = true |- _ =>
      apply Ascii.eqb_eq in Q; exfalso; exact (Hq _ _ (Nat.le_refl _) Hsrc Q)
  end.
Qed.

Lemma nextToken_loop_safe fuel p f :
  currentChar p <= length (source p) ->
  (forall i c, currentChar p <= i -> source p !! i = Some c -> c <> quote) ->
  nextToken_loop fuel p <> Undefined f.
Proof.
  revert p. induction fuel as [|fuel IH]; intros p Hle Hq; simpl; [discriminate|].
  apply bind_not_Undefined; [apply readRawToken_loop_safe; assumption|].
  intros q Hr. apply readRawToken_lexed in Hr as [L _].
  pose proof (lexed_ge _ _ L) as Hge. pose proof (lexed_le _ _ L) as Hmax.
  destruct (type (current q)); try (simpl; discriminate).
  destruct (negb (skipNewlines q)); [discriminate|].
  apply IH.
  - rewrite (lexed_source _ _ L). lia.
  - intros i x Hi. rewrite (lexed_source _ _ L). apply Hq. lia.
Qed.

(** X3.  Outside of a string literal the lexer stays inside the buffer: from
    a cursor in the buffer after which the source holds no double quote,
    [nextToken] returns, and leaves a state of which the same is true. *)
Theorem nextToken_reads_inside_buffer p :
  currentChar p <= length (source p) ->
  (forall i c, currentChar p <= i -> source p !! i = Some c -> c <> quote) ->
  exists p',
    nextToken p = Ok p' /\
    currentChar p' <= length (source p') /\
    (forall i c, currentChar p' <= i -> source p' !! i = Some c -> c <> quote).
Proof.
  intros Hle Hq.
  destruct (nextToken p) as [p'| f |] eqn:H.
  - exists p'. split; [reflexivity|].
    apply nextToken_advanced in H as A.
    pose proof (advanced_ge _ _ A) as Hge. pose proof (advanced_le _ _ A) as Hmax.
    rewrite (advanced_source _ _ A).
    split; [lia|]. intros i c Hi. apply Hq. lia.
  - exfalso. revert H. unfold nextToken. apply nextToken_loop_safe; assumption.
  - exfalso. exact (nextToken_fuel p H).
Qed.

(** ** What a function of the grammar leaves behind *)

Lemma latched_refl p : latched p p.
Proof. split; auto. exists []. rewrite app_nil_r. reflexivity. Qed.

Lemma latched_trans p1 p2 p3 : latched p1 p2 -> latched p2 p3 -> latched p1 p3.
Proof.
  intros [S1 E1 [m1 D1] Q1 C1] [S2 E2 [m2 D2] Q2 C2]. split.
  - congruence.
  - auto.
  - exists (m1 ++ m2). rewrite D2, D1, app_assoc. reflexivity.
  - intros H3. rewrite (Q2 H3). apply Q1.
    destruct (hasError p2); [|reflexivity].
    rewrite E2 in H3 by reflexivity. discriminate H3.
  - lia.
Qed.

Lemma latched_nextToken p p' : nextToken p = Ok p' -> latched p p'.
Proof.
  intros H. apply nextToken_advanced in H as A. split.
  - exact (advanced_source _ _ A).
  - rewrite (advanced_hasError _ _ A). auto.
  - exists []. rewrite app_nil_r. exact (advanced_stderr _ _ A).
  - intros _. exact (advanced_stderr _ _ A).
  - exact (advanced_ge _ _ A).
Qed.

Lemma latched_error p message : latched p (error p message).
Proof.
  split; simpl; auto.
  - eexists. reflexivity.
  - discriminate.
Qed.

Lemma latched_set_vm p v : latched p (set_vm v p).
Proof. split; simpl; auto. exists []. rewrite app_nil_r. reflexivity. Qed.

Section Kept.
Context {ops : Opcodes}.

Lemma grammar_latched n : grammar_kept extends latched n.
Proof.
  apply grammar_kept_all.
  - apply extends_refl.
  - apply extends_trans.
  - intros c c' []. assumption.
  - apply extends_emit.
  - apply extends_addConstant.
  - apply extends_completeConstant.
  - apply extends_set_locals.
  - apply extends_writeCode.
  - apply latched_refl.
  - apply latched_trans.
  - apply latched_nextToken.
  - apply latched_error.
  - apply latched_set_vm.
Qed.

(** X4.  Emitted code is final.  When [definition], [statement] or
    [expression] returns, [numCodes] has not decreased, every byte below the
    [numCodes] it was called with is as it was (the jumps an [if] patches
    are its own), and the code buffer still holds exactly [numCodes] bytes
    if it did. *)
Theorem emitted_code_is_final n c p c' p' :
  definition n c p = Ok (c', p') \/
  statement n c p = Ok (c', p') \/
  (exists allowAssignment, expression n c p allowAssignment = Ok (c', p')) ->
  numCodes c <= numCodes c' /\
  (forall i, i < numCodes c ->
     cell 0%Z (bytecode (fn c')) i = cell 0%Z (bytecode (fn c)) i) /\
  (length (bytecode (fn c)) = numCodes c ->
   length (bytecode (fn c')) = numCodes c').
Proof.
  destruct (grammar_latched n) as
    (_ & _ & _ & _ & _ & _ & _ & _ & _ & _ & _ & _ & He & _ & Hs & _ & Hd & _).
  intros [H | [H | [a H]]].
  - apply Hd in H as [[] _]. auto.
  - apply Hs in H as [[] _]. auto.
  - apply He in H as [[] _]. auto.
Qed.

(** X5.  Errors are latched and the parser never rewinds.  When
    [definition], [statement] or [expression] returns, the source is the
    same, the cursor has not gone back, the error flag is still set if it
    was, and the diagnostics printed before are still there, followed by
    the new ones. *)
Theorem errors_are_latched n c p c' p' :
  definition n c p = Ok (c', p') \/
  statement n c p = Ok (c', p') \/
  (exists allowAssignment, expression n c p allowAssignment = Ok (c', p')) ->
  source p' = source p /\
  currentChar p <= currentChar p' /\
  (hasError p = true -> hasError p' = true) /\
  (exists more, stderr p' = stderr p ++ more) /\
  (hasError p' = false -> stderr p' = stderr p).
Proof.
  destruct (grammar_latched n) as
    (_ & _ & _ & _ & _ & _ & _ & _ & _ & _ & _ & _ & He & _ & Hs & _ & Hd & _).
  intros [H | [H | [a H]]].
  - apply Hd in H as [_ []]. auto.
  - apply Hs in H as [_ []]. auto.
  - apply He in H as [_ []]. auto.
Qed.

(** ** Progress *)

(** What is left to parse after the steps that have returned: at most what
    was left before, and less after a token was consumed. *)
Ltac left_to_parse :=
  repeat inv_any; simplify_eq;
  repeat match goal with
  | H : negb ?b = false |- _ => apply negb_false_iff in H; subst b
  | H : negb ?b = true |- _ => apply negb_true_iff in H; subst b
  | E : match_ _ _ = Ok (_, _) |- _ => apply match_measure in E as [? ?]
  | E : consume _ _ _ = Ok _ |- _ => apply consume_measure in E
  | E : declareVariable _ _ = Ok (_, _, _) |- _ => apply declareVariable_measure in E
  | E : nextToken _ = Ok _ |- _ => apply nextToken_measure in E as [E _]
  | E : _ = Ok (_, _), K : forall _, _ |- _ =>
      apply K in E; destruct E as [_ [_ E]]; cbn [snd] in E
  | H : ?x = ?x -> _ |- _ => specialize (H eq_refl)
  | H : ?t <> TOKEN_EOF -> _ |- _ => specialize (H ltac:(discriminate))
  end;
  repeat match goal with
  | |- context [measure (if ?b then _ else _)] => destruct b
  | H : context [measure (if ?b then _ else _)] |- _ => destruct b
  end;
  rewrite ?measure_error, ?measure_set_vm in *; lia.

Lemma match_false p t p' : match_ p t = Ok (false, p') -> p' = p.
Proof.
  unfold match_. destruct (decide _); intros H; [congruence|].
  apply bind_Ok in H as (q & _ & H). discriminate H.
Qed.

Lemma parsePrecedence_progress n c p a prec c' p' :
  parsePrecedence n c p a prec = Ok (c', p') ->
  type (current p) <> TOKEN_EOF -> measure p' < measure p.
Proof.
  intros H Hne. destruct n as [|n]; [discriminate H|].
  destruct (grammar_shrinks n) as
    (K1 & K2 & K3 & K4 & K5 & K6 & K7 & K8 & K9 & K10 & K11 &
     K12 & K13 & K14 & K15 & K16 & K17 & K18).
  unfold kept in *. grammar_step H.
  apply bind_Ok in H as (p1 & E1 & H).
  pose proof (nextToken_measure _ _ E1) as [_ S]. specialize (S Hne). clear E1.
  left_to_parse.
Qed.

Lemma statement_progress n c p c' p' :
  statement n c p = Ok (c', p') ->
  type (current p) <> TOKEN_EOF -> measure p' < measure p.
Proof.
  intros H Hne. destruct n as [|n]; [discriminate H|].
  destruct (grammar_shrinks n) as
    (K1 & K2 & K3 & K4 & K5 & K6 & K7 & K8 & K9 & K10 & K11 &
     K12 & K13 & K14 & K15 & K16 & K17 & K18).
  unfold kept in *. grammar_step H.
  repeat inv_any; simplify_eq;
    repeat match goal with
    | E : match_ _ _ = Ok (false, _) |- _ => apply match_false in E; subst
    end;
    try match goal with
    | E : assignment _ _ ?q = Ok _, N : type (current ?q) <> TOKEN_EOF |- _ =>
        destruct n as [|n]; [discriminate E|]; grammar_step E;
        destruct n as [|n]; [discriminate E|]; grammar_step E;
        apply parsePrecedence_progress in E; [|exact N]
    end;
    left_to_parse.
Qed.

(** X6.  Every definition consumes a token.  When [definition] or
    [statement] returns and the lookahead was not the end of the file, what
    is left to parse (the characters after the cursor, and the lookahead
    unless it is the end of the file) has strictly decreased: the loops over
    definitions cannot spin on the same token. *)
Theorem definition_progress n c p c' p' :
  definition n c p = Ok (c', p') \/ statement n c p = Ok (c', p') ->
  type (current p) <> TOKEN_EOF ->
  measure p' < measure p /\
  length (source p') - currentChar p' <= length (source p) - currentChar p.
Proof.
  intros H Hne.
  assert (Hcursor : latched p p').
  { destruct (grammar_latched n) as
      (_ & _ & _ & _ & _ & _ & _ & _ & _ & _ & _ & _ & _ & _ & Hs & _ & Hd & _).
    destruct H as [H|H]; [apply Hd in H | apply Hs in H]; apply H. }
  split; [|destruct Hcursor as [-> _ _ _ ?]; lia].
  destruct H as [H|H]; [|exact (statement_progress _ _ _ _ _ H Hne)].
  destruct n as [|n]; [discriminate H|].
  destruct (grammar_shrinks n) as
    (K1 & K2 & K3 & K4 & K5 & K6 & K7 & K8 & K9 & K10 & K11 &
     K12 & K13 & K14 & K15 & K16 & K17 & K18).
  unfold kept in *. grammar_step H.
  repeat inv_any; simplify_eq;
    repeat match goal with
    | E : match_ _ _ = Ok (false, _) |- _ => apply match_false in E; subst
    end;
    try match goal with
    | E : statement _ _ ?q = Ok _, N : type (current ?q) <> TOKEN_EOF |- _ =>
        apply statement_progress in E; [|exact N]
    end;
    left_to_parse.
Qed.
End Kept.

(** ** Names *)

Lemma emit_two c a b :
  let c' := snd (emit (snd (emit c a)) b) in
  numCodes c' = numCodes c + 2 /\
  cell 0%Z (bytecode (fn c')) (numCodes c) = toByte a /\
  cell 0%Z (bytecode (fn c')) (numCodes c + 1) = toByte b.
Proof.
  simpl. split; [lia|]. split.
  - rewrite cell_store_ne by lia. apply cell_store_eq.
  - apply cell_store_eq.
Qed.

Section Names.
Context {ops : Opcodes}.

(** X7.  A name that is neither a local of the frame nor a global of the VM
    is reported: when [name] returns, the error flag is set and the
    diagnostic "Undefined variable." about the name is among those printed.
    Code is emitted all the same: a load or a store of a global whose
    operand is the byte 255, the symbol [-1] of the failed lookup. *)
Theorem undefined_variable_is_reported n c p allowAssignment c' p' :
  name n c p allowAssignment = Ok (c', p') ->
  findSymbol (locals c) (lexeme p (previous p)) = (-1)%Z ->
  findSymbol (globalSymbols (vm p)) (lexeme p (previous p)) = (-1)%Z ->
  hasError p' = true /\
  (exists more,
     stderr p' =
       stderr p ++
       {| diag_line := line (previous p);
          diag_lexeme := lexeme p (previous p);
          diag_message := "Undefined variable." |} :: more) /\
  2 <= numCodes c' /\
  (cell 0%Z (bytecode (fn c')) (numCodes c' - 2) = toByte CODE_LOAD_GLOBAL \/
   cell 0%Z (bytecode (fn c')) (numCodes c' - 2) = toByte CODE_STORE_GLOBAL) /\
  cell 0%Z (bytecode (fn c')) (numCodes c' - 1) = 255%Z.
Proof.
  intros H Hlocal Hglobal. destruct n as [|n]; [discriminate H|].
  grammar_step H. rewrite Hlocal in H. simpl in H. rewrite Hglobal in H.
  simpl in H.
  apply bind_Ok in H as ([assign p1] & Hm & H).
  assert (L0 : latched p (error p "Undefined variable.")) by apply latched_error.
  assert (L1 : latched (error p "Undefined variable.") p1).
  { unfold match_ in Hm. destruct (decide _).
    - injection Hm as <- <-. apply latched_refl.
    - apply bind_Ok in Hm as (q & Hq & Hm). injection Hm as <- <-.
      apply latched_nextToken. exact Hq. }
  assert (Hend : forall c3 p3 code,
            latched p1 p3 ->
            c' = snd (emit (snd (emit c3 code)) (-1)%Z) -> p' = p3 ->
            (code = CODE_LOAD_GLOBAL \/ code = CODE_STORE_GLOBAL) ->
            hasError p' = true /\
            (exists more,
               stderr p' =
                 stderr p ++
                 {| diag_line := line (previous p);
                    diag_lexeme := lexeme p (previous p);
                    diag_message := "Undefined variable." |} :: more) /\
            2 <= numCodes c' /\
            (cell 0%Z (bytecode (fn c')) (numCodes c' - 2) = toByte CODE_LOAD_GLOBAL \/
             cell 0%Z (bytecode (fn c')) (numCodes c' - 2) = toByte CODE_STORE_GLOBAL) /\
            cell 0%Z (bytecode (fn c')) (numCodes c' - 1) = 255%Z).
  { intros c3 p3 code L3 -> -> Hcode.
    pose proof (latched_trans _ _ _ L1 L3) as L.
    destruct (emit_two c3 code (-1)%Z) as (Hn & Ha & Hb).
    split; [apply (latched_hasError _ _ L); reflexivity|].
    split.
    { destruct (latched_stderr _ _ L) as [more ->]. simpl.
      exists more. rewrite <- app_assoc. reflexivity. }
    rewrite Hn. split; [lia|].
    replace (numCodes c3 + 2 - 2) with (numCodes c3) by lia.
    replace (numCodes c3 + 2 - 1) with (numCodes c3 + 1) by lia.
    rewrite Ha, Hb. split; [|reflexivity].
    destruct Hcode as [-> | ->]; auto. }
  destruct assign.
  - apply bind_Ok in H as ([c3 p3] & Hs & H). injection H as <- <-.
    destruct (grammar_latched n) as
      (_ & _ & _ & _ & _ & _ & _ & _ & _ & _ & _ & _ & _ & _ & Hst & _).
    apply Hst in Hs as [_ L3]. simpl in L3.
    apply (Hend c3 p3 CODE_STORE_GLOBAL); auto.
    eapply latched_trans; [|exact L3].
    destruct (negb allowAssignment); [apply latched_error | apply latched_refl].
  - injection H as <- <-.
    apply (Hend c p1 CODE_LOAD_GLOBAL); auto. apply latched_refl.
Qed.
End Names.

(** ** The end of the source *)

Lemma ended_refl p : ended p p.
Proof. intros H. exact H. Qed.

Lemma ended_trans p1 p2 p3 : ended p1 p2 -> ended p2 p3 -> ended p1 p3.
Proof. unfold ended. auto. Qed.

Lemma nextToken_endsAtNUL p p' : nextToken p = Ok p' -> endsAtNUL p'.
Proof.
  intros H E. apply nextToken_tokenized in H.
  apply (tokenized_eof _ _ H) in E as [E _]. exact E.
Qed.

Lemma ended_nextToken p p' : nextToken p = Ok p' -> ended p p'.
Proof. intros H _. exact (nextToken_endsAtNUL _ _ H). Qed.

Lemma ended_error p message : ended p (error p message).
Proof. intros H. exact H. Qed.

Lemma ended_set_vm p v : ended p (set_vm v p).
Proof. intros H. exact H. Qed.

Section End_of_source.
Context {ops : Opcodes}.

Lemma grammar_ended n : grammar_kept extends ended n.
Proof.
  apply grammar_kept_all.
  - apply extends_refl.
  - apply extends_trans.
  - intros c c' []. assumption.
  - apply extends_emit.
  - apply extends_addConstant.
  - apply extends_completeConstant.
  - apply extends_set_locals.
  - apply extends_writeCode.
  - apply ended_refl.
  - apply ended_trans.
  - apply ended_nextToken.
  - apply ended_error.
  - apply ended_set_vm.
Qed.

(** A token is consumed at the end of the file: the cursor stays at the
    zero character. *)
Lemma nextToken_after_EOF p p' :
  endsAtNUL p -> type (current p) = TOKEN_EOF -> nextToken p = Ok p' ->
  type (previous p') = TOKEN_EOF /\ type (current p') = TOKEN_EOF /\
  peekChar p' = Ok NUL.
Proof.
  intros Hp E H. specialize (Hp E).
  rewrite (nextToken_at_NUL _ Hp) in H. injection H as <-.
  simpl. auto.
Qed.

Lemma blockBody_closed n c p closing message c' p' :
  blockBody n c p closing message = Ok (c', p') ->
  endsAtNUL p ->
  hasError p' = false ->
  type (previous p') = closing /\
  (closing = TOKEN_EOF -> type (current p') = TOKEN_EOF /\ peekChar p' = Ok NUL).
Proof.
  revert c p. induction n as [|n IH]; intros c p H Hp Hok; [discriminate H|].
  grammar_step H.
  apply bind_Ok in H as ([c1 p1] & Hd & H).
  destruct (grammar_ended n) as
    (_ & _ & _ & _ & _ & _ & _ & _ & _ & _ & _ & _ & _ & _ & _ & _ & Kd & _).
  apply Kd in Hd as [_ Hd]. simpl in Hd. specialize (Hd Hp).
  apply bind_Ok in H as ([newLine p2] & Hm & H).
  assert (Hp2 : endsAtNUL p2).
  { unfold match_ in Hm. destruct (decide _).
    - injection Hm as <- <-. exact Hd.
    - apply bind_Ok in Hm as (q & Hq & Hm). injection Hm as <- <-.
      exact (nextToken_endsAtNUL _ _ Hq). }
  destruct newLine; simpl in H.
  - apply bind_Ok in H as ([closed p3] & Hc & H).
    destruct closed.
    + injection H as <- <-. unfold match_, peek in Hc.
      destruct (decide _) as [N|Y]; [discriminate Hc|].
      apply bind_Ok in Hc as (q & Hq & Hc). injection Hc as <-.
      assert (type (current p2) = closing) as Hty.
      { destruct (decide (type (current p2) = closing)); [assumption|contradiction]. }
      split.
      * rewrite (advanced_previous _ _ (nextToken_advanced _ _ Hq)). exact Hty.
      * intros ->. destruct (nextToken_after_EOF _ _ Hp2 Hty Hq) as (_ & ? & ?).
        auto.
    + apply match_false in Hc. subst p3.
      destruct (emit c1 CODE_POP) as [? c2]. apply (IH _ _ H); assumption.
  - apply bind_Ok in H as (p3 & Hc & H). injection H as <- <-.
    unfold consume in Hc. apply bind_Ok in Hc as (q & Hq & Hc).
    destruct (decide (type (previous q) <> closing)) as [N|Y];
      injection Hc as <-; [discriminate Hok|].
    assert (type (previous q) = closing) as Hty.
    { destruct (decide (type (previous q) = closing)); [assumption|contradiction]. }
    split; [exact Hty|]. intros ->.
    rewrite (advanced_previous _ _ (nextToken_advanced _ _ Hq)) in Hty.
    destruct (nextToken_after_EOF _ _ Hp2 Hty Hq) as (_ & ? & ?). auto.
Qed.

(** X8.  [compile] gives a function only when it has read the whole source:
    the parser then stands at the zero terminator, the end of the file has
    been consumed and is the lookahead too.  A source that goes on after
    what the top-level loop accepts is an error, never a function for its
    first part. *)
Theorem success_consumes_whole_source n machine source f machine' :
  compile n machine source = Ok (Some f, machine') ->
  exists c p,
    compile_frame n machine source = Ok (c, p) /\
    type (previous p) = TOKEN_EOF /\
    type (current p) = TOKEN_EOF /\
    peekChar p = Ok NUL /\
    (~ In NUL source -> currentChar p = length source).
Proof.
  unfold compile. intros H. apply bind_Ok in H as ([c p] & Hf & H).
  destruct (hasError p) eqn:Herr; [discriminate H|].
  exists c, p. split; [exact Hf|].
  unfold compile_frame in Hf.
  apply bind_Ok in Hf as (p0 & H0 & Hf).
  apply bind_Ok in Hf as ([c1 p1] & Hb & Hf).
  destruct (emit c1 CODE_END) as [? c2]. injection Hf as <- <-.
  pose proof (nextToken_endsAtNUL _ _ H0) as Hp0.
  pose proof (grammar_latched n) as
    (_ & _ & _ & _ & _ & _ & Kb & _).
  pose proof (Kb _ _ _ _ _ Hb) as [_ L]. simpl in L.
  apply (blockBody_closed _ _ _ _ _ _ _ Hb Hp0) in Herr as [Hprev Hcur].
  destruct (Hcur eq_refl) as [Hc Hn].
  split; [exact Hprev|]. split; [exact Hc|]. split; [exact Hn|].
  intros Hnul. unfold peekChar, charAt in Hn.
  rewrite (latched_source _ _ L) in Hn.
  rewrite (advanced_source _ _ (nextToken_advanced _ _ H0)) in Hn. simpl in Hn.
  destruct (source !! currentChar p1) as [x|] eqn:E.
  - injection Hn as ->. apply list_elem_of_lookup_2 in E.
    apply list_elem_of_In in E. contradiction.
  - destruct (decide _); [assumption | discriminate Hn].
Qed.
End End_of_source.

(** ** String literals *)

Lemma drop_cons_inv {A} (l : list A) n x l' :
  drop n l = x :: l' -> l !! n = Some x /\ drop (S n) l = l'.
Proof.
  revert l. induction n as [|n IH]; intros [|y l] H; simpl in *; try discriminate.
  - injection H as -> ->. split; [reflexivity | apply drop_0].
  - apply IH. exact H.
Qed.

Lemma readString_loop_closed fuel p text rest :
  drop (currentChar p) (source p) = text ++ quote :: rest ->
  (forall c, In c text -> c <> quote) ->
  length text < fuel ->
  readString_loop fuel p = Ok (set_currentChar (currentChar p + length text + 1) p).
Proof.
  revert fuel p. induction text as [|a text IH]; intros fuel p Hd Hq Hf;
    (destruct fuel as [|fuel]; [simpl in Hf; lia|]); simpl in Hd |- *;
    apply drop_cons_inv in Hd as [Hc Hd];
    unfold nextChar, peekChar, charAt; rewrite Hc; cbn [bind].
  - replace (currentChar p + 0 + 1) with (currentChar p + 1) by lia. reflexivity.
  - assert (a <> quote) as Ha by (apply Hq; left; reflexivity).
    apply Ascii.eqb_neq in Ha. rewrite Ha. cbn [negb].
    rewrite (IH fuel (set_currentChar (currentChar p + 1) p)); simpl.
    + f_equal. unfold set_currentChar. simpl. f_equal. lia.
    + rewrite Nat.add_1_r. exact Hd.
    + intros c Hc'. apply Hq. right. exact Hc'.
    + simpl in Hf. lia.
Qed.

Section Strings.
Context {ops : Opcodes}.

(** The parser after the first [nextToken] on a string literal that is the
    whole source. *)
Lemma nextToken_string machine text :
  (forall c, In c text -> c <> quote) ->
  nextToken (initParser machine (quote :: text ++ [quote])) =
    Ok {| vm := machine; source := quote :: text ++ [quote];
          tokenStart := 0; currentChar := length text + 2; currentLine := 1;
          current := {| type := TOKEN_STRING; start := 0;
                        end_ := length text + 2; line := 1 |};
          previous := {| type := TOKEN_EOF; start := 0; end_ := 0; line := 0 |};
          skipNewlines := false; hasError := false; stderr := [] |}.
Proof.
  intros Hq. unfold nextToken, charsLeft. cbn [nextToken_loop].
  unfold readRawToken, charsLeft. simpl.
  unfold readString.
  rewrite (readString_loop_closed _ _ text []); simpl.
  - replace (S (length text + 1)) with (length text + 2) by lia. reflexivity.
  - reflexivity.
  - exact Hq.
  - unfold charsLeft. simpl. rewrite length_app. simpl. lia.
Qed.

Lemma blockBody_string n c p :
  type (current p) = TOKEN_STRING ->
  currentChar p = length (source p) ->
  2 <= end_ (current p) - start (current p) ->
  blockBody (7 + n) c p TOKEN_EOF "Expect end of file." =
    Ok (snd (emit (snd (emit
               (snd (addConstant c
                  (newString (take (end_ (current p) - start (current p) - 2)
                                   (drop (start (current p) + 1) (source p))))))
               CODE_CONSTANT)) (Z.of_nat (numConstants (fn c)))),
        atEnd (atEnd p)).
Proof.
  intros Hty Hend Hlen. simpl. unfold match_, peek.
  do 4 (rewrite ?Hty; simpl).
  rewrite (nextToken_at_end p Hend). simpl. rewrite Hty. simpl.
  unfold string_. simpl.
  destruct (decide (end_ (current p) - start (current p) < 2)) as [Hbad|_];
    [lia|].
  simpl. unfold consume.
  rewrite (nextToken_at_end (atEnd p)) by exact Hend. reflexivity.
Qed.

(** X9.  A string literal is the characters between its quotes, as they
    are: a source that is one literal compiles to a function that loads
    constant 0 and ends, and whose one constant is the string of these
    characters.  Nothing is decoded (a backslash and a newline stay as they
    are), and the symbol tables of the VM are not touched. *)
Theorem string_literal_constant machine text fuel :
  (forall c, In c text -> c <> quote) ->
  8 <= fuel ->
  compile fuel machine (quote :: text ++ [quote]) =
    Ok (Some {| bytecode := [toByte CODE_CONSTANT; 0%Z; toByte CODE_END];
                constants := [newString text];
                numConstants := 1 |},
        machine).
Proof.
  intros Hq Hfuel. apply (compile_more_fuel 8); [|exact Hfuel].
  unfold compile, compile_frame.
  rewrite (nextToken_string machine text Hq). cbn [bind].
  set (p1 := {| vm := machine; source := quote :: text ++ [quote];
                tokenStart := 0; currentChar := length text + 2; currentLine := 1;
                current := {| type := TOKEN_STRING; start := 0;
                              end_ := length text + 2; line := 1 |};
                previous := {| type := TOKEN_EOF; start := 0; end_ := 0; line := 0 |};
                skipNewlines := false; hasError := false; stderr := [] |}).
  assert (Hend : currentChar p1 = length (source p1)).
  { simpl. rewrite length_app. simpl. lia. }
  rewrite (blockBody_string 1 _ p1 eq_refl Hend) by (simpl; lia).
  cbn [bind]. simpl.
  replace (length text + 2 - 0 - 2) with (length text) by lia.
  rewrite drop_0, take_app_length. reflexivity.
Qed.
End Strings.

(** ** Method calls *)

Section Calls.
Context {ops : Opcodes}.

Lemma appendSpace_Ok name name' :
  appendSpace (Some name) = Ok name' ->
  name' = Some (name ++ [" "]) /\ length name < MAX_NAME.
Proof.
  unfold appendSpace. destruct (decide _); intros H; [|discriminate H].
  injection H as <-. auto.
Qed.

Lemma call_arguments_name n c p name k c' p' name' k' :
  call_arguments n c p (Some name) k = Ok (c', p', name', k') ->
  exists j, 0 < j /\ k' = k + j /\ name' = Some (name ++ repeat " " j) /\
            length name + j <= MAX_NAME.
Proof.
  revert c p name k. induction n as [|n IH]; intros c p name k H;
    [discriminate H|].
  grammar_step H.
  apply bind_Ok in H as ([c1 p1] & _ & H).
  apply bind_Ok in H as (name1 & Hs & H).
  apply appendSpace_Ok in Hs as [-> Hlen].
  apply bind_Ok in H as ([comma p2] & _ & H).
  destruct comma.
  - apply IH in H as (j & Hj & -> & -> & Hmax).
    exists (S j). rewrite length_app in Hmax. simpl in Hmax.
    split; [lia|]. split; [lia|]. split; [|lia].
    rewrite <- app_assoc. reflexivity.
  - injection H as <- <- <- <-. exists 1.
    split; [lia|]. split; [reflexivity|]. split; [reflexivity | lia].
Qed.

(** X10.  The arity of a call is in its opcode and in its name.  When
    [call] returns, the code ends with [CALL_0 + numArgs] and the symbol, in
    the method table, of the method name followed by [numArgs] spaces.
    Without an argument list [numArgs] is 0; with one it is at least 1: the
    arguments are read by a do-while loop, so that empty parentheses are
    parsed as one (missing) argument.  The name with its spaces fits in
    [MAX_NAME] characters, or [call] would not have returned. *)
Theorem call_arity n c p allowAssignment c' p' :
  call n c p allowAssignment = Ok (c', p') ->
  exists p1 numArgs,
    consume p TOKEN_NAME "Expect method name after '.'." = Ok p1 /\
    (type (current p1) = TOKEN_LEFT_PAREN -> 1 <= numArgs) /\
    (type (current p1) <> TOKEN_LEFT_PAREN -> numArgs = 0) /\
    length (lexeme p1 (previous p1)) + numArgs <= MAX_NAME /\
    2 <= numCodes c' /\
    cell 0%Z (bytecode (fn c')) (numCodes c' - 2) =
      toByte (CODE_CALL_0 + Z.of_nat numArgs) /\
    cell 0%Z (bytecode (fn c')) (numCodes c' - 1) =
      toByte (findSymbol (methods (vm p'))
                (lexeme p1 (previous p1) ++ repeat " " numArgs)) /\
    (0 <= findSymbol (methods (vm p'))
            (lexeme p1 (previous p1) ++ repeat " " numArgs))%Z.
Proof.
  intros H. destruct n as [|n]; [discriminate H|].
  grammar_step H.
  apply bind_Ok in H as (p1 & Hc & H).
  destruct (decide (MAX_NAME < _)) as [Hbig|Hfit]; [discriminate H|].
  apply bind_Ok in H as ([paren p2] & Hm & H).
  apply bind_Ok in H as ([[[c4 p4] name4] numArgs] & Hargs & H).
  assert (Hname : name4 = Some (lexeme p1 (previous p1) ++ repeat " " numArgs) /\
                  (type (current p1) = TOKEN_LEFT_PAREN -> 1 <= numArgs) /\
                  (type (current p1) <> TOKEN_LEFT_PAREN -> numArgs = 0) /\
                  length (lexeme p1 (previous p1)) + numArgs <= MAX_NAME).
  { unfold match_, peek in Hm. destruct (decide _) as [N|Y].
    - injection Hm as <- <-. injection Hargs as <- <- <- <-. simpl.
      rewrite app_nil_r. split; [reflexivity|]. split; [contradiction|].
      split; [reflexivity|].
      unfold lexeme. rewrite length_take. lia.
    - apply bind_Ok in Hm as (q & _ & Hm). injection Hm as <- <-.
      apply bind_Ok in Hargs as ([[[c5 p5] name5] k5] & Ha & Hargs).
      apply bind_Ok in Hargs as (p6 & _ & Hargs). injection Hargs as <- <- <- <-.
      apply call_arguments_name in Ha as (j & Hj & -> & -> & Hmax).
      split; [reflexivity|]. split; [intros; lia|]. split; [|exact Hmax].
      intros Hne. contradiction. }
  destruct Hname as (-> & Hparen & Hnone & Hmax).
  unfold ensureMethod, emit in H. simpl in H. injection H as <- <-. simpl.
  exists p1, numArgs. split; [exact Hc|].
  split; [exact Hparen|]. split; [exact Hnone|]. split; [exact Hmax|].
  destruct (ensureSymbol_findSymbol (methods (vm p4))
              (lexeme p1 (previous p1) ++ repeat " " numArgs)) as [Hfind Hpos].
  rewrite Hfind.
  split; [lia|].
  replace (numCodes c4 + 1 + 1 - 2) with (numCodes c4) by lia.
  replace (numCodes c4 + 1 + 1 - 1) with (numCodes c4 + 1) by lia.
  split; [|split; [|exact Hpos]].
  - rewrite cell_store_ne by lia. apply cell_store_eq.
  - apply cell_store_eq.
Qed.
End Calls.

(** ** The faults of the compiler *)

Section Faults.
Variable f : Fault.
Hypothesis f_not_read : f <> ReadPastBuffer.

Lemma charAt_fault p i : charAt p i <> Undefined f.
Proof.
  unfold charAt. destruct (source p !! i); [discriminate|].
  destruct (decide _); [discriminate | congruence].
Qed.

(** The steps that are not loops. *)
Ltac fault_step :=
  repeat match goal with
  | |- Ok _ <> Undefined _ => discriminate
  | |- bind _ _ <> Undefined _ => apply bind_not_Undefined; [|intros ? ?]
  | |- (if ?b then _ else _) <> Undefined _ => destruct b
  | |- (let '(_, _) := ?x in _) <> Undefined _ => destruct x
  | |- charAt _ _ <> Undefined _ => apply charAt_fault
  | |- peekChar _ <> Undefined _ => apply charAt_fault
  end.

Lemma nextChar_fault p : nextChar p <> Undefined f.
Proof. unfold nextChar. fault_step. Qed.

Lemma peekNextChar_fault p : peekNextChar p <> Undefined f.
Proof. unfold peekNextChar. fault_step. Qed.

Lemma peekBoth_fault p a test : peekBoth p a test <> Undefined f.
Proof. unfold peekBoth. fault_step. apply peekNextChar_fault. Qed.

Lemma advanceWhile_fault test p : advanceWhile test p <> Undefined f.
Proof.
  unfold advanceWhile. generalize (charsLeft p) as fuel. intros fuel. revert p.
  induction fuel as [|fuel IH]; intros p; simpl; [discriminate|].
  fault_step. { apply nextChar_fault. } apply IH.
Qed.

Lemma skipBlockComment_loop_fault fuel nesting p :
  skipBlockComment_loop fuel nesting p <> Undefined f.
Proof.
  revert nesting p. induction fuel as [|fuel IH]; intros nesting p; simpl;
    [discriminate|].
  fault_step;
    try apply peekBoth_fault; try apply nextChar_fault; apply IH.
Qed.

Lemma readString_loop_fault fuel p : readString_loop fuel p <> Undefined f.
Proof.
  revert p. induction fuel as [|fuel IH]; intros p; simpl; [discriminate|].
  fault_step; [apply nextChar_fault | apply IH].
Qed.

Lemma readNumber_fault p : readNumber p <> Undefined f.
Proof.
  unfold readNumber. fault_step;
    try apply advanceWhile_fault; try apply peekBoth_fault; apply nextChar_fault.
Qed.

Lemma readRawToken_loop_fault fuel p : readRawToken_loop fuel p <> Undefined f.
Proof.
  revert p. induction fuel as [|fuel IH]; intros p; simpl; [discriminate|].
  fault_step;
    try apply IH;
    try apply nextChar_fault;
    try apply readNumber_fault;
    try (unfold oneOrTwo; fault_step; apply nextChar_fault);
    try (unfold readName; fault_step; apply advanceWhile_fault);
    try (unfold readString; fault_step; apply readString_loop_fault);
    try (unfold skipBlockComment; fault_step;
         [apply nextChar_fault | apply skipBlockComment_loop_fault]);
    apply advanceWhile_fault.
Qed.

Lemma nextToken_fault p : nextToken p <> Undefined f.
Proof.
  unfold nextToken.
  generalize (charsLeft (set_previous (current p) p)) as fuel.
  generalize (set_previous (current p) p) as q.
  intros q fuel. revert q.
  induction fuel as [|fuel IH]; intros q; simpl; [discriminate|].
  apply bind_not_Undefined; [apply readRawToken_loop_fault|]. intros q1 _.
  destruct (type (current q1)); try (simpl; discriminate).
  destruct (negb (skipNewlines q1)); [discriminate | apply IH].
Qed.

Lemma match_fault p t : match_ p t <> Undefined f.
Proof. unfold match_. fault_step. apply nextToken_fault. Qed.

Lemma consume_fault p t message : consume p t message <> Undefined f.
Proof. unfold consume. fault_step. apply nextToken_fault. Qed.

Lemma declareVariable_fault c p : declareVariable c p <> Undefined f.
Proof.
  unfold declareVariable. apply bind_not_Undefined; [apply consume_fault|].
  intros q _. destruct (parent c); discriminate.
Qed.

Context {ops : Opcodes}.
Hypothesis f_not_name : f <> NameOverflow.

Lemma appendSpace_fault name : name <> None -> appendSpace name <> Undefined f.
Proof.
  destruct name as [text|]; [|contradiction]. intros _. simpl.
  destruct (decide _); [discriminate | congruence].
Qed.

Lemma appendSpace_Some name name' : appendSpace name = Ok name' -> name' <> None.
Proof.
  destruct name as [text|]; simpl; [|discriminate].
  destruct (decide _); intros H; [|discriminate H]. injection H as <-. discriminate.
Qed.

Lemma string_fault c p : string_ c p <> Undefined f.
Proof. unfold string_. destruct (decide _); [congruence | discriminate]. Qed.

Lemma parameterList_loop_fault n c p name :
  parameterList_loop n c p name <> Undefined f.
Proof.
  revert c p name. induction n as [|n IH]; intros c p name; simpl; [discriminate|].
  apply bind_not_Undefined; [apply declareVariable_fault|]. intros [[s c1] p1] _.
  apply bind_not_Undefined.
  { destruct name; [apply appendSpace_fault|]; discriminate. }
  intros name1 _.
  apply bind_not_Undefined; [apply match_fault|]. intros [comma p2] _.
  destruct comma; [apply IH | discriminate].
Qed.

Lemma parameterList_fault n c p name : parameterList n c p name <> Undefined f.
Proof.
  unfold parameterList.
  apply bind_not_Undefined; [apply match_fault|]. intros [paren p1] _.
  destruct paren; [|discriminate].
  apply bind_not_Undefined; [apply parameterList_loop_fault|].
  intros [[c2 p2] name2] _.
  apply bind_not_Undefined; [apply consume_fault | discriminate].
Qed.

Lemma callSignatureFn_fault n s c p name :
  name <> None -> callSignatureFn n s c p name <> Undefined f.
Proof.
  intros Hname. destruct s; simpl.
  - apply parameterList_fault.
  - unfold infixSignature.
    apply bind_not_Undefined; [apply appendSpace_fault; exact Hname|]. intros ? _.
    apply bind_not_Undefined; [apply declareVariable_fault|]. intros [[? ?] ?] _.
    discriminate.
  - discriminate.
  - unfold mixedSignature. destruct (decide _); [|discriminate].
    apply bind_not_Undefined; [apply appendSpace_fault; exact Hname|]. intros ? _.
    apply bind_not_Undefined; [apply declareVariable_fault|]. intros [[? ?] ?] _.
    discriminate.
Qed.

(** A rule with a precedence has an infix parser, and a rule that points to
    [unaryOp] or to [infixOp] has a name. *)
Lemma rules_infix t :
  1 <= GrammarRule.precedence (rules t) -> GrammarRule.infix (rules t) <> None.
Proof. destruct t; simpl; intros H; try discriminate; exfalso; revert H; cbv; lia. Qed.

Lemma rules_name t g :
  GrammarRule.prefix (rules t) = Some g \/ GrammarRule.infix (rules t) = Some g ->
  g = fn_unaryOp \/ g = fn_infixOp ->
  GrammarRule.name (rules t) <> None.
Proof.
  intros [H|H] [-> | ->]; destruct t; simpl in *; discriminate.
Qed.

Ltac split_tuple a :=
  lazymatch type of a with
  | (_ * _ * _ * _)%type => destruct a as [[[? ?] ?] ?]
  | (_ * _ * _)%type => destruct a as [[? ?] ?]
  | (_ * _)%type => destruct a as [? ?]
  | _ => idtac
  end.

Ltac grammar_fault_step :=
  match goal with
  | |- Ok _ <> Undefined _ => discriminate
  | |- OutOfFuel <> Undefined _ => discriminate
  | |- bind _ _ <> Undefined _ =>
      apply bind_not_Undefined;
      [| let a := fresh "a" in let E := fresh "E" in
         intros a E; split_tuple a; cbn beta iota ]
  | |- nextToken _ <> Undefined _ => apply nextToken_fault
  | |- match_ _ _ <> Undefined _ => apply match_fault
  | |- consume _ _ _ <> Undefined _ => apply consume_fault
  | |- declareVariable _ _ <> Undefined _ => apply declareVariable_fault
  | |- string_ _ _ <> Undefined _ => apply string_fault
  | |- parameterList _ _ _ _ <> Undefined _ => apply parameterList_fault
  | |- callSignatureFn _ _ _ _ _ <> Undefined _ =>
      apply callSignatureFn_fault; discriminate
  | |- appendSpace _ <> Undefined _ => apply appendSpace_fault; assumption
  | |- (if ?b then _ else _) <> Undefined _ => destruct b eqn:?
  | |- (let '(_, _) := ?x in _) <> Undefined _ => destruct x
  | |- match ?x with _ => _ end <> Undefined _ => destruct x eqn:?
  end.

Lemma grammar_faults n :
  (forall c p a prec,
     1 <= prec -> parsePrecedence n c p a prec <> Undefined f) /\
  (forall c p a prec,
     1 <= prec -> parsePrecedence_infix n c p a prec <> Undefined f) /\
  (forall g c p a,
     GrammarRule.prefix (rules (type (previous p))) = Some g \/
     GrammarRule.infix (rules (type (previous p))) = Some g ->
     callGrammarFn n g c p a <> Undefined f) /\
  (forall c p a, grouping n c p a <> Undefined f) /\
  (forall c p a,
     GrammarRule.name (rules (type (previous p))) <> None ->
     unaryOp n c p a <> Undefined f) /\
  (forall c p a, function n c p a <> Undefined f) /\
  (forall c p t s, blockBody n c p t s <> Undefined f) /\
  (forall c p a, name n c p a <> Undefined f) /\
  (forall c p a, call n c p a <> Undefined f) /\
  (forall c p nm k, nm <> None -> call_arguments n c p nm k <> Undefined f) /\
  (forall c p a, is_ n c p a <> Undefined f) /\
  (forall c p a,
     GrammarRule.name (rules (type (previous p))) <> None ->
     infixOp n c p a <> Undefined f) /\
  (forall c p a, expression n c p a <> Undefined f) /\
  (forall c p, assignment n c p <> Undefined f) /\
  (forall c p, statement n c p <> Undefined f) /\
  (forall c p b s, method n c p b s <> Undefined f) /\
  (forall c p, definition n c p <> Undefined f) /\
  (forall c p, definition_methods n c p <> Undefined f).
Proof.
  induction n as [|n IH]; [repeat split; intros; discriminate|].
  destruct IH as
    (T1 & T2 & T3 & T4 & T5 & T6 & T7 & T8 & T9 & T10 & T11 &
     T12 & T13 & T14 & T15 & T16 & T17 & T18).
  repeat match goal with |- _ /\ _ => split end; intros;
    cbn [parsePrecedence parsePrecedence_infix callGrammarFn grouping unaryOp
         function blockBody name call call_arguments is_ infixOp expression
         assignment statement method definition definition_methods].
  all: repeat grammar_fault_step.
  all: try match goal with
  | |- Undefined NameOverflow <> Undefined f => congruence
  | |- parsePrecedence _ _ _ _ _ <> _ =>
      apply T1; first [assumption | cbv; lia | lia]
  | |- parsePrecedence_infix _ _ _ _ _ <> _ => apply T2; assumption
  | |- callGrammarFn _ _ _ _ _ <> _ => apply T3; auto
  | |- grouping _ _ _ _ <> _ => apply T4
  | |- unaryOp _ _ _ _ <> _ =>
      apply T5; eapply rules_name; [eassumption | left; reflexivity]
  | |- function _ _ _ _ <> _ => apply T6
  | |- blockBody _ _ _ _ _ <> _ => apply T7
  | |- name _ _ _ _ <> _ => apply T8
  | |- call _ _ _ _ <> _ => apply T9
  | |- call_arguments _ _ _ (Some _) _ <> _ => apply T10; discriminate
  | |- call_arguments _ _ _ _ _ <> _ =>
      apply T10; eapply appendSpace_Some; eassumption
  | |- is_ _ _ _ _ <> _ => apply T11
  | |- infixOp _ _ _ _ <> _ =>
      apply T12; eapply rules_name; [eassumption | right; reflexivity]
  | |- expression _ _ _ _ <> _ => apply T13
  | |- assignment _ _ _ <> _ => apply T14
  | |- statement _ _ _ <> _ => apply T15
  | |- method _ _ _ _ _ <> _ => apply T16
  | |- definition _ _ _ <> _ => apply T17
  | |- definition_methods _ _ _ <> _ => apply T18
  | N : ?x <> ?x |- _ => contradiction
  | E : nextToken ?p = Ok ?q, I : GrammarRule.infix (rules (type (previous ?q))) = None
    |- Undefined NullFunction <> _ =>
      exfalso; rewrite (advanced_previous _ _ (nextToken_advanced _ _ E)) in I;
      revert I; apply rules_infix; lia
  end.
Qed.

Lemma compile_fault n machine source : compile n machine source <> Undefined f.
Proof.
  unfold compile, compile_frame.
  destruct (grammar_faults n) as (_ & _ & _ & _ & _ & _ & Hb & _).
  repeat grammar_fault_step. apply Hb.
Qed.
End Faults.

(** X11.  [compile] never goes through a NULL entry of the table of rules.
    Whatever the source, the VM and the bound on the nested calls, no
    execution calls a NULL [infix] function and none reads a NULL rule name:
    in [rules], a token whose rule has a precedence has an infix parser, and
    the rules that point to [unaryOp] and [infixOp] have names.  (The
    capacity of the buffers the code is emitted into is not part of the
    embedding: nothing is said here about a write after their end.) *)
Theorem compile_never_calls_null `{ops : Opcodes} n machine source :
  compile n machine source <> Undefined NullFunction /\
  compile n machine source <> Undefined NullName /\
  (forall t, PREC_LOWEST <= GrammarRule.precedence (rules t) ->
     GrammarRule.infix (rules t) <> None) /\
  (forall t, GrammarRule.prefix (rules t) = Some fn_unaryOp \/
             GrammarRule.infix (rules t) = Some fn_infixOp ->
     GrammarRule.name (rules t) <> None).
Proof.
  split; [apply compile_fault; discriminate|].
  split; [apply compile_fault; discriminate|].
  split.
  - intros t. destruct t; cbv; intros H; first [lia | discriminate].
  - intros t [H|H]; destruct t; simpl in *; discriminate.
Qed.

(** ** The text of a token *)

Lemma charAt_Some p i c : charAt p i = Ok c -> c <> NUL -> source p !! i = Some c.
Proof.
  unfold charAt. destruct (source p !! i); [congruence|].
  destruct (decide _); intros H N; [|discriminate H].
  injection H as <-. contradiction.
Qed.

Lemma take_one_drop {A} (l : list A) n x :
  l !! n = Some x -> take 1 (drop n l) = [x].
Proof.
  revert l. induction n as [|n IH]; intros [|y l] H; simpl in *; try discriminate.
  - injection H as ->. rewrite ?take_0. reflexivity.
  - apply IH. exact H.
Qed.

Lemma take_two_drop {A} (l : list A) n x y :
  l !! n = Some x -> l !! (n + 1) = Some y -> take 2 (drop n l) = [x; y].
Proof.
  revert l. induction n as [|n IH]; intros [|z l] Hx Hy; simpl in *; try discriminate.
  - injection Hx as ->. destruct l as [|w l]; [discriminate Hy|].
    simpl in Hy. injection Hy as ->. rewrite ?take_0. reflexivity.
  - apply IH; assumption.
Qed.

Lemma readName_spelling p p' s :
  readName p = Ok p' ->
  spelling (type (current p')) = Some s ->
  take (currentChar p' - tokenStart p') (drop (tokenStart p') (source p')) = s.
Proof.
  unfold readName. intros H. apply bind_Ok in H as (q & _ & H).
  injection H as <-. simpl.
  repeat match goal with
  | |- context [if isKeyword q ?k then _ else _] =>
      let K := fresh "K" in
      destruct (isKeyword q k) eqn:K;
      [ apply bool_decide_eq_true_1 in K |]
  end; simpl; intros Hs; try discriminate Hs;
    injection Hs as <-; assumption.
Qed.

Lemma readRawToken_loop_spelling fuel p p' s :
  readRawToken_loop fuel p = Ok p' ->
  spelling (type (current p')) = Some s ->
  lexeme p' (current p') = s.
Proof.
  revert p. induction fuel as [|fuel IH]; intros p H; simpl in H; [discriminate|].
  apply bind_Ok in H as (c0 & Hc0 & H).
  destruct (c0 == NUL) eqn:N.
  { injection H as <-. discriminate. }
  assert (Hsrc : source p !! currentChar p = Some c0).
  { apply charAt_Some; [exact Hc0|]. intros ->. discriminate N. }
  apply bind_Ok in H as ([c p1] & H1 & H).
  apply nextChar_Ok in H1 as [Hc ->].
  assert (c = c0) as ->.
  { unfold peekChar, charAt in Hc. simpl in Hc. rewrite Hsrc in Hc. congruence. }
  clear Hc.
  assert (Hone : take (currentChar p + 1 - currentChar p)
                      (drop (currentChar p) (source p)) = [c0]).
  { replace (currentChar p + 1 - currentChar p) with 1 by lia.
    apply take_one_drop. exact Hsrc. }
  assert (Htwo : forall second two one p2,
            oneOrTwo (set_currentChar (currentChar p + 1)
                        (set_tokenStart (currentChar p) p)) second two one = Ok p2 ->
            second <> NUL ->
            spelling two = Some [c0; second] -> spelling one = Some [c0] ->
            spelling (type (current p2)) = Some s ->
            lexeme p2 (current p2) = s).
  { intros second two one p2 Ho Hs H2 H1. unfold oneOrTwo in Ho.
    apply bind_Ok in Ho as (c2 & Hc2 & Ho).
    destruct (c2 == second) eqn:Q.
    - apply Ascii.eqb_eq in Q. subst c2.
      apply bind_Ok in Ho as ([? p3] & H3 & Ho). apply nextChar_Ok in H3 as [_ ->].
      injection Ho as <-. unfold lexeme. simpl. rewrite H2. intros [= <-].
      replace (currentChar p + 1 + 1 - currentChar p) with 2 by lia.
      apply take_two_drop; [exact Hsrc|].
      apply charAt_Some in Hc2; [exact Hc2 | exact Hs].
    - injection Ho as <-. unfold lexeme. simpl. rewrite H1. intros [= <-].
      exact Hone. }
  inv_Ok H;
    repeat match goal with
    | Q : (c0 == _) = true |- _ => apply Ascii.eqb_eq in Q; subst c0
    end;
    try (subst p'; unfold lexeme; simpl; intros Hs;
         first [discriminate Hs | injection Hs as <-; exact Hone]).
  all: try match goal with
  | H : readRawToken_loop _ _ = Ok _ |- _ => exact (IH _ H)
  | H : readNumber _ = Ok _ |- _ =>
      apply readNumber_lexed in H as [_ ->]; discriminate
  | H : readString _ = Ok _ |- _ =>
      apply readString_lexed in H as [_ ->]; discriminate
  | H : readName _ = Ok _ |- _ =>
      intros Hs; pose proof (readName_spelling _ _ _ H Hs) as Hn;
      apply readName_token in H as (q & t & M & _ & ->);
      unfold lexeme; simpl in *; rewrite (moved_tokenStart _ _ M) in *; exact Hn
  | H : oneOrTwo _ _ _ _ = Ok _ |- _ =>
      apply (Htwo _ _ _ _ H); [discriminate | reflexivity | reflexivity]
  end.
Qed.

Lemma nextToken_loop_spelling fuel p p' s :
  nextToken_loop fuel p = Ok p' ->
  spelling (type (current p')) = Some s ->
  lexeme p' (current p') = s.
Proof.
  revert p. induction fuel as [|fuel IH]; intros p H; simpl in H; [discriminate|].
  apply bind_Ok in H as (q & Hq & H).
  assert (Hemit : forall b,
            spelling (type (current (set_skipNewlines b q))) = Some s ->
            lexeme (set_skipNewlines b q) (current (set_skipNewlines b q)) = s).
  { intros b. exact (readRawToken_loop_spelling _ _ _ s Hq). }
  destruct (type (current q)); try (simpl in H; inv_Ok H; subst p'; apply Hemit).
  destruct (negb (skipNewlines q)).
  - injection H as <-. apply Hemit.
  - exact (IH _ H).
Qed.

(** X12.  The type of a token tells its text.  For a token [nextToken] has
    made that is a punctuation mark, an operator, a keyword or a newline,
    the characters of the source between [start] and [end] are the mark,
    the operator or the keyword itself: a keyword is recognised as a whole
    word only, and comments and blanks are never part of a token. *)
Theorem tokens_spell_themselves p p' s :
  nextToken p = Ok p' ->
  spelling (type (current p')) = Some s ->
  lexeme p' (current p') = s.
Proof. unfold nextToken. apply nextToken_loop_spelling. Qed.

(** ** String tokens *)

Lemma readString_loop_text fuel p p' :
  readString_loop fuel p = Ok p' ->
  exists text,
    drop (currentChar p) (source p) = text ++ quote :: drop (currentChar p') (source p) /\
    (forall c, In c text -> c <> quote) /\
    currentChar p' = currentChar p + length text + 1.
Proof.
  revert p. induction fuel as [|fuel IH]; intros p H; simpl in H; [discriminate|].
  apply bind_Ok in H as ([c p1] & H1 & H).
  apply nextChar_Ok in H1 as [Hc ->].
  assert (Hsrc : source p !! currentChar p = Some c).
  { unfold peekChar, charAt in Hc.
    destruct (source p !! currentChar p) as [x|] eqn:E; [congruence|].
    exfalso. destruct (decide _) as [Hend|]; [|discriminate Hc].
    injection Hc as <-. simpl in H.
    destruct fuel as [|fuel]; [discriminate H|]. simpl in H.
    unfold nextChar, peekChar, charAt in H. simpl in H.
    rewrite lookup_ge_None_2 in H by lia.
    destruct (decide _); [lia | discriminate H]. }
  pose proof (drop_S _ _ _ Hsrc) as Hdrop.
  destruct (c == quote) eqn:Q; simpl in H.
  - apply Ascii.eqb_eq in Q. subst c. injection H as <-. exists []. simpl.
    rewrite Hdrop, Nat.add_1_r. split; [reflexivity|]. split; [contradiction | lia].
  - apply IH in H as (text & Ht & Hq & Hn). simpl in Ht, Hn.
    exists (c :: text). simpl. rewrite Hdrop. rewrite <- Nat.add_1_r, Ht.
    split; [reflexivity|]. split; [|lia].
    intros x [<- | Hx]; [|apply Hq; exact Hx].
    intros ->. discriminate Q.
Qed.

Lemma readName_not_string p p' :
  readName p = Ok p' -> type (current p') <> TOKEN_STRING.
Proof.
  unfold readName. intros H. apply bind_Ok in H as (q & _ & H).
  injection H as <-. simpl.
  repeat match goal with
  | |- context [if ?b then _ else _] => destruct b
  end; discriminate.
Qed.

Lemma readRawToken_loop_string fuel p p' :
  readRawToken_loop fuel p = Ok p' ->
  type (current p') = TOKEN_STRING ->
  exists text,
    lexeme p' (current p') = quote :: text ++ [quote] /\
    (forall c, In c text -> c <> quote).
Proof.
  revert p. induction fuel as [|fuel IH]; intros p H; simpl in H; [discriminate|].
  apply bind_Ok in H as (c0 & Hc0 & H).
  destruct (c0 == NUL) eqn:N.
  { injection H as <-. discriminate. }
  assert (Hsrc : source p !! currentChar p = Some c0).
  { apply charAt_Some; [exact Hc0|]. intros ->. discriminate N. }
  apply bind_Ok in H as ([c p1] & H1 & H).
  apply nextChar_Ok in H1 as [Hc ->].
  assert (c = c0) as ->.
  { unfold peekChar, charAt in Hc. simpl in Hc. rewrite Hsrc in Hc. congruence. }
  clear Hc.
  inv_Ok H; try (subst p'; discriminate).
  all: try match goal with
  | H : readRawToken_loop _ _ = Ok _ |- _ => exact (IH _ H)
  | H : readNumber _ = Ok _ |- _ =>
      apply readNumber_lexed in H as [_ ->]; discriminate
  | H : readName _ = Ok _ |- _ =>
      apply readName_not_string in H; intros; contradiction
  | H : oneOrTwo _ _ _ _ = Ok _ |- _ =>
      apply oneOrTwo_token in H as (q & _ & [-> | ->]); discriminate
  end.
  match goal with Q : (c0 == quote) = true |- _ => apply Ascii.eqb_eq in Q; subst c0 end.
  intros _. unfold readString in H. apply bind_Ok in H as (q & Hq & H).
  injection H as <-.
  pose proof (readString_loop_moved _ _ _ Hq) as M.
  apply readString_loop_text in Hq as (text & Ht & Hquote & Hn).
  simpl in Ht, Hn. exists text. split; [|exact Hquote].
  unfold lexeme. simpl. rewrite (moved_tokenStart _ _ M). simpl.
  rewrite M. simpl. rewrite (drop_S _ _ _ Hsrc), <- Nat.add_1_r, Ht, Hn.
  replace (currentChar p + 1 + length text + 1 - currentChar p)
    with (S (length (text ++ [quote]))) by (rewrite length_app; simpl; lia).
  simpl. f_equal.
  match goal with
  | |- take _ (text ++ quote :: ?r) = _ =>
      replace (text ++ quote :: r) with ((text ++ [quote]) ++ r)
        by (rewrite <- app_assoc; reflexivity)
  end.
  apply take_app_length.
Qed.

Lemma nextToken_loop_string fuel p p' :
  nextToken_loop fuel p = Ok p' ->
  type (current p') = TOKEN_STRING ->
  exists text,
    lexeme p' (current p') = quote :: text ++ [quote] /\
    (forall c, In c text -> c <> quote).
Proof.
  revert p. induction fuel as [|fuel IH]; intros p H; simpl in H; [discriminate|].
  apply bind_Ok in H as (q & Hq & H).
  assert (Hemit : forall b,
            type (current (set_skipNewlines b q)) = TOKEN_STRING ->
            exists text,
              lexeme (set_skipNewlines b q) (current (set_skipNewlines b q)) =
                quote :: text ++ [quote] /\
              (forall c, In c text -> c <> quote)).
  { intros b. exact (readRawToken_loop_string _ _ _ Hq). }
  destruct (type (current q)); try (simpl in H; inv_Ok H; subst p'; apply Hemit).
  destruct (negb (skipNewlines q)).
  - injection H as <-. apply Hemit.
  - exact (IH _ H).
Qed.

(** X13.  A string token has both its quotes.  The text of a STRING token
    that [nextToken] has made is a double quote, characters none of which is
    a double quote, and a double quote: the literal ends at the first quote
    after the opening one, whatever is before it (a backslash does not
    escape), and the token is at least two characters long, which is what
    [string] relies on when it drops the quotes. *)
Theorem string_token_is_quoted p p' :
  nextToken p = Ok p' ->
  type (current p') = TOKEN_STRING ->
  exists text,
    lexeme p' (current p') = quote :: text ++ [quote] /\
    (forall c, In c text -> c <> quote) /\
    end_ (current p') - start (current p') = length text + 2.
Proof.
  intros H Hty.
  pose proof (nextToken_advanced _ _ H) as A.
  pose proof (nextToken_tokenized _ _ H) as T.
  unfold nextToken in H.
  destruct (nextToken_loop_string _ _ _ H Hty) as (text & Hlex & Hq).
  exists text. split; [exact Hlex|]. split; [exact Hq|].
  apply (f_equal (@length ascii)) in Hlex. unfold lexeme in Hlex.
  rewrite length_take, length_drop in Hlex. simpl in Hlex.
  rewrite length_app in Hlex. simpl in Hlex.
  pose proof (advanced_le _ _ A) as Hle.
  pose proof (advanced_source _ _ A) as Hsrc.
  destruct (advanced_token _ _ A) as [E|Hlt]; [congruence|].
  pose proof (tokenized_end _ _ T) as Hend.
  pose proof (tokenized_ge _ _ T) as Hge.
  rewrite Hsrc in Hlex. lia.
Qed.

(** ** Comments that are never closed *)

Lemma skipBlockComment_loop_open fuel nesting p :
  0 < nesting ->
  currentChar p <= length (source p) ->
  length (source p) - currentChar p < fuel ->
  (forall i, currentChar p <= i ->
     ~ (source p !! i = Some "*" /\ source p !! (i + 1) = Some "/")) ->
  exists n, skipBlockComment_loop fuel nesting p = Ok (set_currentChar n p) /\
            charAt p n = Ok NUL.
Proof.
  revert nesting p. induction fuel as [|fuel IH]; intros nesting p Hn Hle Hf Hopen;
    [lia|].
  simpl. destruct (decide (0 < nesting)) as [_|N]; [|contradiction].
  destruct (charAt_defined p (currentChar p) Hle) as [c Hc].
  unfold peekChar at 1. rewrite Hc. cbn [bind].
  destruct (c == NUL) eqn:N.
  { apply Ascii.eqb_eq in N. subst c. exists (currentChar p).
    rewrite set_currentChar_same. auto. }
  assert (Hlt : currentChar p < length (source p)).
  { apply charAt_lt in Hc; [exact Hc|]. intros ->. discriminate N. }
  assert (Hrec : forall k m, 0 < m -> 0 < k ->
            currentChar p + k <= length (source p) ->
            exists n, skipBlockComment_loop fuel m
                        (set_currentChar (currentChar p + k) p) =
                      Ok (set_currentChar n p) /\ charAt p n = Ok NUL).
  { intros k m Hm Hk Hk'.
    destruct (IH m (set_currentChar (currentChar p + k) p)) as (n & Hr & Hnul);
      simpl; try lia.
    - intros i Hi. apply Hopen. lia.
    - exists n. split; [exact Hr | exact Hnul]. }
  destruct (peekBoth_defined p "/" (fun c' => c' == "*") Hle) as [opening Ho].
  rewrite Ho. cbn [bind]. destruct opening.
  { destruct (peekBoth_next _ _ _ Ho ltac:(discriminate)) as (c' & Hc' & Q).
    apply Ascii.eqb_eq in Q. subst c'.
    apply charAt_lt in Hc'; [|discriminate].
    unfold nextChar, peekChar. rewrite Hc. cbn [bind]. simpl.
    destruct (charAt_defined (set_currentChar (currentChar p + 1) p)
                (currentChar p + 1)) as [c2 ->]; [simpl; lia|]. cbn [bind].
    replace (currentChar p + 1 + 1) with (currentChar p + 2) by lia.
    apply Hrec; lia. }
  destruct (peekBoth_defined p "*" (fun c' => c' == "/") Hle) as [closing Hcl].
  rewrite Hcl. cbn [bind]. destruct closing.
  { exfalso. apply (Hopen (currentChar p) (Nat.le_refl _)).
    pose proof (peekBoth_true _ _ _ Hcl) as Hstar.
    destruct (peekBoth_next _ _ _ Hcl ltac:(discriminate)) as (c' & Hc' & Q).
    apply Ascii.eqb_eq in Q. subst c'.
    split; apply charAt_Some; try assumption; discriminate. }
  unfold nextChar, peekChar. rewrite Hc. cbn [bind].
  apply Hrec; lia.
Qed.

(** X14.  A block comment that is never closed ends the file without a
    word.  When the source has [/*] at the cursor and no [*/] after it,
    [nextToken] returns with the end of the file as the lookahead; nothing
    is reported, and the newlines of the comment are not counted: the line
    number is the one the comment started on. *)
Theorem unterminated_comment_ends_file p :
  source p !! currentChar p = Some "/" ->
  source p !! (currentChar p + 1) = Some "*" ->
  (forall i, currentChar p + 2 <= i ->
     ~ (source p !! i = Some "*" /\ source p !! (i + 1) = Some "/")) ->
  exists p',
    nextToken p = Ok p' /\
    type (current p') = TOKEN_EOF /\
    hasError p' = hasError p /\
    stderr p' = stderr p /\
    currentLine p' = currentLine p /\
    line (current p') = currentLine p.
Proof.
  intros H0 H1 Hopen.
  pose proof (lookup_lt_Some _ _ _ H1) as Hlen.
  unfold nextToken, charsLeft. cbn [nextToken_loop].
  unfold readRawToken, charsLeft. simpl.
  replace (length (source p) - currentChar p)
    with (S (length (source p) - currentChar p - 1)) by lia.
  cbn [readRawToken_loop].
  unfold peekChar, charAt. simpl. rewrite H0. cbn [bind]. simpl.
  unfold nextChar, peekChar, charAt. simpl. rewrite H0. cbn [bind]. simpl.
  rewrite H1. cbn [bind]. simpl.
  unfold skipBlockComment. unfold nextChar at 1. unfold peekChar at 1.
  unfold charAt at 1.
  cbn [source currentChar set_currentChar set_tokenStart set_previous].
  rewrite H1. cbn [bind].
  match goal with
  | |- context [skipBlockComment_loop ?fuel ?nesting ?q] =>
      destruct (skipBlockComment_loop_open fuel nesting q) as (n & -> & Hnul)
  end.
  { lia. }
  { simpl. lia. }
  { unfold charsLeft. simpl. lia. }
  { simpl. intros i Hi. apply Hopen. lia. }
  cbn [bind].
  destruct (length (source p) - currentChar p - 1) eqn:Hfuel; [lia|].
  cbn [readRawToken_loop]. unfold peekChar. simpl in Hnul |- *.
  unfold charAt in Hnul |- *. simpl in Hnul |- *.
  rewrite Hnul. cbn [bind]. simpl.
  eexists. split; [reflexivity|]. simpl. auto.
Qed.

(** ** Function literals *)

Section Functions.
Context {ops : Opcodes}.

Lemma declareVariable_fn c p s c' p' :
  declareVariable c p = Ok (s, c', p') -> fn c' = fn c /\ numCodes c' = numCodes c.
Proof.
  unfold declareVariable. intros H. apply bind_Ok in H as (q & _ & H).
  destruct (parent c); injection H as _ <- _; auto.
Qed.

Lemma parameterList_fn n c p name c' p' name' :
  parameterList n c p name = Ok (c', p', name') ->
  fn c' = fn c /\ numCodes c' = numCodes c.
Proof.
  unfold parameterList. intros H.
  apply bind_Ok in H as ([paren p1] & _ & H).
  destruct paren; [|injection H as <- _ _; auto].
  apply bind_Ok in H as ([[c2 p2] name2] & Hl & H).
  apply bind_Ok in H as (p3 & _ & H). injection H as <- _ _.
  clear - Hl. revert c p1 name Hl.
  induction n as [|n IH]; intros c p1 name Hl; simpl in Hl; [discriminate Hl|].
  apply bind_Ok in Hl as ([[s c1] q1] & Hd & Hl).
  apply declareVariable_fn in Hd as [Hf Hn].
  apply bind_Ok in Hl as (name1 & _ & Hl).
  apply bind_Ok in Hl as ([comma q2] & _ & Hl).
  destruct comma.
  - apply IH in Hl as [? ?]. split; congruence.
  - injection Hl as <- _ _. auto.
Qed.

(** X15.  A function literal is one constant of the enclosing function.
    When [function] returns, the enclosing code has grown by two bytes only,
    [CONSTANT] and the index of a new constant; this constant is the
    function object of the literal, whose own code ends with [END]. *)
Theorem function_literal_constant n c p allowAssignment c' p' :
  function n c p allowAssignment = Ok (c', p') ->
  numConstants (fn c') = numConstants (fn c) + 1 /\
  (exists body pool count,
     cell NULL_VAL (constants (fn c')) (numConstants (fn c)) =
       OBJ_VAL (ObjFunction body pool count) /\
     last body = Some (toByte CODE_END)) /\
  numCodes c' = numCodes c + 2 /\
  cell 0%Z (bytecode (fn c')) (numCodes c) = toByte CODE_CONSTANT /\
  cell 0%Z (bytecode (fn c')) (numCodes c + 1) =
    toByte (Z.of_nat (numConstants (fn c))) /\
  (forall i, i < numCodes c ->
     cell 0%Z (bytecode (fn c')) i = cell 0%Z (bytecode (fn c)) i).
Proof.
  intros H. destruct n as [|n]; [discriminate H|].
  grammar_step H.
  destruct (addConstant c _) as [constant c1] eqn:Ha.
  apply bind_Ok in H as ([[f1 p1] name1] & Hp & H).
  apply parameterList_fn in Hp as [Hfn Hnum]. simpl in Hfn, Hnum.
  apply bind_Ok in H as ([brace p2] & _ & H).
  apply bind_Ok in H as ([f2 p3] & Hbody & H).
  assert (Hext : extends f1 f2).
  { destruct (grammar_extends n) as
      (_ & _ & _ & _ & _ & _ & Kb & _ & _ & _ & _ & _ & Ke & _).
    destruct brace; [apply Kb in Hbody | apply Ke in Hbody]; apply Hbody. }
  pose proof (extends_length _ _ Hext) as Hlen.
  rewrite Hfn, Hnum in Hlen. specialize (Hlen eq_refl).
  unfold addConstant in Ha. injection Ha as <- <-.
  unfold emit, completeConstant in H. simpl in H. injection H as <- <-. simpl.
  split; [reflexivity|]. split.
  { eexists _, _, _. rewrite cell_store_eq. split; [reflexivity|]. simpl.
    rewrite <- Hlen, store_end. apply last_snoc. }
  split; [lia|]. split.
  { rewrite cell_store_ne by lia. apply cell_store_eq. }
  split.
  { rewrite cell_store_eq. f_equal. lia. }
  intros i Hi. rewrite !cell_store_ne by lia. reflexivity.
Qed.
End Functions.

(** ** Reserved words *)

Lemma readName_name p p' :
  readName p = Ok p' ->
  type (current p') = TOKEN_NAME ->
  exists q, moved p q /\ p' = makeToken q TOKEN_NAME /\
    forall t, In t [TOKEN_CLASS; TOKEN_ELSE; TOKEN_FALSE; TOKEN_FN; TOKEN_IF;
                    TOKEN_IS; TOKEN_NULL; TOKEN_STATIC; TOKEN_THIS; TOKEN_TRUE;
                    TOKEN_VAR] ->
      spelling t <> Some (tokenText q).
Proof.
  unfold readName. intros H. apply bind_Ok in H as (q & Hq & H).
  apply advanceWhile_loop_moved in Hq. injection H as <-. simpl.
  repeat match goal with
  | |- context [if isKeyword q ?k then _ else _] =>
      let K := fresh "K" in
      destruct (isKeyword q k) eqn:K;
      [ intros Hty; discriminate Hty | apply bool_decide_eq_false_1 in K ]
  end.
  intros _. exists q. split; [exact Hq|]. split; [reflexivity|].
  intros t Ht. simpl in Ht.
  repeat (destruct Ht as [<- | Ht]; [cbn [spelling]; congruence|]). contradiction.
Qed.

Lemma readRawToken_loop_name fuel p p' :
  readRawToken_loop fuel p = Ok p' ->
  type (current p') = TOKEN_NAME ->
  (exists c rest, lexeme p' (current p') = c :: rest /\ isName c = true) /\
  forall t, In t [TOKEN_CLASS; TOKEN_ELSE; TOKEN_FALSE; TOKEN_FN; TOKEN_IF;
                  TOKEN_IS; TOKEN_NULL; TOKEN_STATIC; TOKEN_THIS; TOKEN_TRUE;
                  TOKEN_VAR] ->
    spelling t <> Some (lexeme p' (current p')).
Proof.
  revert p. induction fuel as [|fuel IH]; intros p H; simpl in H; [discriminate|].
  apply bind_Ok in H as (c0 & Hc0 & H).
  destruct (c0 == NUL) eqn:N.
  { injection H as <-. discriminate. }
  assert (Hsrc : source p !! currentChar p = Some c0).
  { apply charAt_Some; [exact Hc0|]. intros ->. discriminate N. }
  apply bind_Ok in H as ([c p1] & H1 & H).
  apply nextChar_Ok in H1 as [Hc ->].
  assert (c = c0) as ->.
  { unfold peekChar, charAt in Hc. simpl in Hc. rewrite Hsrc in Hc. congruence. }
  clear Hc.
  inv_Ok H; try (subst p'; discriminate).
  all: try match goal with
  | H : readRawToken_loop _ _ = Ok _ |- _ => exact (IH _ H)
  | H : readNumber _ = Ok _ |- _ =>
      apply readNumber_lexed in H as [_ ->]; discriminate
  | H : readString _ = Ok _ |- _ =>
      apply readString_lexed in H as [_ ->]; discriminate
  | H : oneOrTwo _ _ _ _ = Ok _ |- _ =>
      apply oneOrTwo_token in H as (q & _ & [-> | ->]); discriminate
  end.
  intros Hty. pose proof (readName_lexed _ _ H) as L.
  destruct (readName_name _ _ H Hty) as (q & M & -> & Hkw).
  apply lexed_of_makeToken in L. pose proof (lexed_ge _ _ L) as Hge.
  simpl in Hge.
  assert (Htext : lexeme (makeToken q TOKEN_NAME) (current (makeToken q TOKEN_NAME))
                  = tokenText q).
  { unfold lexeme, tokenText. simpl. reflexivity. }
  rewrite Htext. split; [|exact Hkw].
  unfold tokenText. rewrite (moved_tokenStart _ _ M). rewrite M. simpl.
  rewrite (drop_S _ _ _ Hsrc).
  destruct (currentChar q - currentChar p) as [|k] eqn:Hk; [lia|].
  simpl. eauto.
Qed.

Lemma nextToken_loop_name fuel p p' :
  nextToken_loop fuel p = Ok p' ->
  type (current p') = TOKEN_NAME ->
  (exists c rest, lexeme p' (current p') = c :: rest /\ isName c = true) /\
  forall t, In t [TOKEN_CLASS; TOKEN_ELSE; TOKEN_FALSE; TOKEN_FN; TOKEN_IF;
                  TOKEN_IS; TOKEN_NULL; TOKEN_STATIC; TOKEN_THIS; TOKEN_TRUE;
                  TOKEN_VAR] ->
    spelling t <> Some (lexeme p' (current p')).
Proof.
  revert p. induction fuel as [|fuel IH]; intros p H; simpl in H; [discriminate|].
  apply bind_Ok in H as (q & Hq & H).
  assert (Hemit : forall b,
    type (current (set_skipNewlines b q)) = TOKEN_NAME ->
    (exists c rest,
       lexeme (set_skipNewlines b q) (current (set_skipNewlines b q)) = c :: rest /\
       isName c = true) /\
    forall t, In t [TOKEN_CLASS; TOKEN_ELSE; TOKEN_FALSE; TOKEN_FN; TOKEN_IF;
                    TOKEN_IS; TOKEN_NULL; TOKEN_STATIC; TOKEN_THIS; TOKEN_TRUE;
                    TOKEN_VAR] ->
      spelling t <>
        Some (lexeme (set_skipNewlines b q) (current (set_skipNewlines b q)))).
  { intros b. exact (readRawToken_loop_name _ _ _ Hq). }
  destruct (type (current q)); try (simpl in H; inv_Ok H; subst p'; apply Hemit).
  destruct (negb (skipNewlines q)).
  - injection H as <-. apply Hemit.
  - exact (IH _ H).
Qed.

(** X16.  Keywords are reserved.  The text of a NAME token that [nextToken]
    has made starts with a letter or an underscore and is not the text of
    any other kind of token: not a keyword, and not a punctuation mark or
    an operator either. *)
Theorem names_are_not_keywords p p' :
  nextToken p = Ok p' ->
  type (current p') = TOKEN_NAME ->
  (exists c rest, lexeme p' (current p') = c :: rest /\ isName c = true) /\
  forall t, spelling t <> Some (lexeme p' (current p')).
Proof.
  unfold nextToken. intros H Hty.
  destruct (nextToken_loop_name _ _ _ H Hty) as [(c & rest & Hlex & Hc) Hkw].
  split; [eauto|]. intros t Hs.
  assert (Hin : In t [TOKEN_CLASS; TOKEN_ELSE; TOKEN_FALSE; TOKEN_FN; TOKEN_IF;
                      TOKEN_IS; TOKEN_NULL; TOKEN_STATIC; TOKEN_THIS; TOKEN_TRUE;
                      TOKEN_VAR] \/
                exists x more, spelling t = Some (x :: more) /\ isName x = false).
  { destruct t; simpl in Hs |- *; try discriminate Hs; auto 20;
      right; eexists _, _; split; reflexivity. }
  destruct Hin as [Hin | (x & more & Hx & Hn)].
  - exact (Hkw t Hin Hs).
  - rewrite Hx, Hlex in Hs. injection Hs as -> _. congruence.
Qed.

(** ** [consume] *)

(** C9, amended.  [consume] runs [nextToken] exactly once, whatever the type
    of the token, and the bound on the loops of the lexer is never what
    stops it.  When it returns, the token that was the lookahead has become
    [previous], whether or not its type is the expected one, and the new
    lookahead is a token read after the old cursor, up to the new one.
    When the old lookahead was not the end of the file the stream has
    advanced: what is left to parse has strictly decreased.  At the end of
    the file it has not: the EOF token is consumed and made again at the
    same place, so a step that finds EOF where it expects something else
    leaves it to be examined by the next step.  On a mismatch [hasError] is
    set and one line about the consumed token is printed; on a match
    nothing is reported. *)
Theorem consume_advances_one_token p expected message :
  consume p expected message <> OutOfFuel /\
  forall p', consume p expected message = Ok p' ->
  (exists p1,
     nextToken p = Ok p1 /\
     current p' = current p1 /\
     currentChar p' = currentChar p1 /\
     skipNewlines p' = skipNewlines p1 /\
     (type (current p) = expected -> p' = p1)) /\
  previous p' = current p /\
  source p' = source p /\
  currentChar p <= start (current p') /\
  start (current p') <= end_ (current p') /\
  end_ (current p') = currentChar p' /\
  (type (current p') <> TOKEN_EOF -> start (current p') < end_ (current p')) /\
  (type (current p) <> TOKEN_EOF -> measure p' < measure p) /\
  (type (current p) = TOKEN_EOF -> peekChar p = Ok NUL ->
     type (previous p') = TOKEN_EOF /\
     type (current p') = TOKEN_EOF /\
     start (current p') = currentChar p /\
     currentChar p' = currentChar p /\
     measure p' = measure p) /\
  (type (current p) = expected ->
     hasError p' = hasError p /\ stderr p' = stderr p) /\
  (type (current p) <> expected ->
     hasError p' = true /\
     stderr p' = stderr p ++
       [{| diag_line := line (current p);
           diag_lexeme := lexeme p (current p);
           diag_message := message |}]).
Proof.
  split.
  { unfold consume. apply bind_not_OutOfFuel; [apply nextToken_fuel|].
    intros a _. destruct (decide _); discriminate. }
  unfold consume. intros p' H. apply bind_Ok in H as (p1 & H1 & H).
  pose proof (nextToken_advanced _ _ H1) as A.
  pose proof (nextToken_tokenized _ _ H1) as T.
  pose proof (nextToken_measure _ _ H1) as [_ Hlt].
  pose proof (advanced_previous _ _ A) as Hprev.
  assert (Hshape : current p' = current p1 /\ currentChar p' = currentChar p1 /\
                   skipNewlines p' = skipNewlines p1 /\ previous p' = previous p1 /\
                   source p' = source p1 /\ measure p' = measure p1).
  { destruct (decide _); injection H as <-; repeat split. }
  destruct Hshape as (Hc & Hcc & Hsk & Hpr & Hsrc & Hm).
  split.
  { exists p1. repeat split; try assumption.
    intros E. destruct (decide _) as [N|_]; [|injection H as <-; reflexivity].
    rewrite Hprev in N. contradiction. }
  rewrite Hc, Hcc, Hpr, Hsrc, Hm.
  split; [exact Hprev|].
  split; [exact (advanced_source _ _ A)|].
  split; [exact (tokenized_ge _ _ T)|].
  split.
  { destruct (decide (type (current p1) = TOKEN_EOF)) as [E|N].
    - apply (tokenized_eof _ _ T) in E as [_ E]. lia.
    - apply (tokenized_token _ _ T) in N. lia. }
  split; [exact (tokenized_end _ _ T)|].
  split; [exact (tokenized_token _ _ T)|].
  split; [exact Hlt|].
  split.
  { intros E Hnul. rewrite (nextToken_at_NUL _ Hnul) in H1. injection H1 as <-.
    unfold measure. simpl. rewrite E.
    repeat split; try reflexivity. }
  split.
  - intros E. destruct (decide _) as [N|_].
    + rewrite Hprev in N. contradiction.
    + injection H as <-. split; [apply (advanced_hasError _ _ A)|apply (advanced_stderr _ _ A)].
  - intros N. destruct (decide _) as [_|Y].
    + injection H as <-. simpl. split; [reflexivity|].
      unfold lexeme.
      rewrite Hprev, (advanced_stderr _ _ A), (advanced_source _ _ A).
      reflexivity.
    + exfalso. apply N. rewrite <- Hprev.
      destruct (decide (type (previous p1) = expected)); [assumption|contradiction].
Qed.

(** ** The lexer does not look at the VM *)

Lemma bind_ext {A B} (m : outcome A) (k k' : A -> outcome B) :
  (forall a, m = Ok a -> k a = k' a) -> bind m k = bind m k'.
Proof. destruct m; simpl; auto. Qed.

Section LexerFrame.
Variable v : VM.


Lemma set_vm_currentChar n p :
  set_currentChar n (set_vm v p) = set_vm v (set_currentChar n p).
Proof. reflexivity. Qed.

Lemma set_vm_currentLine n p :
  set_currentLine n (set_vm v p) = set_vm v (set_currentLine n p).
Proof. reflexivity. Qed.

Lemma set_vm_previous t p :
  set_previous t (set_vm v p) = set_vm v (set_previous t p).
Proof. reflexivity. Qed.

Lemma set_vm_skipNewlines b p :
  set_skipNewlines b (set_vm v p) = set_vm v (set_skipNewlines b p).
Proof. reflexivity. Qed.

Lemma set_vm_makeToken t p : makeToken (set_vm v p) t = set_vm v (makeToken p t).
Proof. reflexivity. Qed.

Lemma set_vm_error p message : error (set_vm v p) message = set_vm v (error p message).
Proof. reflexivity. Qed.



















End LexerFrame.

(** ** The second of two runs *)















(** *** The symbol tables *)





(** A table that has not grown had the name. *)
Lemma addSymbol_same symbols name :
  snd (addSymbol symbols name) = symbols -> fst (addSymbol symbols name) = (-1)%Z.
Proof.
  unfold addSymbol. destruct (decide _); simpl; [|reflexivity].
  intros H. apply (f_equal length) in H. rewrite length_app in H. simpl in H. lia.
Qed.

(** *** The steps that touch the VM *)






Section Leaves.
Context {ops : Opcodes}.
Variable V : VM.









End Leaves.

(** *** The functions of the grammar *)

Section GrammarReplay.
Context {ops : Opcodes}.
Variable V : VM.


Ltac split_tuple a :=
  let T := type of a in
  let T' := eval hnf in T in
  lazymatch T' with
  | prod _ _ =>
      let x := fresh "x" in let y := fresh "y" in
      destruct a as [x y]; split_tuple x
  | _ => idtac
  end.




End GrammarReplay.

Section Twice.
Context {ops : Opcodes}.





End Twice.

(** * Examples

    The theorems above at concrete inputs, and the inputs at which the code
    departs from the specification.  The opcodes are numbered by
    [example_opcodes]; the VM starts with empty symbol tables. *)

#[local] Existing Instance example_opcodes.

(** C1 at [1 + 2]: [compile] gives a function, whose last byte is [END]. *)
Lemma compile_result_witness :
  compile (ops := example_opcodes) 30 emptyVM (list_ascii_of_string "1 + 2") =
    Ok (Some (fn (fst (compiled "1 + 2"))), vm (snd (compiled "1 + 2"))) /\
  last (bytecode (fn (fst (compiled "1 + 2")))) = Some (toByte CODE_END).
Proof.
  assert (H : compile (ops := example_opcodes) 30 emptyVM
                (list_ascii_of_string "1 + 2") =
              Ok (Some (fn (fst (compiled "1 + 2"))), vm (snd (compiled "1 + 2"))))
    by (vm_compute; reflexivity).
  split; [exact H|].
  destruct (compile_result (ops := example_opcodes) emptyVM
              (list_ascii_of_string "1 + 2")) as [_ Hresult].
  destruct (Hresult _ _ _ H) as (c & p & _ & _ & _ & _ & Hlast).
  exact (proj2 (Hlast _ eq_refl)).
Defined.

(** C2: the empty source does not compile.  [compile] returns NULL, after
    the diagnostic "No prefix parser.". *)
Lemma empty_source_is_rejected :
  (forall c, In c [] -> blank c) /\
  compile (ops := example_opcodes) (enoughFuel []) emptyVM [] =
    Ok (None, emptyVM) /\
  map diag_message (stderr (snd (compiled ""))) = ["No prefix parser."%string] /\
  ~ exists f machine',
      compile (ops := example_opcodes) (enoughFuel []) emptyVM [] =
        Ok (Some f, machine').
Proof.
  split; [intros c []|].
  split; [vm_compute; reflexivity|].
  split; [vm_compute; reflexivity|].
  intros (f & machine' & H). vm_compute in H. discriminate H.
Qed.

(** C2, amended, at a space, a newline and a space. *)
Lemma blank_source_fails_witness :
  (forall c, In c [" "; newline; " "] -> blank c) /\
  compile (ops := example_opcodes) 6 emptyVM [" "; newline; " "] =
    Ok (None, emptyVM).
Proof.
  assert (H : forall c, In c [" "; newline; " "] -> blank c).
  { intros c [<-|[<-|[<-|[]]]]; [left|right|left]; reflexivity. }
  split; [exact H|].
  destruct (blank_source_fails (ops := example_opcodes) emptyVM _ 6 H) as [Hc _];
    [lia | exact Hc].
Defined.

(** C3: in [1 - -true] the prefix [-] is compiled to [CALL_0 0], and 0 is
    the symbol of the one-character name; the name [- ] of the infix
    operator has the symbol 1. *)
Lemma prefix_minus_symbol_is_not_mixed :
  compile_frame (ops := example_opcodes) (enoughFuel (list_ascii_of_string "1 - -true"))
    emptyVM (list_ascii_of_string "1 - -true") = Ok (compiled "1 - -true") /\
  hasError (snd (compiled "1 - -true")) = false /\
  bytecode (fn (fst (compiled "1 - -true"))) =
    [toByte CODE_CONSTANT; 0; toByte CODE_TRUE; toByte CODE_CALL_0; 0;
     toByte CODE_CALL_1; 1; toByte CODE_END]%Z /\
  methods (vm (snd (compiled "1 - -true"))) =
    [list_ascii_of_string "-"; list_ascii_of_string "- "] /\
  findSymbol (methods (vm (snd (compiled "1 - -true")))) (list_ascii_of_string "- ")
    = 1%Z /\
  cell 0%Z (bytecode (fn (fst (compiled "1 - -true")))) 4 <>
    toByte (findSymbol (methods (vm (snd (compiled "1 - -true"))))
                       (list_ascii_of_string "- ")).
Proof.
  repeat match goal with
  | |- _ /\ _ => split; [vm_compute; reflexivity|]
  end.
  vm_compute. discriminate.
Qed.

(** C3, amended, at [-true]. *)
Lemma unaryOp_minus_symbol_witness :
  type (previous afterMinus) = TOKEN_MINUS /\
  unaryOp (ops := example_opcodes) 20 (initCompiler None false) afterMinus false =
    Ok (resultOf (initCompiler None false, afterMinus)
          (unaryOp (ops := example_opcodes) 20 (initCompiler None false)
             afterMinus false)) /\
  cell 0%Z
    (bytecode (fn (fst (resultOf (initCompiler None false, afterMinus)
          (unaryOp (ops := example_opcodes) 20 (initCompiler None false)
             afterMinus false))))) 1 = toByte CODE_CALL_0.
Proof.
  assert (Hminus : type (previous afterMinus) = TOKEN_MINUS)
    by (vm_compute; reflexivity).
  assert (H : unaryOp (ops := example_opcodes) 20 (initCompiler None false)
                afterMinus false =
              Ok (fst (resultOf (initCompiler None false, afterMinus)
                         (unaryOp (ops := example_opcodes) 20
                            (initCompiler None false) afterMinus false)),
                  snd (resultOf (initCompiler None false, afterMinus)
                         (unaryOp (ops := example_opcodes) 20
                            (initCompiler None false) afterMinus false))))
    by (vm_compute; reflexivity).
  split; [exact Hminus|]. split; [vm_compute; reflexivity|].
  destruct (unaryOp_minus_symbol (ops := example_opcodes) _ _ _ _ _ _ Hminus H)
    as (_ & Hcall & _).
  exact Hcall.
Defined.

(** C4: an [if] whose branch is 259 bytes long, a condition followed by 128
    prefix [!].  The [JUMP_IF] is at offset 1 and the code of the else
    branch starts at offset 262, so the distance to patch into the operand
    at offset 2 is 259; the byte that [statement] leaves there is 3, and the
    jump lands inside the branch. *)
Lemma long_branch_jump_wraps :
  compile_frame (ops := example_opcodes) (enoughFuel (list_ascii_of_string longBranch))
    emptyVM (list_ascii_of_string longBranch) = Ok (compiled longBranch) /\
  hasError (snd (compiled longBranch)) = false /\
  cell 0%Z (bytecode (fn (fst (compiled longBranch)))) 1 = toByte CODE_JUMP_IF /\
  cell 0%Z (bytecode (fn (fst (compiled longBranch)))) 260 = toByte CODE_JUMP /\
  cell 0%Z (bytecode (fn (fst (compiled longBranch)))) 262 = toByte CODE_NULL /\
  numCodes (fst (compiled longBranch)) = 264 /\
  cell 0%Z (bytecode (fn (fst (compiled longBranch)))) 2 = 3%Z /\
  cell 0%Z (bytecode (fn (fst (compiled longBranch)))) 2 <>
    Z.of_nat (262 - (2 + 1)).
Proof.
  repeat match goal with
  | |- _ /\ _ => split; [vm_compute; reflexivity|]
  end.
  vm_compute. discriminate.
Qed.

(** The operands of the jumps of [if (true) 1 else 2]. *)
Lemma if_jump_operands_witness :
  peek (started "if (true) 1 else 2") = TOKEN_IF /\
  statement (ops := example_opcodes) 40 (initCompiler None false)
    (started "if (true) 1 else 2") =
    Ok (resultOf (initCompiler None false, started "if (true) 1 else 2")
          (statement (ops := example_opcodes) 40 (initCompiler None false)
             (started "if (true) 1 else 2"))) /\
  exists ifJump elseJump,
    cell 0%Z
      (bytecode (fn (fst (resultOf
         (initCompiler None false, started "if (true) 1 else 2")
         (statement (ops := example_opcodes) 40 (initCompiler None false)
            (started "if (true) 1 else 2"))))))
      (ifJump - 1) = toByte CODE_JUMP_IF /\
    cell 0%Z
      (bytecode (fn (fst (resultOf
         (initCompiler None false, started "if (true) 1 else 2")
         (statement (ops := example_opcodes) 40 (initCompiler None false)
            (started "if (true) 1 else 2"))))))
      (elseJump - 1) = toByte CODE_JUMP.
Proof.
  assert (Hif : peek (started "if (true) 1 else 2") = TOKEN_IF)
    by (vm_compute; reflexivity).
  assert (H : statement (ops := example_opcodes) 40 (initCompiler None false)
                (started "if (true) 1 else 2") =
              Ok (fst (resultOf
                    (initCompiler None false, started "if (true) 1 else 2")
                    (statement (ops := example_opcodes) 40
                       (initCompiler None false)
                       (started "if (true) 1 else 2"))),
                  snd (resultOf
                    (initCompiler None false, started "if (true) 1 else 2")
                    (statement (ops := example_opcodes) 40
                       (initCompiler None false)
                       (started "if (true) 1 else 2")))))
    by (vm_compute; reflexivity).
  split; [exact Hif|]. split; [vm_compute; reflexivity|].
  destruct (if_jump_operands (ops := example_opcodes) _ _ _ _ _ Hif H)
    as (ifJump & elseJump & _ & _ & _ & Hi & He & _).
  exists ifJump, elseJump. split; [exact Hi | exact He].
Defined.


(** C6: [fn] is a keyword that must be followed by more tokens, and the
    newline after it is not discarded: in [fn], a newline and [1], the token
    that [nextToken] emits after [fn] is LINE. *)
Lemma newline_after_fn_is_emitted :
  nextToken (initParser emptyVM (list_ascii_of_string fnThenNewline)) =
    Ok (started fnThenNewline) /\
  nextToken (started fnThenNewline) = Ok (next (started fnThenNewline)) /\
  type (current (started fnThenNewline)) = TOKEN_FN /\
  spec_cannotEndExpression (type (current (started fnThenNewline))) = true /\
  type (current (next (started fnThenNewline))) = TOKEN_LINE.
Proof.
  repeat match goal with
  | |- _ /\ _ => split; [vm_compute; reflexivity|]
  end.
  vm_compute. reflexivity.
Qed.

(** The newlines after a [+] are dropped. *)
Lemma nextToken_newlines_witness :
  nextToken (initParser emptyVM (list_ascii_of_string plusThenNewlines)) =
    Ok (started plusThenNewlines) /\
  nextToken (started plusThenNewlines) = Ok (next (started plusThenNewlines)) /\
  type (current (started plusThenNewlines)) = TOKEN_PLUS /\
  type (current (next (started plusThenNewlines))) <> TOKEN_LINE.
Proof.
  assert (H1 : nextToken (initParser emptyVM
                 (list_ascii_of_string plusThenNewlines)) =
               Ok (started plusThenNewlines)) by (vm_compute; reflexivity).
  assert (H2 : nextToken (started plusThenNewlines) =
               Ok (next (started plusThenNewlines))) by (vm_compute; reflexivity).
  assert (Hplus : type (current (started plusThenNewlines)) = TOKEN_PLUS)
    by (vm_compute; reflexivity).
  split; [exact H1|]. split; [exact H2|]. split; [exact Hplus|].
  apply (nextToken_newlines _ _ _ H1 H2).
  right. rewrite Hplus. split; [reflexivity | discriminate].
Defined.

(** C7 at [-1]. *)
Lemma minus_before_digit_witness :
  peekChar (initParser emptyVM ["-"; "1"]) = Ok "-" /\
  charAt (initParser emptyVM ["-"; "1"])
         (currentChar (initParser emptyVM ["-"; "1"]) + 1) = Ok "1" /\
  exists p',
    readRawToken (initParser emptyVM ["-"; "1"]) = Ok p' /\
    type (current p') = TOKEN_NUMBER /\
    start (current p') = 0.
Proof.
  assert (H1 : peekChar (initParser emptyVM ["-"; "1"]) = Ok "-")
    by reflexivity.
  assert (H2 : charAt (initParser emptyVM ["-"; "1"])
                 (currentChar (initParser emptyVM ["-"; "1"]) + 1) = Ok "1")
    by reflexivity.
  split; [exact H1|]. split; [exact H2|].
  destruct (minus_before_digit _ _ H1 H2) as (Hdigit & _).
  destruct (Hdigit eq_refl) as (p' & Hp & Hty & Hstart & _).
  exists p'. split; [exact Hp|]. split; [exact Hty | exact Hstart].
Defined.



(** C9: at the end of the file [consume] does not advance.  In [(] the
    lookahead after the parenthesis is EOF.  [consume] of a [)] reports the
    mismatch and leaves the same EOF token as the lookahead, at the same
    cursor, with as much left to parse; the [consume] of EOF that follows
    examines that token again, and accepts it. *)
Lemma consume_at_end_of_file_stays :
  type (current (next (started "("))) = TOKEN_EOF /\
  exists p1 p2,
    consume (next (started "(")) TOKEN_RIGHT_PAREN
      "Expect ')' after expression." = Ok p1 /\
    hasError p1 = true /\
    current p1 = current (next (started "(")) /\
    currentChar p1 = currentChar (next (started "(")) /\
    measure p1 = measure (next (started "(")) /\
    consume p1 TOKEN_EOF "Expect end of file." = Ok p2 /\
    previous p2 = current (next (started "(")) /\
    stderr p2 = stderr p1.
Proof.
  split; [vm_compute; reflexivity|].
  eexists. eexists.
  repeat match goal with
  | |- _ /\ _ => split; [vm_compute; reflexivity|]
  end.
  vm_compute. reflexivity.
Qed.

(** C9, amended, at [1 2], when a name is expected: the number is consumed,
    the message reported, and less is left to parse. *)
Lemma consume_advances_one_token_witness :
  consume (started "1 2") TOKEN_NAME "Expect name." =
    Ok (resultOf (started "1 2")
          (consume (started "1 2") TOKEN_NAME "Expect name.")) /\
  previous (resultOf (started "1 2")
              (consume (started "1 2") TOKEN_NAME "Expect name.")) =
    current (started "1 2") /\
  measure (resultOf (started "1 2")
             (consume (started "1 2") TOKEN_NAME "Expect name.")) <
    measure (started "1 2") /\
  hasError (resultOf (started "1 2")
              (consume (started "1 2") TOKEN_NAME "Expect name.")) = true.
Proof.
  assert (H : consume (started "1 2") TOKEN_NAME "Expect name." =
              Ok (resultOf (started "1 2")
                    (consume (started "1 2") TOKEN_NAME "Expect name.")))
    by (vm_compute; reflexivity).
  split; [exact H|].
  destruct (consume_advances_one_token (started "1 2") TOKEN_NAME
              "Expect name.") as [_ Hconsume].
  destruct (Hconsume _ H)
    as (_ & Hprevious & _ & _ & _ & _ & _ & Hless & _ & _ & Hmismatch).
  split; [exact Hprevious|].
  split; [apply Hless; vm_compute; discriminate|].
  apply Hmismatch. vm_compute. discriminate.
Defined.

(** C10 at a quote followed by [abc]. *)
Lemma unterminated_string_reads_past_buffer_witness :
  (forall c, In c ["a"; "b"; "c"] -> c <> quote) /\
  compile (ops := example_opcodes) 10 emptyVM (quote :: ["a"; "b"; "c"]) =
    Undefined ReadPastBuffer.
Proof.
  assert (H : forall c, In c ["a"; "b"; "c"] -> c <> quote).
  { intros c [<-|[<-|[<-|[]]]]; discriminate. }
  split; [exact H|].
  destruct (unterminated_string_reads_past_buffer (ops := example_opcodes))
    as [_ Hcompile].
  exact (Hcompile 10 emptyVM _ H).
Defined.

(** X1 at the source [a b]. *)
Lemma nextToken_token_span_witness :
  nextToken (initParser emptyVM ["a"; " "; "b"]) =
    Ok (next (initParser emptyVM ["a"; " "; "b"])) /\
  start (current (next (initParser emptyVM ["a"; " "; "b"]))) <
    end_ (current (next (initParser emptyVM ["a"; " "; "b"]))).
Proof.
  assert (H : nextToken (initParser emptyVM ["a"; " "; "b"]) =
              Ok (next (initParser emptyVM ["a"; " "; "b"])))
    by (vm_compute; reflexivity).
  split; [exact H|].
  destruct (nextToken_token_span (initParser emptyVM ["a"; " "; "b"]))
    as [_ Hspan].
  destruct (Hspan _ H) as (_ & _ & _ & _ & _ & Hlt & _).
  apply Hlt. vm_compute. discriminate.
Defined.

(** X2 at the empty source. *)
Lemma eof_is_sticky_witness :
  nextToken (initParser emptyVM []) = Ok (started "") /\
  type (current (started "")) = TOKEN_EOF /\
  exists p2, nextToken (started "") = Ok p2 /\ type (current p2) = TOKEN_EOF.
Proof.
  assert (H : nextToken (initParser emptyVM []) = Ok (started ""))
    by (vm_compute; reflexivity).
  assert (E : type (current (started "")) = TOKEN_EOF)
    by (vm_compute; reflexivity).
  split; [exact H|]. split; [exact E|].
  destruct (eof_is_sticky _ _ H E) as (p2 & H2 & _ & E2 & _).
  exists p2. split; [exact H2 | exact E2].
Defined.

(** X3 at the source [a b]. *)
Lemma nextToken_reads_inside_buffer_witness :
  exists p', nextToken (initParser emptyVM ["a"; " "; "b"]) = Ok p'.
Proof.
  destruct (nextToken_reads_inside_buffer (initParser emptyVM ["a"; " "; "b"]))
    as (p' & H & _).
  - simpl. lia.
  - simpl. intros i c _ Hc.
    destruct i as [|[|[|i]]]; simpl in Hc; try discriminate Hc;
      injection Hc as <-; discriminate.
  - exists p'. exact H.
Defined.

(** X4 at [if (true) 1 else 2], from the empty frame. *)
Lemma emitted_code_is_final_witness :
  statement (ops := example_opcodes) 40 (initCompiler None false)
    (started "if (true) 1 else 2") =
    Ok (resultOf (initCompiler None false, started "if (true) 1 else 2")
          (statement (ops := example_opcodes) 40 (initCompiler None false)
             (started "if (true) 1 else 2"))) /\
  numCodes (initCompiler None false) <=
    numCodes (fst (resultOf (initCompiler None false, started "if (true) 1 else 2")
          (statement (ops := example_opcodes) 40 (initCompiler None false)
             (started "if (true) 1 else 2")))).
Proof.
  assert (H : statement (ops := example_opcodes) 40 (initCompiler None false)
                (started "if (true) 1 else 2") =
              Ok (fst (resultOf
                    (initCompiler None false, started "if (true) 1 else 2")
                    (statement (ops := example_opcodes) 40
                       (initCompiler None false)
                       (started "if (true) 1 else 2"))),
                  snd (resultOf
                    (initCompiler None false, started "if (true) 1 else 2")
                    (statement (ops := example_opcodes) 40
                       (initCompiler None false)
                       (started "if (true) 1 else 2")))))
    by (vm_compute; reflexivity).
  split; [vm_compute; reflexivity|].
  exact (proj1 (emitted_code_is_final (ops := example_opcodes) _ _ _ _ _
                  (or_intror (or_introl H)))).
Defined.

(** X5 at [if (true) 1 else 2]. *)
Lemma errors_are_latched_witness :
  statement (ops := example_opcodes) 40 (initCompiler None false)
    (started "if (true) 1 else 2") =
    Ok (resultOf (initCompiler None false, started "if (true) 1 else 2")
          (statement (ops := example_opcodes) 40 (initCompiler None false)
             (started "if (true) 1 else 2"))) /\
  source (snd (resultOf (initCompiler None false, started "if (true) 1 else 2")
          (statement (ops := example_opcodes) 40 (initCompiler None false)
             (started "if (true) 1 else 2")))) =
    source (started "if (true) 1 else 2").
Proof.
  assert (H : statement (ops := example_opcodes) 40 (initCompiler None false)
                (started "if (true) 1 else 2") =
              Ok (fst (resultOf
                    (initCompiler None false, started "if (true) 1 else 2")
                    (statement (ops := example_opcodes) 40
                       (initCompiler None false)
                       (started "if (true) 1 else 2"))),
                  snd (resultOf
                    (initCompiler None false, started "if (true) 1 else 2")
                    (statement (ops := example_opcodes) 40
                       (initCompiler None false)
                       (started "if (true) 1 else 2")))))
    by (vm_compute; reflexivity).
  split; [vm_compute; reflexivity|].
  exact (proj1 (errors_are_latched (ops := example_opcodes) _ _ _ _ _
                  (or_intror (or_introl H)))).
Defined.

(** X6 at [if (true) 1 else 2]. *)
Lemma definition_progress_witness :
  type (current (started "if (true) 1 else 2")) <> TOKEN_EOF /\
  measure (snd (resultOf (initCompiler None false, started "if (true) 1 else 2")
          (statement (ops := example_opcodes) 40 (initCompiler None false)
             (started "if (true) 1 else 2")))) <
    measure (started "if (true) 1 else 2").
Proof.
  assert (H : statement (ops := example_opcodes) 40 (initCompiler None false)
                (started "if (true) 1 else 2") =
              Ok (fst (resultOf
                    (initCompiler None false, started "if (true) 1 else 2")
                    (statement (ops := example_opcodes) 40
                       (initCompiler None false)
                       (started "if (true) 1 else 2"))),
                  snd (resultOf
                    (initCompiler None false, started "if (true) 1 else 2")
                    (statement (ops := example_opcodes) 40
                       (initCompiler None false)
                       (started "if (true) 1 else 2")))))
    by (vm_compute; reflexivity).
  assert (N : type (current (started "if (true) 1 else 2")) <> TOKEN_EOF)
    by (vm_compute; discriminate).
  split; [exact N|].
  exact (proj1 (definition_progress (ops := example_opcodes) _ _ _ _ _
                  (or_intror H) N)).
Defined.

(** X7 at the source [x], with no local and no global. *)
Lemma undefined_variable_is_reported_witness :
  name (ops := example_opcodes) 10 (initCompiler None false) afterName true =
    Ok (resultOf (initCompiler None false, afterName)
          (name (ops := example_opcodes) 10 (initCompiler None false)
             afterName true)) /\
  hasError (snd (resultOf (initCompiler None false, afterName)
          (name (ops := example_opcodes) 10 (initCompiler None false)
             afterName true))) = true.
Proof.
  assert (H : name (ops := example_opcodes) 10 (initCompiler None false)
                afterName true =
              Ok (fst (resultOf (initCompiler None false, afterName)
                         (name (ops := example_opcodes) 10
                            (initCompiler None false) afterName true)),
                  snd (resultOf (initCompiler None false, afterName)
                         (name (ops := example_opcodes) 10
                            (initCompiler None false) afterName true))))
    by (vm_compute; reflexivity).
  split; [vm_compute; reflexivity|].
  apply (undefined_variable_is_reported (ops := example_opcodes) _ _ _ _ _ _ H);
    vm_compute; reflexivity.
Defined.

(** X8 at [1 + 2]. *)
Lemma success_consumes_whole_source_witness :
  compile (ops := example_opcodes) 30 emptyVM (list_ascii_of_string "1 + 2") =
    Ok (Some (fn (fst (compiled "1 + 2"))), vm (snd (compiled "1 + 2"))) /\
  exists c p,
    compile_frame (ops := example_opcodes) 30 emptyVM
      (list_ascii_of_string "1 + 2") = Ok (c, p) /\
    currentChar p = 5.
Proof.
  assert (H : compile (ops := example_opcodes) 30 emptyVM
                (list_ascii_of_string "1 + 2") =
              Ok (Some (fn (fst (compiled "1 + 2"))), vm (snd (compiled "1 + 2"))))
    by (vm_compute; reflexivity).
  split; [exact H|].
  destruct (success_consumes_whole_source (ops := example_opcodes) _ _ _ _ _ H)
    as (c & p & Hf & _ & _ & _ & Hend).
  exists c, p. split; [exact Hf|]. apply Hend.
  simpl. intros [E|[E|[E|[E|[E|[]]]]]]; discriminate E.
Defined.

(** X9 at the literal [abc]. *)
Lemma string_literal_constant_witness :
  (forall c, In c ["a"; "b"; "c"] -> c <> quote) /\
  compile (ops := example_opcodes) 8 emptyVM quotedABC =
    Ok (Some {| bytecode := [toByte CODE_CONSTANT; 0%Z; toByte CODE_END];
                constants := [newString ["a"; "b"; "c"]];
                numConstants := 1 |},
        emptyVM).
Proof.
  assert (H : forall c, In c ["a"; "b"; "c"] -> c <> quote).
  { intros c [<-|[<-|[<-|[]]]]; discriminate. }
  split; [exact H|].
  apply (string_literal_constant (ops := example_opcodes) emptyVM _ 8 H). lia.
Defined.

(** X10 at [a.b(1)]. *)
Lemma call_arity_witness :
  call (ops := example_opcodes) 20 (initCompiler None false) afterDot false =
    Ok (resultOf (initCompiler None false, afterDot)
          (call (ops := example_opcodes) 20 (initCompiler None false)
             afterDot false)) /\
  2 <= numCodes (fst (resultOf (initCompiler None false, afterDot)
          (call (ops := example_opcodes) 20 (initCompiler None false)
             afterDot false))).
Proof.
  assert (H : call (ops := example_opcodes) 20 (initCompiler None false)
                afterDot false =
              Ok (fst (resultOf (initCompiler None false, afterDot)
                         (call (ops := example_opcodes) 20
                            (initCompiler None false) afterDot false)),
                  snd (resultOf (initCompiler None false, afterDot)
                         (call (ops := example_opcodes) 20
                            (initCompiler None false) afterDot false))))
    by (vm_compute; reflexivity).
  split; [vm_compute; reflexivity|].
  destruct (call_arity (ops := example_opcodes) _ _ _ _ _ _ H)
    as (p1 & numArgs & _ & _ & _ & _ & Hcodes & _).
  exact Hcodes.
Defined.

(** X12 at the keyword [if]. *)
Lemma tokens_spell_themselves_witness :
  nextToken (initParser emptyVM ["i"; "f"]) = Ok (started "if") /\
  spelling (type (current (started "if"))) = Some ["i"; "f"] /\
  lexeme (started "if") (current (started "if")) = ["i"; "f"].
Proof.
  assert (H : nextToken (initParser emptyVM ["i"; "f"]) = Ok (started "if"))
    by (vm_compute; reflexivity).
  assert (S : spelling (type (current (started "if"))) = Some ["i"; "f"])
    by (vm_compute; reflexivity).
  split; [exact H|]. split; [exact S|].
  exact (tokens_spell_themselves _ _ _ H S).
Defined.

(** X13 at the literal [abc]. *)
Lemma string_token_is_quoted_witness :
  nextToken (initParser emptyVM quotedABC) =
    Ok (next (initParser emptyVM quotedABC)) /\
  type (current (next (initParser emptyVM quotedABC))) = TOKEN_STRING /\
  exists text,
    lexeme (next (initParser emptyVM quotedABC))
           (current (next (initParser emptyVM quotedABC))) =
      quote :: text ++ [quote].
Proof.
  assert (H : nextToken (initParser emptyVM quotedABC) =
              Ok (next (initParser emptyVM quotedABC)))
    by (vm_compute; reflexivity).
  assert (T : type (current (next (initParser emptyVM quotedABC))) = TOKEN_STRING)
    by (vm_compute; reflexivity).
  split; [exact H|]. split; [exact T|].
  destruct (string_token_is_quoted _ _ H T) as (text & Hlex & _).
  exists text. exact Hlex.
Defined.

(** X14 at a comment with a newline in it. *)
Lemma unterminated_comment_ends_file_witness :
  exists p',
    nextToken (initParser emptyVM ["/"; "*"; "a"; newline; "b"]) = Ok p' /\
    type (current p') = TOKEN_EOF /\
    line (current p') = 1.
Proof.
  destruct (unterminated_comment_ends_file
              (initParser emptyVM ["/"; "*"; "a"; newline; "b"]))
    as (p' & H & E & _ & _ & _ & L).
  - reflexivity.
  - reflexivity.
  - simpl. intros i Hi [Hs _].
    destruct i as [|[|[|[|[|i]]]]]; simpl in Hs; try lia; discriminate Hs.
  - exists p'. split; [exact H|]. split; [exact E | exact L].
Defined.

(** X15 at [fn 1]. *)
Lemma function_literal_constant_witness :
  function (ops := example_opcodes) 20 (initCompiler None false) afterFn false =
    Ok (resultOf (initCompiler None false, afterFn)
          (function (ops := example_opcodes) 20 (initCompiler None false)
             afterFn false)) /\
  numCodes (fst (resultOf (initCompiler None false, afterFn)
          (function (ops := example_opcodes) 20 (initCompiler None false)
             afterFn false))) = 2.
Proof.
  assert (H : function (ops := example_opcodes) 20 (initCompiler None false)
                afterFn false =
              Ok (fst (resultOf (initCompiler None false, afterFn)
                         (function (ops := example_opcodes) 20
                            (initCompiler None false) afterFn false)),
                  snd (resultOf (initCompiler None false, afterFn)
                         (function (ops := example_opcodes) 20
                            (initCompiler None false) afterFn false))))
    by (vm_compute; reflexivity).
  split; [vm_compute; reflexivity|].
  destruct (function_literal_constant (ops := example_opcodes) _ _ _ _ _ _ H)
    as (_ & _ & Hn & _).
  exact Hn.
Defined.

(** X16 at the name [x]. *)
Lemma names_are_not_keywords_witness :
  nextToken (initParser emptyVM ["x"]) = Ok (started "x") /\
  type (current (started "x")) = TOKEN_NAME /\
  spelling TOKEN_IF <> Some (lexeme (started "x") (current (started "x"))).
Proof.
  assert (H : nextToken (initParser emptyVM ["x"]) = Ok (started "x"))
    by (vm_compute; reflexivity).
  assert (T : type (current (started "x")) = TOKEN_NAME)
    by (vm_compute; reflexivity).
  split; [exact H|]. split; [exact T|].
  exact (proj2 (names_are_not_keywords _ _ H T) TOKEN_IF).
Defined.
